(** * GoldenDict remote-article engine: MediaWiki and Forvo sources

    A shallow embedding of [mediawiki.cc] (both revisions present in the
    repository) and of the request part of [forvo.cc], followed by the
    properties of the article-fetch state machine, the debounced word
    search and the HTML rewrite pipeline.

    Conventions.
    - A [QString] and a [std::wstring] are sequences of characters; a
      character is its code ([N]).  [gd::toQString] and [gd::toWString]
      are the identity on this representation.
    - A [QNetworkReply *] is a natural number: the network manager hands
      out a fresh one for every [get].
    - What the transport eventually reports for a reply, what lies in
      memory next to a word's buffer, and the Qt services that the code
      only calls (UTF-8 conversion, translation of messages, audio link
      registration, character tables) are fields of an environment
      record over which every statement is quantified. *)

From Stdlib Require Import String Ascii.
From Stdlib Require Import List ZArith NArith Bool Arith Lia Permutation.
Import ListNotations.
Local Open Scope nat_scope.

(* ================================================================== *)
(** * Part I: the model                                                *)
(* ================================================================== *)

(** ** Strings *)

Module Qt.

Definition QChar := N.
Definition QString := list QChar.
Definition QByteArray := list N.

(** Literals are written as Rocq strings in which a backquote stands for
    the double-quote character (code 34). *)
Definition chr_of_ascii (a : ascii) : QChar :=
  if Ascii.eqb a "`"%char then 34%N else N_of_ascii a.

Fixpoint qs (s : string) : QString :=
  match s with
  | EmptyString => []
  | String a s' => chr_of_ascii a :: qs s'
  end.
Arguments qs _%_string.

Definition qc (a : ascii) : QChar := chr_of_ascii a.
Arguments qc _%_char.

Fixpoint eqs (a b : QString) : bool :=
  match a, b with
  | [], [] => true
  | x :: a', y :: b' => N.eqb x y && eqs a' b'
  | _, _ => false
  end.

Definition isEmpty (s : QString) : bool :=
  match s with [] => true | _ => false end.

(** [startsWith needle s]: [needle] is a prefix of [s]. *)
Fixpoint startsWith (needle s : QString) : bool :=
  match needle, s with
  | [], _ => true
  | x :: n', y :: s' => N.eqb x y && startsWith n' s'
  | _ :: _, [] => false
  end.

Definition endsWith (s needle : QString) : bool :=
  startsWith (rev needle) (rev s).

(** Position of the first occurrence of [needle] in [s], counted from
    [pos] (the index of the head of [s]). *)
Fixpoint findFrom (needle s : QString) (pos : nat) : option nat :=
  if startsWith needle s then Some pos
  else match s with
       | [] => None
       | _ :: s' => findFrom needle s' (S pos)
       end.

(** [QString::indexOf(needle, from)], for [from >= 0]; -1 when absent. *)
Definition indexOf (s needle : QString) (from : nat) : Z :=
  if length s <? from then (-1)%Z
  else match findFrom needle (skipn from s) from with
       | Some p => Z.of_nat p
       | None => (-1)%Z
       end.

(** [QString::mid(position, n)] with Qt 5's treatment of a negative
    position or length. *)
Definition mid (s : QString) (position n : Z) : QString :=
  let size := Z.of_nat (length s) in
  if (position >? size)%Z then []
  else if (position <? 0)%Z then
    if ((n <? 0) || (n + position >=? size))%Z then s
    else if (n + position <=? 0)%Z then []
    else firstn (Z.to_nat (n + position)) s
  else if ((n <? 0) || (n >? size - position))%Z
       then skipn (Z.to_nat position) s
       else firstn (Z.to_nat n) (skipn (Z.to_nat position) s).

(** [QString::replace(QChar before, QString after)]. *)
Fixpoint replaceChar (before : QChar) (after s : QString) : QString :=
  match s with
  | [] => []
  | c :: s' => (if N.eqb c before then after else [c])
                 ++ replaceChar before after s'
  end.

(** [QString::replace(QString before, QString after)] for a non-empty
    [before]: every occurrence, left to right, the text put in place is
    not scanned again.  [skip] characters of a match are still to drop. *)
Fixpoint replaceFrom (before after : QString) (skip : nat) (s : QString)
  : QString :=
  match s with
  | [] => []
  | c :: s' =>
      match skip with
      | S k => replaceFrom before after k s'
      | 0 => if startsWith before s
             then after ++ replaceFrom before after (length before - 1) s'
             else c :: replaceFrom before after 0 s'
      end
  end.

Definition replace (before after s : QString) : QString :=
  replaceFrom before after 0 s.

(** Character tables of Qt that the regular expressions consult. *)
Record CharTable := {
  isSpace : QChar -> bool;   (* \s *)
  isWord  : QChar -> bool;   (* \w *)
  isDigit : QChar -> bool;   (* \d *)
  toLower : QChar -> QChar   (* case folding of case-insensitive patterns *)
}.

(** The tables restricted to ASCII, used for concrete evaluations. *)
Definition betw (lo hi c : N) : bool := (lo <=? c)%N && (c <=? hi)%N.

Definition asciiTable : CharTable := {|
  isSpace := fun c => betw 9 13 c || N.eqb c 32;
  isWord  := fun c => betw 48 57 c || betw 65 90 c || betw 97 122 c
                      || N.eqb c 95;
  isDigit := fun c => betw 48 57 c;
  toLower := fun c => if betw 65 90 c then (c + 32)%N else c
|}.

End Qt.
Import Qt.

(** ** Regular expressions

    The patterns of the source use character classes, literals,
    concatenation, greedy and minimal repetition, an optional group and
    numbered captures; none uses anchors or look-around, so whether a
    pattern matches at a position depends on the text from that position
    on only.  The matcher is a backtracking one: of the matches that start
    at a position it returns the first in priority order. *)

Module Regex.

Inductive regex :=
| Eps
| Cls (p : QChar -> bool)
| Cat (a b : regex)
| Rep (greedy : bool) (a : regex)      (* a* , or a*? when not greedy *)
| Opt (a : regex)                      (* a? *)
| Cap (n : nat) (a : regex).           (* the n-th capturing group *)

Definition Caps := list (nat * QString).
Definition Match := (QString * Caps)%type.   (* text left, captures *)

Fixpoint cap (n : nat) (cs : Caps) : QString :=
  match cs with
  | [] => []
  | (m, t) :: cs' => if Nat.eqb m n then t else cap n cs'
  end.

(** [mt r s cs k]: match [r] at the head of [s], then hand what is left
    to [k].  An iteration of a repetition must consume a character. *)
Fixpoint mt (r : regex) (s : QString) (cs : Caps)
            (k : QString -> Caps -> option Match) {struct r} : option Match :=
  match r with
  | Eps => k s cs
  | Cls p => match s with
             | c :: s' => if p c then k s' cs else None
             | [] => None
             end
  | Cat a b => mt a s cs (fun s' cs' => mt b s' cs' k)
  | Opt a => match mt a s cs k with
             | Some m => Some m
             | None => k s cs
             end
  | Cap n a =>
      mt a s cs
         (fun s' cs' => k s' ((n, firstn (length s - length s') s) :: cs'))
  | Rep greedy a =>
      (fix loop (fuel : nat) (s : QString) (cs : Caps) : option Match :=
         match fuel with
         | 0 => k s cs
         | S fuel' =>
             let more :=
               mt a s cs (fun s' cs' =>
                            if length s' <? length s
                            then loop fuel' s' cs' else None) in
             if greedy
             then match more with Some m => Some m | None => k s cs end
             else match k s cs with Some m => Some m | None => more end
         end) (length s) s cs
  end.

Definition matchAt (r : regex) (s : QString) : option Match :=
  mt r s [] (fun s' cs => Some (s', cs)).

(** [QRegExp::exactMatch]: the whole of [s] has to be matched. *)
Definition exactMatch (r : regex) (s : QString) : option Caps :=
  match mt r s [] (fun s' cs => if isEmpty s' then Some (s', cs) else None)
  with
  | Some (_, cs) => Some cs
  | None => None
  end.

(** First position, from [pos] on, at which [r] matches. *)
Fixpoint search (r : regex) (s : QString) (pos : nat)
  : option (nat * Match) :=
  match matchAt r s with
  | Some m => Some (pos, m)
  | None => match s with
            | [] => None
            | _ :: s' => search r s' (S pos)
            end
  end.

(** [QRegExp::indexIn(s, from)]: position, matched length, captures. *)
Definition indexIn (r : regex) (s : QString) (from : nat)
  : option (nat * nat * Caps) :=
  if length s <? from then None
  else match search r (skipn from s) from with
       | Some (p, (rest, cs)) => Some (p, length s - p - length rest, cs)
       | None => None
       end.

(** Last position not after [from] at which [r] matches
    ([QString::lastIndexOf(QRegExp, from)]); -1 when there is none. *)
Fixpoint lastIndexFrom (r : regex) (s : QString) (from : nat) : Z :=
  match matchAt r (skipn from s) with
  | Some _ => Z.of_nat from
  | None => match from with
            | 0 => (-1)%Z
            | S from' => lastIndexFrom r s from'
            end
  end.

Definition lastIndexOf (r : regex) (s : QString) (from : Z) : Z :=
  if (from <? 0)%Z then (-1)%Z
  else lastIndexFrom r s (Nat.min (Z.to_nat from) (length s)).

(** Replacement text: [\1] .. [\9] stand for the captures, as far as the
    pattern has that many groups. *)
Definition digitValue (c : QChar) : option nat :=
  if betw 48 57 c then Some (N.to_nat (c - 48)) else None.

Fixpoint expand (ngroups : nat) (cs : Caps) (after : QString) : QString :=
  match after with
  | [] => []
  | c :: rest =>
      match rest with
      | d :: rest' =>
          if N.eqb c 92 then
            match digitValue d with
            | Some no =>
                if (0 <? no) && (no <=? ngroups)
                then cap no cs ++ expand ngroups cs rest'
                else c :: expand ngroups cs rest
            | None => c :: expand ngroups cs rest
            end
          else c :: expand ngroups cs rest
      | [] => [c]
      end
  end.

(** A pass over the text: at each match the matched text [m] is replaced
    by [f m captures]; the scan resumes after the match.  [skip]
    characters of the current match are still to drop. *)
Fixpoint rewriteFrom (r : regex) (f : QString -> Caps -> QString)
                     (skip : nat) (s : QString) : QString :=
  match s with
  | [] => []
  | c :: s' =>
      match skip with
      | S k => rewriteFrom r f k s'
      | 0 =>
          match matchAt r s with
          | Some (rest, cs) =>
              let len := length s - length rest in
              let out := f (firstn len s) cs in
              match len with
              | 0 => out ++ c :: rewriteFrom r f 0 s'
              | S k => out ++ rewriteFrom r f k s'
              end
          | None => c :: rewriteFrom r f 0 s'
          end
      end
  end.

(** [QString::replace(QRegExp, after)] and
    [QString::replace(QRegularExpression, after)]. *)
Definition replaceRx (r : regex) (ngroups : nat) (after s : QString)
  : QString :=
  rewriteFrom r (fun _ cs => expand ngroups cs after) 0 s.

(** Modelled from the spec: [Qt4x5::Regex::replace( str, pattern, after,
    caseSensitivity, ... )] is defined in qt4x5.hh, which is not among
    the sources.  The stages that call it are described as rewriting
    every link that matches: it is taken to replace every match of the
    pattern in [str] by [after], as [QString::replace] does for a regular
    expression; the case sensitivity it is given is part of the pattern
    here. *)
Definition Qt4x5_Regex_replace (r : regex) (ngroups : nat)
                               (after s : QString) : QString :=
  replaceRx r ngroups after s.

(** Pattern building blocks. *)
Definition chr (c : QChar) : regex := Cls (N.eqb c).
Definition chrCI (T : CharTable) (c : QChar) : regex :=
  Cls (fun x => N.eqb (toLower T x) (toLower T c)).
Definition notIn (l : QString) : regex :=
  Cls (fun x => negb (existsb (N.eqb x) l)).
Definition anyChar : regex := Cls (fun _ => true).
Definition anyButNewline : regex := Cls (fun x => negb (N.eqb x 10)).
Definition plus (a : regex) : regex := Cat a (Rep true a).
Definition plusMin (a : regex) : regex := Cat a (Rep false a).
Definition star (a : regex) : regex := Rep true a.

Fixpoint seq (l : list regex) : regex :=
  match l with
  | [] => Eps
  | [a] => a
  | a :: l' => Cat a (seq l')
  end.

Definition lit (s : QString) : regex := seq (map chr s).
Definition litCI (T : CharTable) (s : QString) : regex :=
  seq (map (chrCI T) s).

End Regex.
Import Regex.

(** ** The request base classes ([dictionary.hh], not in the sources read) *)

Module Dictionary.

Inductive Signal := updatedSignal | finishedSignal.

(** Modelled from the spec: [Dictionary::Request], the base of every
    request, is declared outside the files at hand.  The spec gives a
    request a finished flag entered at most once (finishing a finished
    request is a no-op), an optional error text of which the last one set
    is kept, and a "buffer updated" notification to the consumer. *)
Record Request := {
  isFinishedFlag : bool;
  errorString : QString;
  emitted : list Signal
}.

Definition newRequest : Request :=
  {| isFinishedFlag := false; errorString := []; emitted := [] |}.

Definition isFinished (q : Request) : bool := isFinishedFlag q.

Definition finish (q : Request) : Request :=
  if isFinishedFlag q then q
  else {| isFinishedFlag := true;
          errorString := errorString q;
          emitted := emitted q ++ [finishedSignal] |}.

Definition update (q : Request) : Request :=
  if isFinishedFlag q then q
  else {| isFinishedFlag := isFinishedFlag q;
          errorString := errorString q;
          emitted := emitted q ++ [updatedSignal] |}.

Definition setErrorString (str : QString) (q : Request) : Request :=
  {| isFinishedFlag := isFinishedFlag q;
     errorString := str;
     emitted := emitted q |}.

(** What a consumer can read of a data request. *)
Record DataRequest := {
  dr_base : Request;
  dr_data : QByteArray;
  dr_hasAnyData : bool
}.

(** Modelled from the spec: [DataRequestInstant( succeeded )] is the
    request "rejected immediately as Finished(no-data) without any
    network call": finished on construction, empty buffer, no error. *)
Definition DataRequestInstant (succeeded : bool) : DataRequest :=
  {| dr_base := finish newRequest; dr_data := [];
     dr_hasAnyData := succeeded |}.

(** What a consumer can read of a word search request. *)
Record WordSearchRequest := {
  ws_base : Request;
  ws_matches : list QString
}.

(** Modelled from the spec: [WordSearchRequestInstant] is the search
    request that is finished on construction with no match and no
    error. *)
Definition WordSearchRequestInstant : WordSearchRequest :=
  {| ws_base := finish newRequest; ws_matches := [] |}.

End Dictionary.
Import Dictionary.

(** ** The transport *)

Module Net.

Definition Reply := nat.

(** The network manager: the next reply to hand out and, for every
    [get] so far, the reply and the word its URL asks for. *)
Record Manager := {
  nextReply : Reply;
  sent : list (Reply * QString)
}.

Definition get (mgr : Manager) (word : QString) : Reply * Manager :=
  (nextReply mgr,
   {| nextReply := S (nextReply mgr);
      sent := sent mgr ++ [(nextReply mgr, word)] |}).

(** What the finished reply of an article query holds, as
    [requestFinished] tells the cases apart. *)
Inductive Outcome :=
| NetworkError (errorString : QString)   (* error() != NoError *)
| XmlError (errorStr : QString) (errorLine errorColumn : Z)
                                         (* setContent failed *)
| NoParseNode                            (* no api/parse, or revid 0 *)
| NoTextNode                             (* parse node without text *)
| Text (articleString : QString).

(** What the finished reply of a prefix query holds. *)
Inductive SearchOutcome :=
| SearchNetworkError (errorString : QString)
| SearchXmlError (errorStr : QString) (errorLine errorColumn : Z)
| NoPagesNode
| Pages (titles : list QString).

End Net.
Import Net.

(** ** [mediawiki.cc], current revision: the rewriting of an article *)

Module Rewrite.

(** What [processArticle] takes from its surroundings. *)
Record Config := {
  T : CharTable;
  url : QString;           (* the url of the dictionary *)
  wikiUrl : QString;       (* wikiUrl.toString(), the url with path / *)
  scheme : QString;        (* wikiUrl.scheme() *)
  dictId : QString;        (* dictPtr->getId() *)
  addAudioLink : QString -> QString -> QString
}.

Definition dq : QChar := qc "`".
Definition space (C : Config) : regex := Cls (isSpace (T C)).

(** *** Stage 1: [RootBasedUrlFixer] *)

Definition fixUrl (url : QString) : QString :=
  if (indexOf url (qs "://") 0 >=? 0)%Z then url      (* external link *)
  else
    let url := if (indexOf url [qc ":"] 0 >=? 0)%Z
               then replaceChar (qc ":") (qs "%3A") url else url in
    let n := indexOf url [qc "#"] 1 in
    if (n >? 0)%Z then
      let anchor := replaceChar (qc "_") (qs "%5F") (mid url (n + 1) (-1)) in
      firstn (Z.to_nat n) url ++ qs "?gdanchor=" ++ anchor
    else url.

Definition linkPrefix (C : Config) : regex :=          (* <a\s+href=`/ *)
  seq [lit (qs "<a"); plus (space C); lit (qs "href=`/")].

(** The [for] loop of [fixedArticle]: the position reached and the
    result built so far; [None] when [fuel] iterations did not reach the
    exit. *)
Fixpoint fixedArticle_loop (C : Config) (fuel : nat) (article : QString)
                           (pos : nat) (result : QString)
  : option (nat * QString) :=
  match fuel with
  | 0 => None
  | S fuel' =>
      match indexIn (linkPrefix C) article pos with
      | None => Some (pos, result)
      | Some (p, matchedLength, _) =>
          let nextPos := p + matchedLength in
          let result := result ++ firstn (nextPos - pos) (skipn pos article) in
          let pos := nextPos in
          let nextPos := indexOf article [dq] pos in
          if (nextPos <? 0)%Z then Some (pos, result)   (* unterminated *)
          else
            let url := mid article (Z.of_nat pos) (nextPos - Z.of_nat pos) in
            fixedArticle_loop C fuel' article (Z.to_nat nextPos)
                              (result ++ fixUrl url)
      end
  end.

Definition fixedArticle (C : Config) (article : QString) : option QString :=
  match fixedArticle_loop C (S (length article)) article 0 [] with
  | None => None
  | Some (pos, result) =>
      if pos =? 0 then Some article      (* no links *)
      else Some (result ++ skipn pos article)
  end.

(** *** Stage 2: links to index.php made absolute *)

Definition indexPhp (C : Config) : regex :=
                                      (* <a\shref=`(/(\w*/)*index.php\?) *)
  seq [lit (qs "<a"); space C; lit (qs "href=`");
       Cap 1 (seq [chr (qc "/");
                   star (Cap 2 (seq [star (Cls (isWord (T C))); chr (qc "/")]));
                   lit (qs "index"); anyButNewline; lit (qs "php?")])].

Definition absoluteIndexPhp (C : Config) (s : QString) : QString :=
  Qt4x5_Regex_replace (indexPhp C) 2
    (qs "<a href=`" ++ wikiUrl C ++ qs "\1") s.

(** *** Stage 3: audio tags *)

Definition reg1 (C : Config) : regex :=   (* <audio\s.+</audio>, minimal *)
  seq [litCI (T C) (qs "<audio"); space C; plusMin anyChar;
       litCI (T C) (qs "</audio>")].

Definition reg2 (C : Config) : regex :=        (* <source\s+src=`([^`]+) *)
  seq [litCI (T C) (qs "<source"); plus (space C); litCI (T C) (qs "src=`");
       Cap 1 (plus (notIn (qs "`")))].

Definition playLink (ref : QString) : QString :=
  qs "<a href=`" ++ ref
  ++ qs "`><img src=`qrcx://localhost/icons/playsound.png` border=`0` align=`absmiddle` alt=`Play`/></a>".

Fixpoint audioTags_loop (C : Config) (fuel : nat) (articleString : QString)
                        (pos : nat) : option QString :=
  match fuel with
  | 0 => None
  | S fuel' =>
      match indexIn (reg1 C) articleString pos with
      | Some (p, len, _) =>
          let tag := firstn len (skipn p articleString) in
          let articleString :=
            match indexIn (reg2 C) tag 0 with
            | Some (_, _, cs) =>
                firstn p articleString ++ playLink (cap 1 cs)
                  ++ skipn (p + length tag) articleString
            | None => articleString
            end in
          audioTags_loop C fuel' articleString (p + 1)
      | None => Some articleString
      end
  end.

Definition audioTags (C : Config) (s : QString) : option QString :=
  audioTags_loop C (S (length s)) s 0.

(** *** Stage 4: scheme added to //host and to root-relative urls *)

Definition commonsOgg : regex :=
  seq [lit (qs "upload.wikimedia.org/wikipedia/commons/");
       star (notIn (qs "`'&")); lit (qs ".ogg")].

Definition audioUrl (C : Config) : regex :=
  seq [lit (qs "<a"); plus (space C); lit (qs "href=`");
       Cap 1 (Cat (lit (qs "//")) commonsOgg)].

Definition qualifyAudioUrl (C : Config) (s : QString) : QString :=
  Qt4x5_Regex_replace (audioUrl C) 1
    (addAudioLink C (qs "`" ++ scheme C ++ qs ":\1`") (dictId C)
       ++ qs "<a href=`" ++ scheme C ++ qs ":\1") s.

Definition srcHost : QString := qs " src=`//".
Definition srcRoot : QString := qs "src=`/".

Definition qualifySrc (C : Config) (s : QString) : QString :=
  replace srcRoot (qs "src=`" ++ wikiUrl C)
    (replace srcHost (qs " src=`" ++ scheme C ++ qs "://") s).

Definition schemeQualify (C : Config) (s : QString) : QString :=
  qualifySrc C (qualifyAudioUrl C s).

(** *** Stage 5: the /wiki/ prefix taken off links *)

Definition wikiPrefix (C : Config) : regex :=      (* <a\shref=`/wiki/ *)
  seq [lit (qs "<a"); space C; lit (qs "href=`/wiki/")].

Definition stripWikiPrefix (C : Config) (s : QString) : QString :=
  replaceRx (wikiPrefix C) 0 (qs "<a href=`") s.

(** *** Audio buttons (between stages 5 and 6) *)

Definition audioButton (C : Config) : regex :=
  seq [lit (qs "<button"); plus (space C); star (notIn (qs ">"));
       Cap 1 commonsOgg;
       star (notIn (qs ">")); chr (qc ">"); star (space C);
       chr (qc "<"); star (notIn (qs "<")); lit (qs "</button>")].

Definition fixAudioButtons (C : Config) (s : QString) : QString :=
  replaceRx (audioButton C) 1
    (addAudioLink C (qs "`" ++ scheme C ++ qs "://\1`") (dictId C)
       ++ qs "<a href=`" ++ scheme C
       ++ qs "://\1`><img src=`qrcx://localhost/icons/playsound.png` border=`0` alt=`Play`></a>")
    s.

(** *** Stage 6: underscores to spaces in links (the Qt 5 branch) *)

Definition linkRegex (C : Config) : regex :=     (* <a\s+href=`[^/:`>#]+ *)
  seq [lit (qs "<a"); plus (space C); lit (qs "href=`");
       plus (notIn (qs "/:`>#"))].

Definition underscoreToSpace (c : QChar) : QChar :=
  if N.eqb c (qc "_") then qc " " else c.

Definition underscoresToSpacesInLinks (C : Config) (s : QString) : QString :=
  rewriteFrom (linkRegex C) (fun m _ => map underscoreToSpace m) 0 s.

(** *** Stage 7: links to file pages *)

Definition fileLink (C : Config) : regex :=
                                  (* <a\s+href=`([^:/`]*file%3A[^/`]+`) *)
  seq [litCI (T C) (qs "<a"); plus (space C); litCI (T C) (qs "href=`");
       Cap 1 (seq [star (notIn (qs ":/`")); litCI (T C) (qs "file%3A");
                   plus (notIn (qs "/`")); chr dq])].

Definition fixFileLinks (C : Config) (s : QString) : QString :=
  Qt4x5_Regex_replace (fileLink C) 1
    (qs "<a href=`" ++ url C ++ qs "/index.php?title=\1") s.

(** *** [processArticle] *)

Definition andThen (f : QString -> QString) (o : option QString)
  : option QString :=
  match o with Some s => Some (f s) | None => None end.

Definition processArticle (C : Config) (articleString : QString)
  : option QString :=
  match fixedArticle C articleString with
  | None => None
  | Some s1 =>
      andThen (fixFileLinks C)
        (andThen (underscoresToSpacesInLinks C)
           (andThen (fixAudioButtons C)
              (andThen (stripWikiPrefix C)
                 (andThen (schemeQualify C)
                    (audioTags C (absoluteIndexPhp C s1))))))
  end.

(** *** The replacements of the Fandom classes

    [FandomArticleRequest::preprocessArticle] and [makeEraIconsVisible];
    they run on the article before [processArticle]. *)

Definition digit (C : Config) : regex := Cls (isDigit (T C)).

Definition lazyImage (C : Config) : regex :=
  seq [lit (qs "<img"); space C; plus (notIn (qs ">"));
       lit (qs "lzy lzyPlcHld"); plus (notIn (qs ">")); chr (qc ">");
       star (space C); lit (qs "<noscript>"); star (space C);
       Cap 1 (seq [lit (qs "<img"); space C; plus (notIn (qs "<"))]);
       lit (qs "</noscript>")].

Definition vignetteOgg (C : Config) : regex :=
  seq [lit (qs "<a href=");
       Cap 1 (seq [lit (qs "`https://vignette.wikia.nocookie.net/");
                   plus (notIn (qs "`")); lit (qs ".ogg")]);
       Opt (Cap 2 (lit (qs "/revision/latest")));
       Opt (Cap 3 (seq [lit (qs "?cb="); plus (digit C)]));
       chr dq].

Definition scrollboxHeight (C : Config) : regex :=
  seq [Cap 1 (seq [lit (qs "class=`scrollbox`"); star (notIn [10%N]);
                   notIn (qs "-")]);
       lit (qs "height:"); plus (digit C); lit (qs "px;")].

Definition fandomFixes (C : Config) (articleString : QString) : QString :=
  replaceRx (scrollboxHeight C) 1 (qs "\1")
    (replaceRx (vignetteOgg C) 3
       (addAudioLink C (qs "\1`") (dictId C) ++ qs "<a href=\1`")
       (Qt4x5_Regex_replace (lazyImage C) 1 (qs "\1") articleString)).

Definition eraIcons : regex :=
  seq [Cap 1 (seq [lit (qs "id=`title-eraicons` style=`");
                   star (notIn (qs "`"))]);
       lit (qs "display:none"); Opt (chr (qc ";"))].

Definition makeEraIconsVisible (article : QString) : QString :=
  replaceRx eraIcons 1 (qs "\1") article.

(** *** The stages one by one

    A stage is its pass over a text together with the test that one of
    the patterns it rewrites occurs in the text. *)

Definition occurs (r : regex) (s : QString) : bool :=
  match search r s 0 with Some _ => true | None => false end.

Definition contains (needle s : QString) : bool :=
  match findFrom needle s 0 with Some _ => true | None => false end.

Record Stage := {
  pass : QString -> option QString;
  triggered : QString -> bool
}.

Definition linkNormalization (C : Config) : Stage :=
  {| pass := fixedArticle C; triggered := occurs (linkPrefix C) |}.
Definition indexPhpStage (C : Config) : Stage :=
  {| pass := fun s => Some (absoluteIndexPhp C s);
     triggered := occurs (indexPhp C) |}.
Definition audioTagStage (C : Config) : Stage :=
  {| pass := audioTags C; triggered := occurs (reg1 C) |}.
Definition schemeStage (C : Config) : Stage :=
  {| pass := fun s => Some (schemeQualify C s);
     triggered := fun s => occurs (audioUrl C) s || contains srcHost s
                           || contains srcRoot s |}.
Definition wikiPrefixStage (C : Config) : Stage :=
  {| pass := fun s => Some (stripWikiPrefix C s);
     triggered := occurs (wikiPrefix C) |}.
Definition audioButtonStage (C : Config) : Stage :=
  {| pass := fun s => Some (fixAudioButtons C s);
     triggered := occurs (audioButton C) |}.
Definition underscoreStage (C : Config) : Stage :=
  {| pass := fun s => Some (underscoresToSpacesInLinks C s);
     triggered := occurs (linkRegex C) |}.
Definition fileLinkStage (C : Config) : Stage :=
  {| pass := fun s => Some (fixFileLinks C s);
     triggered := occurs (fileLink C) |}.

(** The passes of [processArticle] in order: the seven stages of the
    pipeline, and the pass over audio buttons that the code runs between
    the fifth and the sixth. *)
Definition stages (C : Config) : list Stage :=
  [linkNormalization C; indexPhpStage C; audioTagStage C; schemeStage C;
   wikiPrefixStage C; audioButtonStage C; underscoreStage C;
   fileLinkStage C].

(** Applying a stage again to what it produced. *)
Definition twice (st : Stage) (s : QString) : option QString :=
  match pass st s with
  | Some s1 => pass st s1
  | None => None
  end.

(** A configuration for concrete evaluations. *)
Definition sampleConfig : Config :=
  {| T := asciiTable; url := qs "https://en.wikipedia.org/w";
     wikiUrl := qs "https://en.wikipedia.org/"; scheme := qs "https";
     dictId := qs "dict";
     addAudioLink := fun u _ => qs "<script>" ++ u ++ qs "</script>" |}.

End Rewrite.

(** ** [mediawiki.cc], current revision: article requests *)

Module MediaWiki.

(** *** [std::equal] over a word's buffer

    An iterator into a word is its offset from [word.begin()].
    Dereferencing an offset inside the word yields its character; what a
    dereference outside the buffer yields is not determined by the
    program: it is taken from [stray]. *)
Definition inBounds (word : QString) (i : Z) : bool :=
  ((0 <=? i) && (i <? Z.of_nat (length word)))%Z.

Definition deref (stray : Z -> QChar) (word : QString) (i : Z) : QChar :=
  if inBounds word i then nth (Z.to_nat i) word 0%N else stray i.

(** [std::equal( first1, last1, first2 )] where [first2] runs over
    [other] and [last1 - first1] is the length of [other]: the result,
    and the offsets of the word that were dereferenced. *)
Fixpoint std_equal (stray : Z -> QChar) (word : QString) (first1 : Z)
                   (other : QString) : bool * list Z :=
  match other with
  | [] => (true, [])
  | c :: other' =>
      if N.eqb (deref stray word first1) c
      then let (b, reads) := std_equal stray word (first1 + 1) other' in
           (b, first1 :: reads)
      else (false, [first1])
  end.

(** The test at the head of [SuffixAddingArticleRequest::doAddQuery]:
    [std::equal( word.end() - preferableSuffix.size(), word.end(),
                 preferableSuffix.begin() )]. *)
Definition suffixCheck (stray : Z -> QChar) (word preferableSuffix : QString)
  : bool * list Z :=
  std_equal stray word
            (Z.of_nat (length word) - Z.of_nat (length preferableSuffix))
            preferableSuffix.

(** *** [findWikiLink] *)

Definition angleBracket : regex :=                       (* [<>] *)
  Cls (fun c => N.eqb c (qc "<") || N.eqb c (qc ">")).

Definition linkPattern : regex :=           (* <a href=`/wiki/([^`]+)`.* *)
  seq [lit (qs "<a href=`/wiki/");
       Cap 1 (plus (notIn (qs "`")));
       chr (qc "`");
       star anyChar].

Definition findWikiLink (article linkDistinction : QString) : QString :=
  let distinctionPosition := indexOf article linkDistinction 0 in
  if (distinctionPosition >=? 0)%Z then
    let linkPosition := lastIndexOf angleBracket article distinctionPosition in
    let linkForepart :=
      mid article linkPosition (distinctionPosition - linkPosition) in
    match exactMatch linkPattern linkForepart with
    | Some cs => cap 1 cs
    | None => []
    end
  else [].

(** *** The request classes *)

Inductive Class :=
| MediaWikiArticleRequest
| FandomArticleRequest
| RedirectingArticleRequest (redirectLinkDistinction : QString)
| SuffixAddingArticleRequest (redirectLinkDistinction : QString)
                             (preferableSuffix : QString)
| WookieepediaArticleRequest
| WookieepediaLegendsArticleRequest.

Definition legendsDistinction : QString :=
  qs "title=`Click here for Wookieepedia&#39;s article on the Legends version of this subject.`".

Definition legendsSuffix : QString := qs "/Legends".

(** The members [redirectLinkDistinction] and [preferableSuffix] of the
    classes that have them. *)
Definition redirectLinkDistinction_of (c : Class) : option QString :=
  match c with
  | RedirectingArticleRequest d => Some d
  | SuffixAddingArticleRequest d _ => Some d
  | WookieepediaLegendsArticleRequest => Some legendsDistinction
  | _ => None
  end.

Definition preferableSuffix_of (c : Class) : option QString :=
  match c with
  | SuffixAddingArticleRequest _ sfx => Some sfx
  | WookieepediaLegendsArticleRequest => Some legendsSuffix
  | _ => None
  end.

(** What the request depends on from outside: the transport, the memory
    next to a word, Qt services, and the text functions, which the request
    uses as functions of the article only (they are modelled in
    [Rewrite]; [pipelineEnv] below plugs them in). *)
Record Env := {
  outcome : Reply -> Outcome;        (* what the transport reports *)
  stray : Z -> QChar;                (* memory around a word's buffer *)
  toUtf8 : QString -> QByteArray;
  xmlParseError : QString -> Z -> Z -> QString;
                       (* the translated XML parse error message, filled in *)
  isToLanguageRTL : bool;
  processArticle : QString -> QString;       (* the rewrite pipeline *)
  fandomFixes : QString -> QString;
              (* the three replacements of FandomArticleRequest *)
  makeEraIconsVisible : QString -> QString
}.

Definition NetReplies := list (Reply * bool).

Record Replacement := { reply : Reply; originalWord : QString }.

Record ArticleRequest := {
  self : Class;
  base : Request;
  data : QByteArray;
  hasAnyData : bool;
  netReplies : NetReplies;
  replacements : list Replacement;      (* std::queue, front first *)
  netMgr : Manager
}.

Definition view (s : ArticleRequest) : DataRequest :=
  {| dr_base := base s; dr_data := data s; dr_hasAnyData := hasAnyData s |}.

Definition with_base (q : Request) (s : ArticleRequest) :=
  {| self := self s; base := q; data := data s; hasAnyData := hasAnyData s;
     netReplies := netReplies s; replacements := replacements s;
     netMgr := netMgr s |}.

Definition with_netReplies (l : NetReplies) (s : ArticleRequest) :=
  {| self := self s; base := base s; data := data s;
     hasAnyData := hasAnyData s; netReplies := l;
     replacements := replacements s; netMgr := netMgr s |}.

Definition with_replacements (l : list Replacement) (s : ArticleRequest) :=
  {| self := self s; base := base s; data := data s;
     hasAnyData := hasAnyData s; netReplies := netReplies s;
     replacements := l; netMgr := netMgr s |}.

Definition with_netMgr (m : Manager) (s : ArticleRequest) :=
  {| self := self s; base := base s; data := data s;
     hasAnyData := hasAnyData s; netReplies := netReplies s;
     replacements := replacements s; netMgr := m |}.

(** The constructor: nothing queued, nothing received. *)
Definition construct (c : Class) (mgr : Manager) : ArticleRequest :=
  {| self := c; base := newRequest; data := []; hasAnyData := false;
     netReplies := []; replacements := []; netMgr := mgr |}.

Definition cancel (s : ArticleRequest) : ArticleRequest :=
  with_base (finish (base s)) s.

Definition createQuery (s : ArticleRequest) (str : QString)
  : Reply * ArticleRequest :=
  let (netReply, mgr) := get (netMgr s) str in
  (netReply, with_netMgr mgr s).

(** [MediaWikiArticleRequest::doAddQuery]. *)
Definition doAddQuery_base (s : ArticleRequest) (word : QString)
  : Reply * ArticleRequest :=
  let (r, s1) := createQuery s word in
  (r, with_netReplies (netReplies s1 ++ [(r, false)]) s1).

(** [SuffixAddingArticleRequest::doAddQuery]. *)
Definition doAddQuery_suffix (E : Env) (preferableSuffix : QString)
                             (s : ArticleRequest) (word : QString)
  : Reply * ArticleRequest :=
  if fst (suffixCheck (stray E) word preferableSuffix)
  then doAddQuery_base s word
  else
    let (r, s1) := doAddQuery_base s (word ++ preferableSuffix) in
    (r, with_replacements
          (replacements s1 ++ [{| reply := r; originalWord := word |}]) s1).

(** Virtual dispatch of [doAddQuery]. *)
Definition doAddQuery (E : Env) (s : ArticleRequest) (word : QString)
  : Reply * ArticleRequest :=
  match preferableSuffix_of (self s) with
  | Some sfx => doAddQuery_suffix E sfx s word
  | None => doAddQuery_base s word
  end.

Definition addQuery (E : Env) (s : ArticleRequest) (word : QString)
  : ArticleRequest :=
  snd (doAddQuery E s word).

(** [RedirectingArticleRequest::prependQuery]. *)
Definition prependQuery (s : ArticleRequest) (str : QString)
  : ArticleRequest :=
  let (r, s1) := createQuery s str in
  with_netReplies ((r, false) :: netReplies s1) s1.

(** [preprocessArticle]: whether the article is to be shown, the article
    text as changed, the request as changed. *)
Definition preprocess_Fandom (E : Env) (s : ArticleRequest)
                             (articleString : QString)
  : bool * QString * ArticleRequest :=
  (true, fandomFixes E articleString, s).

Definition preprocess_Redirecting (E : Env)
             (redirectLinkDistinction : QString)
             (s : ArticleRequest) (articleString : QString)
  : bool * QString * ArticleRequest :=
  if negb (isEmpty redirectLinkDistinction) then
    let wikiWord := findWikiLink articleString redirectLinkDistinction in
    if negb (isEmpty wikiWord)
    then (false, articleString, prependQuery s wikiWord)
    else preprocess_Fandom E s articleString
  else preprocess_Fandom E s articleString.

Definition thenEraIcons (E : Env) (r : bool * QString * ArticleRequest)
  : bool * QString * ArticleRequest :=
  let '(ok, articleString, s) := r in
  if negb ok then (false, articleString, s)
  else (true, makeEraIconsVisible E articleString, s).

Definition preprocessArticle (E : Env) (s : ArticleRequest)
                             (articleString : QString)
  : bool * QString * ArticleRequest :=
  match self s with
  | MediaWikiArticleRequest => (true, articleString, s)
  | FandomArticleRequest => preprocess_Fandom E s articleString
  | RedirectingArticleRequest d =>
      preprocess_Redirecting E d s articleString
  | SuffixAddingArticleRequest d _ =>
      preprocess_Redirecting E d s articleString
  | WookieepediaArticleRequest =>
      thenEraIcons E (preprocess_Fandom E s articleString)
  | WookieepediaLegendsArticleRequest =>
      thenEraIcons E
        (preprocess_Redirecting E legendsDistinction s articleString)
  end.

(** [replyHandled]: only the suffix-adding classes override it. *)
Definition replyHandled (s : ArticleRequest) (r : Reply) (textFound : bool)
  : ArticleRequest :=
  match preferableSuffix_of (self s) with
  | None => s
  | Some _ =>
      match replacements s with
      | [] => s
      | front :: rest =>
          if negb (Nat.eqb r (reply front)) then s
          else
            let s1 := if negb textFound
                      then prependQuery s (originalWord front)
                      else s in
            with_replacements rest s1
      end
  end.

Definition divOpen (rtl : bool) : QByteArray :=
  if rtl then qs "<div class=`mwiki` dir=`rtl`>"
  else qs "<div class=`mwiki`>".

Definition articleBody (E : Env) (articleString : QString) : QByteArray :=
  divOpen (isToLanguageRTL E) ++ toUtf8 E articleString ++ qs "</div>".

Definition appendArticleToData (E : Env) (s : ArticleRequest)
                               (articleString : QString) : ArticleRequest :=
  {| self := self s; base := base s;
     data := data s ++ articleBody E articleString;
     hasAnyData := true;
     netReplies := netReplies s; replacements := replacements s;
     netMgr := netMgr s |}.

(** The loop at the head of [requestFinished]: the first entry of the
    queue that holds [r] is marked finished. *)
Fixpoint markFinished (r : Reply) (l : NetReplies) : option NetReplies :=
  match l with
  | [] => None
  | (x, done) :: l' =>
      if Nat.eqb x r then Some ((x, true) :: l')
      else match markFinished r l' with
           | Some l1 => Some ((x, done) :: l1)
           | None => None
           end
  end.

(** The body of the [while] loop for the reply just popped: the request
    and whether the data was added to. *)
Definition handleReply (E : Env) (s : ArticleRequest) (netReply : Reply)
  : ArticleRequest * bool :=
  let '(s1, textFound, upd) :=
    match outcome E netReply with
    | NetworkError e => (with_base (setErrorString e (base s)) s, false, false)
    | XmlError errorStr errorLine errorColumn =>
        (with_base (setErrorString
                      (xmlParseError E errorStr errorLine errorColumn)
                      (base s)) s, false, false)
    | NoParseNode => (s, false, false)
    | NoTextNode => (s, false, false)
    | Text articleString =>
        let '(ok, articleString1, s1) :=
          preprocessArticle E s articleString in
        if ok
        then (appendArticleToData E s1 (processArticle E articleString1),
              true, true)
        else (s1, true, false)
    end in
  (replyHandled s1 netReply textFound, upd).

(** [while( netReplies.size() && netReplies.front().second )]; [None]
    when [fuel] iterations did not reach the exit. *)
Fixpoint drain (E : Env) (fuel : nat) (s : ArticleRequest) (upd : bool)
  : option (ArticleRequest * bool) :=
  match netReplies s with
  | (netReply, true) :: rest =>
      match fuel with
      | 0 => None
      | S fuel' =>
          let (s1, u) := handleReply E (with_netReplies rest s) netReply in
          drain E fuel' s1 (upd || u)
      end
  | _ => Some (s, upd)
  end.

(** [netReplies.empty()]. *)
Definition empty (l : NetReplies) : bool :=
  match l with [] => true | _ :: _ => false end.

Definition requestFinished (E : Env) (s : ArticleRequest) (r : Reply)
  : option ArticleRequest :=
  if isFinished (base s) then Some s
  else
    match markFinished r (netReplies s) with
    | None => Some s
    | Some l =>
        match drain E (S (length l)) (with_netReplies l s) false with
        | None => None
        | Some (s1, upd) =>
            Some (if empty (netReplies s1)
                  then with_base (finish (base s1)) s1
                  else if upd then with_base (update (base s1)) s1
                       else s1)
        end
    end.

(** *** The dictionary: factories, [getArticle] *)

Inductive Factory :=
| MediaWikiFactory
| FandomFactory
| WookieepediaFactory
| WookieepediaLegendsFactory.

Definition articleRequest (f : Factory) (mgr : Manager) : ArticleRequest :=
  match f with
  | MediaWikiFactory => construct MediaWikiArticleRequest mgr
  | FandomFactory => construct FandomArticleRequest mgr
  | WookieepediaFactory => construct WookieepediaArticleRequest mgr
  | WookieepediaLegendsFactory =>
      construct WookieepediaLegendsArticleRequest mgr
  end.

Record MediaWikiDictionary := {
  url : QString;
  factory : Factory
}.

(** The constructor of the dictionary, that is [initializeFactory]. *)
Definition newDictionary (url_ : QString) : MediaWikiDictionary :=
  if endsWith url_ (qs "/starwars.wikia.com (Legends)") then
    let legendsSuffixLength := 10 in
    {| url := firstn (length url_ - legendsSuffixLength) url_;
       factory := WookieepediaLegendsFactory |}
  else if endsWith url_ (qs "/starwars.wikia.com") then
    {| url := url_; factory := WookieepediaFactory |}
  else if endsWith url_ (qs ".wikia.com") then
    {| url := url_; factory := FandomFactory |}
  else {| url := url_; factory := MediaWikiFactory |}.

(** What [getArticle] returns: the instant request, and the network
    manager as it was left, or the live request (which holds it). *)
Inductive ArticleResult :=
| InstantArticle (d : DataRequest) (mgr : Manager)
| LiveArticle (s : ArticleRequest).

Definition getArticle (E : Env) (d : MediaWikiDictionary) (mgr : Manager)
                      (word : QString) (alts : list QString)
  : ArticleResult :=
  if 80 <? length word then InstantArticle (DataRequestInstant false) mgr
  else
    let request := articleRequest (factory d) mgr in
    let request := addQuery E request word in
    LiveArticle (fold_left (addQuery E) alts request).

Definition resultView (r : ArticleResult) : DataRequest :=
  match r with
  | InstantArticle d _ => d
  | LiveArticle s => view s
  end.

Definition resultManager (r : ArticleResult) : Manager :=
  match r with
  | InstantArticle _ mgr => mgr
  | LiveArticle s => netMgr s
  end.

(** Delivery of a sequence of completions, one call of
    [requestFinished] each. *)
Fixpoint deliver (E : Env) (s : ArticleRequest) (evs : list Reply)
  : option ArticleRequest :=
  match evs with
  | [] => Some s
  | r :: evs' =>
      match requestFinished E s r with
      | Some s1 => deliver E s1 evs'
      | None => None
      end
  end.

End MediaWiki.

(** ** [mediawiki.cc]: the prefix search request *)

Module WordSearch.

Record MediaWikiWordSearchRequest := {
  base : Request;
  matches : list QString;
  netReply : option Reply;      (* the sptr< QNetworkReply >, the only
                                   owner of the reply: [None] once
                                   reset, which destroys the reply *)
  livedLongEnough : bool;
  isCancelling : bool;
  timerRunning : bool;
  netMgr : Manager
}.

Definition view (s : MediaWikiWordSearchRequest) : WordSearchRequest :=
  {| ws_base := base s; ws_matches := matches s |}.

Definition with_base (q : Request) (s : MediaWikiWordSearchRequest) :=
  {| base := q; matches := matches s; netReply := netReply s;
     livedLongEnough := livedLongEnough s; isCancelling := isCancelling s;
     timerRunning := timerRunning s; netMgr := netMgr s |}.

(** The constructor: one query is sent and the 200 ms timer started. *)
Definition construct (str : QString) (mgr : Manager)
  : MediaWikiWordSearchRequest :=
  let (r, mgr1) := get mgr str in
  {| base := newRequest; matches := []; netReply := Some r;
     livedLongEnough := false; isCancelling := false;
     timerRunning := true; netMgr := mgr1 |}.

Definition timerEvent (s : MediaWikiWordSearchRequest)
  : MediaWikiWordSearchRequest :=
  let s1 := {| base := base s; matches := matches s; netReply := netReply s;
               livedLongEnough := true; isCancelling := isCancelling s;
               timerRunning := false; netMgr := netMgr s |} in
  if isCancelling s1 then with_base (finish (base s1)) s1 else s1.

(** [cancel]: the reply held by the request is released at once
    ([netReply.reset()] destroys it, the request being its only owner),
    whatever the age of the request; only [finish] waits for the
    timer. *)
Definition cancel (s : MediaWikiWordSearchRequest)
  : MediaWikiWordSearchRequest :=
  let s1 := {| base := base s; matches := matches s;
               netReply := match netReply s with
                           | Some _ => None
                           | None => netReply s
                           end;
               livedLongEnough := livedLongEnough s; isCancelling := true;
               timerRunning := timerRunning s; netMgr := netMgr s |} in
  if livedLongEnough s1 then with_base (finish (base s1)) s1 else s1.

Definition downloadFinished (searchOutcome : Reply -> SearchOutcome)
             (xmlParseError : QString -> Z -> Z -> QString)
             (s : MediaWikiWordSearchRequest)
  : MediaWikiWordSearchRequest :=
  if isCancelling s || isFinished (base s) then s
  else
    match netReply s with
    | None => s             (* not reached: a reset sets isCancelling *)
    | Some r =>
        let s1 :=
          match searchOutcome r with
          | SearchNetworkError e => with_base (setErrorString e (base s)) s
          | SearchXmlError errorStr errorLine errorColumn =>
              with_base (setErrorString
                           (xmlParseError errorStr errorLine errorColumn)
                           (base s)) s
          | NoPagesNode => s
          | Pages titles =>
              {| base := base s; matches := matches s ++ titles;
                 netReply := netReply s;
                 livedLongEnough := livedLongEnough s;
                 isCancelling := isCancelling s;
                 timerRunning := timerRunning s; netMgr := netMgr s |}
          end in
        with_base (finish (base s1)) s1
    end.

Inductive SearchResult :=
| InstantSearch (w : WordSearchRequest) (mgr : Manager)
| LiveSearch (s : MediaWikiWordSearchRequest).

(** [MediaWikiDictionary::prefixMatch], the same in both revisions. *)
Definition prefixMatch (mgr : Manager) (word : QString) : SearchResult :=
  if 80 <? length word then InstantSearch WordSearchRequestInstant mgr
  else LiveSearch (construct word mgr).

Definition resultView (r : SearchResult) : WordSearchRequest :=
  match r with
  | InstantSearch w _ => w
  | LiveSearch s => view s
  end.

Definition resultManager (r : SearchResult) : Manager :=
  match r with
  | InstantSearch _ mgr => mgr
  | LiveSearch s => netMgr s
  end.

End WordSearch.

(** ** [mediawiki.cc], earlier revision: the article request *)

Module Legacy.

Record Env := {
  outcome : Reply -> Outcome;
  toUtf8 : QString -> QByteArray;
  xmlParseError : QString -> Z -> Z -> QString;
  isToLanguageRTL : bool;
  inlineRewrite : QString -> QString
                     (* the replacements written out in requestFinished *)
}.

Record MediaWikiArticleRequest := {
  base : Request;
  data : QByteArray;
  hasAnyData : bool;
  netReplies : MediaWiki.NetReplies;
  netMgr : Manager
}.

Definition with_base (q : Request) (s : MediaWikiArticleRequest) :=
  {| base := q; data := data s; hasAnyData := hasAnyData s;
     netReplies := netReplies s; netMgr := netMgr s |}.

Definition with_netReplies (l : MediaWiki.NetReplies)
                           (s : MediaWikiArticleRequest) :=
  {| base := base s; data := data s; hasAnyData := hasAnyData s;
     netReplies := l; netMgr := netMgr s |}.

Definition cancel (s : MediaWikiArticleRequest) : MediaWikiArticleRequest :=
  with_base (finish (base s)) s.

Definition addQuery (s : MediaWikiArticleRequest) (str : QString)
  : MediaWikiArticleRequest :=
  let (netReply, mgr) := get (netMgr s) str in
  {| base := base s; data := data s; hasAnyData := hasAnyData s;
     netReplies := netReplies s ++ [(netReply, false)]; netMgr := mgr |}.

(** The constructor. *)
Definition construct (str : QString) (alts : list QString) (mgr : Manager)
  : MediaWikiArticleRequest :=
  let s := {| base := newRequest; data := []; hasAnyData := false;
              netReplies := []; netMgr := mgr |} in
  fold_left addQuery alts (addQuery s str).

Definition articleBody (E : Env) (articleString : QString) : QByteArray :=
  MediaWiki.divOpen (isToLanguageRTL E) ++ toUtf8 E articleString
    ++ qs "</div>".

(** The body of the [for] loop; it leaves the queue alone. *)
Definition handleReply (E : Env) (s : MediaWikiArticleRequest)
                       (netReply : Reply)
  : MediaWikiArticleRequest * bool :=
  match outcome E netReply with
  | NetworkError e => (with_base (setErrorString e (base s)) s, false)
  | XmlError errorStr errorLine errorColumn =>
      (with_base (setErrorString
                    (xmlParseError E errorStr errorLine errorColumn)
                    (base s)) s, false)
  | NoParseNode => (s, false)
  | NoTextNode => (s, false)
  | Text articleString =>
      ({| base := base s;
          data := data s ++ articleBody E (inlineRewrite E articleString);
          hasAnyData := true;
          netReplies := netReplies s; netMgr := netMgr s |}, true)
  end.

(** [for( ; netReplies.size() && netReplies.front().second;
          netReplies.pop_front() )], by recursion on the queue [l], which
    the body does not touch. *)
Fixpoint drain (E : Env) (l : MediaWiki.NetReplies)
               (s : MediaWikiArticleRequest) (upd : bool)
  : MediaWikiArticleRequest * bool :=
  match l with
  | (netReply, true) :: rest =>
      let (s1, u) := handleReply E s netReply in
      drain E rest (with_netReplies rest s1) (upd || u)
  | _ => (s, upd)
  end.

Definition requestFinished (E : Env) (s : MediaWikiArticleRequest)
                           (r : Reply) : MediaWikiArticleRequest :=
  if isFinished (base s) then s
  else
    match MediaWiki.markFinished r (netReplies s) with
    | None => s
    | Some l =>
        let (s1, upd) := drain E l (with_netReplies l s) false in
        if MediaWiki.empty (netReplies s1)
        then with_base (finish (base s1)) s1
        else if upd then with_base (update (base s1)) s1 else s1
    end.

Definition deliver (E : Env) (s : MediaWikiArticleRequest)
                   (evs : list Reply) : MediaWikiArticleRequest :=
  fold_left (requestFinished E) evs s.

Inductive ArticleResult :=
| InstantArticle (d : DataRequest) (mgr : Manager)
| LiveArticle (s : MediaWikiArticleRequest).

Definition getArticle (mgr : Manager) (word : QString)
                      (alts : list QString) : ArticleResult :=
  if 80 <? length word then InstantArticle (DataRequestInstant false) mgr
  else LiveArticle (construct word alts mgr).

End Legacy.

(** ** [forvo.cc]: construction of the article request *)

Module Forvo.

Record ForvoArticleRequest := {
  base : Request;
  data : QByteArray;
  hasAnyData : bool;
  netReplies : MediaWiki.NetReplies;
  word : QString;
  apiKey : QString;
  languageCode : QString;
  netMgr : Manager
}.

Definition defaultApiKey : QString := qs "5efa5d045a16d10ad9c4705bd5d8e56a".

(** [apiKey.simplified().isEmpty()]: nothing but white space. *)
Definition blank (T : CharTable) (s : QString) : bool :=
  forallb (isSpace T) s.

Definition addQuery (T : CharTable) (s : ForvoArticleRequest)
                    (str : QString) : ForvoArticleRequest :=
  let key := if blank T (apiKey s) then defaultApiKey else apiKey s in
  let (netReply, mgr) := get (netMgr s) str in
  {| base := base s; data := data s; hasAnyData := hasAnyData s;
     netReplies := netReplies s ++ [(netReply, false)];
     word := word s; apiKey := key; languageCode := languageCode s;
     netMgr := mgr |}.

(** The constructor: the alternates are left out (the loop over them is
    compiled out, the service allowing few requests a day). *)
Definition construct (T : CharTable) (str : QString) (alts : list QString)
                     (apiKey_ languageCode_ : QString) (mgr : Manager)
  : ForvoArticleRequest :=
  addQuery T
    {| base := newRequest; data := []; hasAnyData := false;
       netReplies := []; word := str; apiKey := apiKey_;
       languageCode := languageCode_; netMgr := mgr |}
    str.

Definition cancel (s : ForvoArticleRequest) : ForvoArticleRequest :=
  {| base := finish (base s); data := data s; hasAnyData := hasAnyData s;
     netReplies := netReplies s; word := word s; apiKey := apiKey s;
     languageCode := languageCode s; netMgr := netMgr s |}.

Inductive ArticleResult :=
| InstantArticle (d : DataRequest) (mgr : Manager)
| LiveArticle (s : ForvoArticleRequest).

Definition getArticle (T : CharTable) (apiKey_ languageCode_ : QString)
             (mgr : Manager) (word : QString) (alts : list QString)
  : ArticleResult :=
  if 80 <? length word then InstantArticle (DataRequestInstant false) mgr
  else LiveArticle (construct T word alts apiKey_ languageCode_ mgr).

End Forvo.

(** ** Notions used in the statements *)

Module Notions.
Import MediaWiki.

Fixpoint takeWhile {A} (p : A -> bool) (l : list A) : list A :=
  match l with
  | x :: l' => if p x then x :: takeWhile p l' else []
  | [] => []
  end.

Fixpoint dropWhile {A} (p : A -> bool) (l : list A) : list A :=
  match l with
  | x :: l' => if p x then dropWhile p l' else l
  | [] => []
  end.

(** [r] is among the completions [evs]. *)
Definition completed (evs : list Reply) (r : Reply) : bool :=
  existsb (Nat.eqb r) evs.

Definition done (l : list Reply) : NetReplies := map (fun r => (r, true)) l.
Definition pending (l : list Reply) : NetReplies :=
  map (fun r => (r, false)) l.

(** The queue is empty or its front entry is not finished: the exit
    condition of the loop of [requestFinished]. *)
Definition frontPending (l : NetReplies) : Prop :=
  match l with
  | (_, true) :: _ => False
  | _ => True
  end.

(** The classes whose hooks never queue anything. *)
Definition plain (c : Class) : bool :=
  match c with
  | MediaWikiArticleRequest | FandomArticleRequest
  | WookieepediaArticleRequest => true
  | _ => false
  end.

(** Whether [preprocessArticle] of class [c] lets an article through. *)
Definition accepts (c : Class) (articleString : QString) : bool :=
  match redirectLinkDistinction_of c with
  | Some d => isEmpty d || isEmpty (findWikiLink articleString d)
  | None => true
  end.

(** The article text that [preprocessArticle] of class [c] hands on. *)
Definition prepared (E : Env) (c : Class) (articleString : QString)
  : QString :=
  match c with
  | MediaWikiArticleRequest => articleString
  | WookieepediaArticleRequest | WookieepediaLegendsArticleRequest =>
      makeEraIconsVisible E (fandomFixes E articleString)
  | _ => fandomFixes E articleString
  end.

(** The bytes that the reply [r] stands for in the buffer of a request
    of class [c]: its article, rewritten and wrapped, when it holds one
    that the class lets through; nothing otherwise. *)
Definition contribution (E : Env) (c : Class) (r : Reply) : QByteArray :=
  match outcome E r with
  | Text articleString =>
      if accepts c articleString
      then articleBody E (processArticle E (prepared E c articleString))
      else []
  | _ => []
  end.

(** The error text after the replies [l] were handled in order, [e]
    being the text before: each failure overwrites it. *)
Fixpoint lastError (E : Env) (l : list Reply) (e : QString) : QString :=
  match l with
  | [] => e
  | r :: l' =>
      lastError E l'
        (match outcome E r with
         | NetworkError err => err
         | XmlError errorStr errorLine errorColumn =>
             xmlParseError E errorStr errorLine errorColumn
         | _ => e
         end)
  end.

(** The error text that the reply [r] leaves when its transfer or the
    parsing of its content failed. *)
Definition failure (E : Env) (r : Reply) : option QString :=
  match outcome E r with
  | NetworkError err => Some err
  | XmlError errorStr errorLine errorColumn =>
      Some (xmlParseError E errorStr errorLine errorColumn)
  | _ => None
  end.

(** Whether the reply [r] holds an article text. *)
Definition textFound (E : Env) (r : Reply) : bool :=
  match outcome E r with Text _ => true | _ => false end.

(** The word that [doAddQuery] of class [c] asks the service for when
    given [word]. *)
Definition asked (E : Env) (c : Class) (word : QString) : QString :=
  match preferableSuffix_of c with
  | Some sfx =>
      if fst (suffixCheck (stray E) word sfx) then word else word ++ sfx
  | None => word
  end.

(** The class of the requests that a factory makes. *)
Definition classOf (f : Factory) : Class :=
  match f with
  | MediaWikiFactory => MediaWikiArticleRequest
  | FandomFactory => FandomArticleRequest
  | WookieepediaFactory => WookieepediaArticleRequest
  | WookieepediaLegendsFactory => WookieepediaLegendsArticleRequest
  end.

(** The queue entry of reply [r] once the completions [evs] arrived. *)
Definition entry (evs : list Reply) (r : Reply) : Reply * bool :=
  (r, completed evs r).

(** The same notions for the earlier revision. *)
Definition legacyContribution (E : Legacy.Env) (r : Reply) : QByteArray :=
  match Legacy.outcome E r with
  | Text articleString =>
      Legacy.articleBody E (Legacy.inlineRewrite E articleString)
  | _ => []
  end.

(** The redirect distinction of a class, empty when it has none. *)
Definition distinction (c : Class) : QString :=
  match redirectLinkDistinction_of c with Some d => d | None => [] end.

(** [s1] is [s0] with the replies [fresh] queued, pending, at the
    front. *)
Definition queuedInFront (fresh : list Reply) (s0 s1 : ArticleRequest)
  : Prop :=
  netReplies s1 = pending fresh ++ netReplies s0 /\
  self s1 = self s0 /\ base s1 = base s0 /\ data s1 = data s0 /\
  hasAnyData s1 = hasAnyData s0.

(** The replies [fresh] were handed out by a network manager whose next
    reply was [n] before and is [n'] after. *)
Definition numberedFrom (n : Reply) (fresh : list Reply) (n' : Reply)
  : Prop :=
  n <= n' /\ Forall (fun x => n <= x) fresh.

(** Length of the finished prefix of the queue: the number of iterations
    the loop can make before it meets a pending entry. *)
Definition ready (l : NetReplies) : nat := length (takeWhile snd l).

(** The request of class [c] after the completions [evs], in terms of
    the replies [ids] first queued. *)
Definition after (E : Env) (c : Class) (ids evs : list Reply)
                 (s : ArticleRequest) : Prop :=
  self s = c /\
  netReplies s = map (entry evs) (dropWhile (completed evs) ids) /\
  data s
    = concat (map (contribution E c) (takeWhile (completed evs) ids)) /\
  isFinishedFlag (base s) = empty (netReplies s).

(** The request of class [c] once the replies [handled] have been
    handled, in that order, [ids] being the replies first queued: the
    buffer holds what the handled replies stand for, in the order they
    were handled, and the replies first queued that were handled,
    followed by those still in the queue, are [ids] in its order. *)
Definition handledSoFar (E : Env) (c : Class) (ids handled : list Reply)
                        (s : ArticleRequest) : Prop :=
  self s = c /\
  data s = concat (map (contribution E c) handled) /\
  filter (completed ids) handled
    ++ filter (completed ids) (map fst (netReplies s)) = ids /\
  Forall (fun x => x < nextReply (netMgr s)) ids.

Definition legacyAfter (E : Legacy.Env) (ids evs : list Reply)
                       (s : Legacy.MediaWikiArticleRequest) : Prop :=
  Legacy.netReplies s = map (entry evs) (dropWhile (completed evs) ids) /\
  Legacy.data s
    = concat (map (legacyContribution E)
                  (takeWhile (completed evs) ids)) /\
  isFinishedFlag (Legacy.base s) = empty (Legacy.netReplies s).

(** Environments for concrete evaluations: the transfer of reply 0
    failed, reply 1 holds an article with the inactive Legends tab of
    Wookieepedia, every other reply holds the article [<p>r</p>] numbered
    by the reply; the memory before a word's buffer holds slashes. *)
Definition legendsTab : QString :=
  qs "<a href=`/wiki/Yoda/Legends` title=`Click here for Wookieepedia&#39;s article on the Legends version of this subject.`>Legends</a>".

Definition sampleOutcome (r : Reply) : Outcome :=
  match r with
  | 0 => NetworkError (qs "Host not found")
  | 1 => Text legendsTab
  | _ => Text (qs "<p>" ++ [N.of_nat (48 + r)] ++ qs "</p>")
  end.

Definition sampleEnv : Env :=
  {| outcome := sampleOutcome;
     stray := fun _ => qc "/";
     toUtf8 := fun s => s;
     xmlParseError := fun errorStr _ _ => qs "XML parse error: " ++ errorStr;
     isToLanguageRTL := false;
     processArticle := fun s => s;
     fandomFixes := fun s => s;
     makeEraIconsVisible := fun s => s |}.

Definition sampleLegacyEnv : Legacy.Env :=
  {| Legacy.outcome := sampleOutcome;
     Legacy.toUtf8 := fun s => s;
     Legacy.xmlParseError :=
       fun errorStr _ _ => qs "XML parse error: " ++ errorStr;
     Legacy.isToLanguageRTL := false;
     Legacy.inlineRewrite := fun s => s |}.

Definition freshManager : Manager := {| nextReply := 0; sent := [] |}.

(** An environment in which the text functions are the modelled ones
    (for Wookieepedia) and every reply holds an article whose only link
    has a tab after the [a] and the /wiki/ prefix twice. *)
Definition wookieepediaConfig : Rewrite.Config :=
  {| Rewrite.T := asciiTable;
     Rewrite.url := qs "http://starwars.wikia.com";
     Rewrite.wikiUrl := qs "http://starwars.wikia.com/";
     Rewrite.scheme := qs "http";
     Rewrite.dictId := qs "dict";
     Rewrite.addAudioLink :=
       fun u _ => qs "<script>" ++ u ++ qs "</script>" |}.

Definition tabbedLegendsTab : QString :=
  qs "<a" ++ [9%N]
  ++ qs "href=`/wiki//wiki/Yoda/Legends` title=`Click here for Wookieepedia&#39;s article on the Legends version of this subject.`>Legends</a>".

Definition pipelineEnv : Env :=
  {| outcome := fun _ => Text tabbedLegendsTab;
     stray := fun _ => 0%N;
     toUtf8 := fun s => s;
     xmlParseError := fun errorStr _ _ => qs "XML parse error: " ++ errorStr;
     isToLanguageRTL := false;
     processArticle :=
       fun s => match Rewrite.processArticle wookieepediaConfig s with
                | Some s' => s'
                | None => s
                end;
     fandomFixes := Rewrite.fandomFixes wookieepediaConfig;
     makeEraIconsVisible := Rewrite.makeEraIconsVisible |}.

Definition sampleDictionary : MediaWikiDictionary :=
  newDictionary (qs "https://en.wikipedia.org/w").

Definition legendsDictionary : MediaWikiDictionary :=
  newDictionary (qs "http://starwars.wikia.com (Legends)").

End Notions.
Import Notions.

(** ** Notions and models of the further properties *)

Module Words.

(** The words of a pattern: what a match of it can consume. *)
Inductive Lang : regex -> QString -> Prop :=
| Lang_Eps : Lang Eps []
| Lang_Cls p c : p c = true -> Lang (Cls p) [c]
| Lang_Cat a b u v : Lang a u -> Lang b v -> Lang (Cat a b) (u ++ v)
| Lang_Rep_nil g a : Lang (Rep g a) []
| Lang_Rep_more g a u v :
    Lang a u -> Lang (Rep g a) v -> Lang (Rep g a) (u ++ v)
| Lang_Opt_none a : Lang (Opt a) []
| Lang_Opt_some a u : Lang a u -> Lang (Opt a) u
| Lang_Cap n a u : Lang a u -> Lang (Cap n a) u.

(** A pattern without capturing groups. *)
Fixpoint nocap (r : regex) : bool :=
  match r with
  | Eps | Cls _ => true
  | Cat a b => nocap a && nocap b
  | Rep _ a | Opt a => nocap a
  | Cap _ _ => false
  end.

End Words.

Module Invariants.
Import MediaWiki.

(** [l1] is [l2] with some of its elements left out. *)
Inductive Subseq {A : Type} : list A -> list A -> Prop :=
| Subseq_nil : Subseq [] []
| Subseq_skip x l1 l2 : Subseq l1 l2 -> Subseq l1 (x :: l2)
| Subseq_take x l1 l2 : Subseq l1 l2 -> Subseq (x :: l1) (x :: l2).

(** The queue of a request and its replacements are in order: no reply
    is queued twice, every queued reply was handed out by the request's
    network manager, the replies of [replacements] are replies of the
    queue in the order of the queue (the comment at the declaration of
    [replacements]), and only a class with a preferable suffix records
    replacements. *)
Definition orderly (s : ArticleRequest) : Prop :=
  NoDup (map fst (netReplies s)) /\
  Forall (fun x => x < nextReply (netMgr s)) (map fst (netReplies s)) /\
  Subseq (map reply (replacements s)) (map fst (netReplies s)) /\
  (preferableSuffix_of (self s) = None -> replacements s = []).

(** The data flag tells whether the buffer holds anything. *)
Definition consistent (s : ArticleRequest) : Prop :=
  hasAnyData s = true <-> data s <> [].

(** What [replyHandled] leaves of [replacements] when the reply [r] has
    been handled. *)
Definition dropHandled (r : Reply) (l : list Replacement)
  : list Replacement :=
  match l with
  | front :: rest => if Nat.eqb r (reply front) then rest else l
  | [] => []
  end.

(** [s1] is [s0] with the replies [fresh], newly handed out, queued in
    front. *)
Definition grown (fresh : list Reply) (s0 s1 : ArticleRequest) : Prop :=
  netReplies s1 = pending fresh ++ netReplies s0 /\
  NoDup fresh /\
  Forall (fun x => nextReply (netMgr s0) <= x < nextReply (netMgr s1)) fresh /\
  nextReply (netMgr s0) <= nextReply (netMgr s1) /\
  self s1 = self s0.

End Invariants.

Module Events.
Import WordSearch.

(** What can happen to a prefix search request once it is made. *)
Inductive Event :=
| Cancel          (* the consumer calls cancel() *)
| Timer           (* the 200 ms timer fires *)
| Download.       (* the reply signals finished() *)

Definition step (searchOutcome : Reply -> SearchOutcome)
                (xmlParseError : QString -> Z -> Z -> QString)
                (s : MediaWikiWordSearchRequest) (ev : Event)
  : MediaWikiWordSearchRequest :=
  match ev with
  | Cancel => cancel s
  | Timer => timerEvent s
  | Download => downloadFinished searchOutcome xmlParseError s
  end.

(** What holds of a prefix search request for the reply [r0] at every
    moment: it holds that reply or none, it holds none only when it was
    cancelled, it is finished when it was cancelled and its timer has
    fired, and its matches, if any, are the titles of the reply and it
    is finished. *)
Definition settled (searchOutcome : Reply -> SearchOutcome) (r0 : Reply)
                   (s : MediaWikiWordSearchRequest) : Prop :=
  (netReply s = None \/ netReply s = Some r0) /\
  (netReply s = None -> isCancelling s = true) /\
  (isCancelling s = true -> livedLongEnough s = true ->
   isFinished (base s) = true) /\
  (matches s = [] \/
   (isFinished (base s) = true /\ searchOutcome r0 = Pages (matches s))).

Definition run (searchOutcome : Reply -> SearchOutcome)
               (xmlParseError : QString -> Z -> Z -> QString)
               (evs : list Event) (s : MediaWikiWordSearchRequest)
  : MediaWikiWordSearchRequest :=
  fold_left (step searchOutcome xmlParseError) evs s.

End Events.

Module Languages.
Import MediaWiki.

(** The constructor of [MediaWikiDictionary], after [initializeFactory]:
    the two characters of the url that it hands to
    [LangCoder::code2toInt], if it does. *)
Definition langCode (url : QString) : option QString :=
  let n := indexOf url (qs ".") 0 in
  if (n =? 2)%Z
     || ((n >? 3)%Z && N.eqb (nth (Z.to_nat (n - 3)) url 0%N) (qc "/"))
  then Some (mid url (n - 2) 2)
  else None.

(** [langId], which [getLangFrom] and [getLangTo] return;
    [code2toInt] stands for [LangCoder::code2toInt] of the code in
    Latin-1. *)
Definition langId (code2toInt : QString -> N) (d : MediaWikiDictionary) : N :=
  match langCode (url d) with
  | Some code => code2toInt code
  | None => 0%N
  end.

End Languages.

(** ** [forvo.cc]: the dictionaries of the configured languages *)

Module ForvoDictionaries.

(** [Config::Forvo]. *)
Record Forvo := {
  enable : bool;
  apiKey : QString;
  languageCodes : QString
}.

(** The Qt services [makeDictionaries] calls. *)
Record Services := {
  T : CharTable;
  md5Hex : QByteArray -> QByteArray; (* QCryptographicHash, Md5, toHex *)
  toUtf8 : QString -> QByteArray;
  toLowerString : QString -> QString;     (* QString::toLower *)
  toUpperChar : QChar -> QChar            (* QChar::toUpper *)
}.

(** What the constructor of [ForvoDictionary] is given. *)
Record ForvoDictionary := {
  id : QByteArray;
  name : QByteArray;
  dictApiKey : QString;
  languageCode : QString
}.

(** [QString::split( sep, QString::SkipEmptyParts )]; [part] is the part
    being read. *)
Fixpoint splitFrom (sep : QChar) (s part : QString) : list QString :=
  match s with
  | [] => if isEmpty part then [] else [part]
  | c :: s' =>
      if N.eqb c sep
      then if isEmpty part then splitFrom sep s' []
           else part :: splitFrom sep s' []
      else splitFrom sep s' (part ++ [c])
  end.

Definition split (sep : QChar) (s : QString) : list QString :=
  splitFrom sep s [].

(** [QString::simplified()]: white space is taken off both ends and every
    run of it inside becomes one space.  [out] is the text so far, [gap]
    tells that white space was met since its last character. *)
Fixpoint simplifiedFrom (T : CharTable) (s out : QString) (gap : bool)
  : QString :=
  match s with
  | [] => out
  | c :: s' =>
      if isSpace T c then simplifiedFrom T s' out true
      else simplifiedFrom T s'
             (out ++ (if gap && negb (isEmpty out) then [qc " "; c] else [c]))
             false
  end.

Definition simplified (T : CharTable) (s : QString) : QString :=
  simplifiedFrom T s [] false.

Definition displayedCode (S : Services) (code : QString) : QString :=
  match toLowerString S code with
  | [] => []
  | c :: rest => toUpperChar S c :: rest
  end.

Definition newForvoDictionary (S : Services) (forvo : Forvo)
                              (code : QString) : ForvoDictionary :=
  {| id := md5Hex S (qs "Forvo source version 1.0" ++ toUtf8 S code);
     name := toUtf8 S (qs "Forvo (" ++ displayedCode S code ++ qs ")");
     dictApiKey := apiKey forvo;
     languageCode := code |}.

(** [usedCodes.contains( code )]. *)
Definition contains (usedCodes : list QString) (code : QString) : bool :=
  existsb (eqs code) usedCodes.

(** The loop over [codes]. *)
Fixpoint makeLoop (S : Services) (forvo : Forvo) (codes : list QString)
                  (usedCodes : list QString)
                  (result : list ForvoDictionary) : list ForvoDictionary :=
  match codes with
  | [] => result
  | raw :: codes' =>
      let code := simplified (T S) raw in
      if negb (isEmpty code) && negb (contains usedCodes code)
      then makeLoop S forvo codes' (code :: usedCodes)
                    (result ++ [newForvoDictionary S forvo code])
      else makeLoop S forvo codes' usedCodes result
  end.

Definition makeDictionaries (S : Services) (forvo : Forvo)
  : list ForvoDictionary :=
  if enable forvo
  then makeLoop S forvo (split (qc ",") (languageCodes forvo)) [] []
  else [].

End ForvoDictionaries.


(** ** [forvo.cc]: the reply to the one query of a request *)

Module ForvoReply.
Import Forvo.

(** An [item] element of the reply, by the texts of its children (the
    empty text for a child that is missing); [pathmp3] tells apart an
    item without that child. *)
Record Item := {
  pathmp3 : option QString;
  sex : QString;
  username : QString;
  country : QString;
  num_votes : QString;
  num_positive_votes : QString;
  addtime : QString
}.

(** What the finished reply holds, as [requestFinished] tells the cases
    apart: [items] are the [item] elements under the node [items] when
    the document has that node, [errors] is the text of the [error] child
    of the node [errors] when it has that one. *)
Inductive Outcome :=
| NetworkError (errorString : QString)
| XmlError (errorStr : QString) (errorLine errorColumn : Z)
| Document (items : option (list Item)) (errors : option QString).

(** What [requestFinished] takes from its surroundings. *)
Record Services := {
  outcome : Reply -> Outcome;
  dictionaryId : QByteArray;
  xmlParseError : QString -> Z -> Z -> QString;
  toUtf8 : QString -> QByteArray;
  escape : QByteArray -> QByteArray;           (* Html::escape *)
  toEncoded : QString -> QByteArray;           (* QUrl( text ).toEncoded() *)
  toPercentEncoding : QString -> QByteArray;
  addAudioLink : QByteArray -> QByteArray -> QByteArray;
  toLowerString : QString -> QString;
  toInt : QString -> Z;                        (* QString::toInt, an int *)
  number : Z -> QByteArray;                    (* QByteArray::number *)
  englishNametoIso2 : QString -> QString;
  trAdded : QString -> QString;                (* tr( `Added %1` ).arg( . ) *)
  trBy : QString;
  trMale : QString;
  trFemale : QString;
  trFrom : QString
}.

(** An [int]; the difference of two of them is taken to wrap around. *)
Definition int (z : Z) : Z :=
  ((z + 2147483648) mod 4294967296 - 2147483648)%Z.

Definition votes (S : Services) (positiveVotes negativeVotes : Z)
  : QByteArray :=
  if negb (positiveVotes =? 0)%Z || negb (negativeVotes =? 0)%Z then
    qs " "
    ++ (if negb (positiveVotes =? 0)%Z
        then qs "<span class='forvo_positive_votes'>+"
             ++ number S positiveVotes ++ qs "</span>"
        else [])
    ++ (if negb (negativeVotes =? 0)%Z
        then (if negb (positiveVotes =? 0)%Z then qs " " else [])
             ++ qs "<span class='forvo_negative_votes'>-"
             ++ number S negativeVotes ++ qs "</span>"
        else [])
  else [].

(** The table row of an item that has a [pathmp3] child with the text
    [mp3]. *)
Definition row (S : Services) (item : Item) (mp3 : QString) : QByteArray :=
  let ref := qs "`" ++ toEncoded S mp3 ++ qs "`" in
  let isMale := negb (eqs (toLowerString S (sex item)) (qs "f")) in
  let user := username item in
  let userProfile :=
    qs "http://www.forvo.com/user/" ++ toPercentEncoding S user ++ qs "/" in
  let totalVotes := toInt S (num_votes item) in
  let positiveVotes := toInt S (num_positive_votes item) in
  let negativeVotes := int (totalVotes - positiveVotes) in
  let addTime := toUtf8 S (trAdded S (addtime item)) in
  qs "<tr>"
  ++ addAudioLink S ref (dictionaryId S)
  ++ (qs "<td><a href=" ++ ref ++ qs " title=`" ++ escape S addTime
      ++ qs "`><img src=`qrcx://localhost/icons/playsound.png` border=`0` alt=`Play`/></a></td>")
  ++ (qs "<td>" ++ toUtf8 S (trBy S) ++ qs " <a class='forvo_user' href='"
      ++ userProfile ++ qs "'>"
      ++ escape S (toUtf8 S user)
      ++ qs "</a> <span class='forvo_location'>("
      ++ toUtf8 S (if isMale then trMale S else trFemale S)
      ++ qs " "
      ++ toUtf8 S (trFrom S)
      ++ qs " "
      ++ qs "<img src='qrcx://localhost/flags/"
      ++ toUtf8 S (englishNametoIso2 S (country item))
      ++ qs ".png'/> "
      ++ escape S (toUtf8 S (country item))
      ++ qs ")</span>"
      ++ votes S positiveVotes negativeVotes
      ++ qs "</td>")
  ++ qs "</tr>".

(** The loop over the items: one row for every item with a [pathmp3]
    child. *)
Fixpoint rows (S : Services) (nl : list Item) : QByteArray :=
  match nl with
  | [] => []
  | item :: nl' =>
      match pathmp3 item with
      | Some mp3 => row S item mp3 ++ rows S nl'
      | None => rows S nl'
      end
  end.

Definition articleBody (S : Services) (word : QString) (nl : list Item)
  : QByteArray :=
  qs "<div class='forvo_headword'>" ++ escape S (toUtf8 S word)
  ++ qs "</div>"
  ++ qs "<table class=`forvo_play`>" ++ rows S nl ++ qs "</table>".

Definition with_base (q : Request) (s : ForvoArticleRequest) :=
  {| base := q; data := data s; hasAnyData := hasAnyData s;
     netReplies := netReplies s; word := word s; apiKey := apiKey s;
     languageCode := languageCode s; netMgr := netMgr s |}.

Definition with_netReplies (l : MediaWiki.NetReplies)
                           (s : ForvoArticleRequest) :=
  {| base := base s; data := data s; hasAnyData := hasAnyData s;
     netReplies := l; word := word s; apiKey := apiKey s;
     languageCode := languageCode s; netMgr := netMgr s |}.

(** The body of the [for] loop of [requestFinished]: the request and
    whether the data was added to. *)
Definition handleReply (S : Services) (s : ForvoArticleRequest)
                       (netReply : Reply) : ForvoArticleRequest * bool :=
  match outcome S netReply with
  | NetworkError e => (with_base (setErrorString e (base s)) s, false)
  | XmlError errorStr errorLine errorColumn =>
      (with_base (setErrorString
                    (xmlParseError S errorStr errorLine errorColumn)
                    (base s)) s, false)
  | Document items errors =>
      let (s1, updated) :=
        match items with
        | Some nl =>
            if 0 <? length nl
            then ({| base := base s;
                     data := data s ++ articleBody S (word s) nl;
                     hasAnyData := true;
                     netReplies := netReplies s; word := word s;
                     apiKey := apiKey s; languageCode := languageCode s;
                     netMgr := netMgr s |}, true)
            else (s, false)
        | None => (s, false)
        end in
      match errors with
      | Some text => (with_base (setErrorString text (base s1)) s1, updated)
      | None => (s1, updated)
      end
  end.

(** [for( ; netReplies.size() && netReplies.front().second;
          netReplies.pop_front() )], by recursion on the queue [l], which
    the body does not touch. *)
Fixpoint drain (S : Services) (l : MediaWiki.NetReplies)
               (s : ForvoArticleRequest) (upd : bool)
  : ForvoArticleRequest * bool :=
  match l with
  | (netReply, true) :: rest =>
      let (s1, u) := handleReply S s netReply in
      drain S rest (with_netReplies rest s1) (upd || u)
  | _ => (s, upd)
  end.

Definition requestFinished (S : Services) (s : ForvoArticleRequest)
                           (r : Reply) : ForvoArticleRequest :=
  if isFinished (base s) then s
  else
    match MediaWiki.markFinished r (netReplies s) with
    | None => s
    | Some l =>
        let (s1, upd) := drain S l (with_netReplies l s) false in
        if MediaWiki.empty (netReplies s1)
        then with_base (finish (base s1)) s1
        else if upd then with_base (update (base s1)) s1 else s1
    end.

End ForvoReply.

Module Revisions.
Import MediaWiki.

(** The services of the two revisions agree: the transport reports the
    same, and the replacements written out in the earlier
    [requestFinished] do to an article what [processArticle] does. *)
Definition agree (E : Env) (EL : Legacy.Env) : Prop :=
  (forall r, Legacy.outcome EL r = outcome E r) /\
  (forall a, Legacy.toUtf8 EL a = toUtf8 E a) /\
  (forall es el ec, Legacy.xmlParseError EL es el ec = xmlParseError E es el ec) /\
  Legacy.isToLanguageRTL EL = isToLanguageRTL E /\
  (forall a, Legacy.inlineRewrite EL a = processArticle E a).

(** A request of the base class of the current revision and a request
    of the earlier revision in the same state. *)
Definition same (s : ArticleRequest) (t : Legacy.MediaWikiArticleRequest)
  : Prop :=
  self s = MediaWikiArticleRequest /\
  base s = Legacy.base t /\ data s = Legacy.data t /\
  hasAnyData s = Legacy.hasAnyData t /\
  netReplies s = Legacy.netReplies t /\ netMgr s = Legacy.netMgr t.

End Revisions.

Module Traffic.
Import MediaWiki.

(** From [s0] to [s1] at most one query was sent, and it was queued in
    front. *)
Definition sentAtMostOne (s0 s1 : ArticleRequest) : Prop :=
  (netMgr s1 = netMgr s0 /\ netReplies s1 = netReplies s0) \/
  (exists w, netMgr s1 = snd (get (netMgr s0) w) /\
             netReplies s1
               = (nextReply (netMgr s0), false) :: netReplies s0).

End Traffic.

Module Folding.

(** [needle] begins [s] when the case of both is folded. *)
Fixpoint startsWithCI (T : CharTable) (needle s : QString) : bool :=
  match needle, s with
  | [], _ => true
  | x :: n', y :: s' =>
      N.eqb (toLower T y) (toLower T x) && startsWithCI T n' s'
  | _ :: _, [] => false
  end.

(** An audio tag opens at the head of [s]. *)
Definition opens (T : CharTable) (s : QString) : bool :=
  startsWithCI T (qs "<audio") s.

(** The number of positions of [s] at which an audio tag opens. *)
Fixpoint openers (T : CharTable) (s : QString) : nat :=
  match s with
  | [] => 0
  | _ :: s' => (if opens T s then 1 else 0) + openers T s'
  end.

(** The case folding of the table keeps the punctuation of a tag apart
    from what it is compared with when an audio tag is looked for: only
    the less-than sign folds to what it folds to, the double quote folds
    to none of the characters of the opening of an audio tag, a blank
    does not fold to what u folds to, and neither i nor a slash to what
    a folds to. *)
Definition tellsApart (T : CharTable) : Prop :=
  (forall x, toLower T x = toLower T (qc "<") -> x = qc "<") /\
  (forall p, In p (qs "<audio") -> toLower T (qc "`") <> toLower T p) /\
  toLower T (qc " ") <> toLower T (qc "u") /\
  toLower T (qc "i") <> toLower T (qc "a") /\
  toLower T (qc "/") <> toLower T (qc "a").

End Folding.

Module Urls.

(** The url with the path / that [processArticle] makes of the url of
    the dictionary, as the text [wikiUrl.toString()] of an absolute url
    is: not empty, not beginning with a slash, ending with one, and
    holding no double quote. *)
Definition rooted (wikiUrl : QString) : Prop :=
  hd (qc "/") wikiUrl <> qc "/" /\
  last wikiUrl (qc " ") = qc "/" /\
  ~ In (qc "`") wikiUrl.

End Urls.

Module Qt4.

(** The branch of [underscoresToSpacesInLinks] that compiles with Qt 4;
    the earlier revision has the same loop inline in [requestFinished]. *)

(** The pattern of the loop: the opening of a link with one blank, a
    captured run of characters other than / : ` > #, and an underscore. *)
Definition underscoreLink : regex :=
  seq [lit (qs "<a href=`"); Cap 1 (star (notIn (qs "/:`>#")));
       chr (qc "_")].

Definition underscorePass (articleString : QString) : QString :=
  Qt4x5_Regex_replace underscoreLink 1 (qs "<a href=`\1 ") articleString.

(** The [for] loop; [None] when [fuel] rounds did not reach the exit. *)
Fixpoint underscoresLoop (fuel : nat) (articleString : QString)
  : option QString :=
  match fuel with
  | 0 => None
  | S fuel' =>
      let before := articleString in
      let articleString := underscorePass articleString in
      if eqs articleString before then Some articleString
      else underscoresLoop fuel' articleString
  end.

Definition underscoresToSpacesInLinks (articleString : QString)
  : option QString :=
  underscoresLoop (S (length articleString)) articleString.

(** A character stays, or is an underscore that became a space. *)
Definition spaced (before after : QChar) : Prop :=
  after = before \/ (before = qc "_" /\ after = qc " ").

End Qt4.

Module Heads.

(** [Leads P r]: whatever [r] matches begins with a character of [P]. *)
Inductive Leads (P : QChar -> Prop) : regex -> Prop :=
| Leads_Cls p : (forall c, p c = true -> P c) -> Leads P (Cls p)
| Leads_Cat a b : Leads P a -> Leads P (Cat a b)
| Leads_Cap n a : Leads P a -> Leads P (Cap n a).

(** The opening of a tag. *)
Definition lessThan (c : QChar) : Prop := c = qc "<".

End Heads.

Module LegacyLinks.

(** The loop over the links that the earlier revision has inline in
    [requestFinished], where the current one calls [RootBasedUrlFixer]. *)

(** The pattern of the loop: the opening of a link to a path from the
    root, the path captured, up to the double quote that ends it. *)
Definition regLinks (T : CharTable) : regex :=
  seq [lit (qs "<a"); plus (Cls (isSpace T)); lit (qs "href=`/");
       Cap 1 (plus (notIn (qs "`"))); chr (qc "`")].

(** The [for] loop: the text and the position; [None] when [fuel]
    rounds did not reach the exit. *)
Fixpoint linksLoop (T : CharTable) (fuel : nat) (articleString : QString)
                   (pos : nat) : option QString :=
  match fuel with
  | 0 => None
  | S fuel' =>
      match indexIn (regLinks T) articleString pos with
      | None => Some articleString
      | Some (p, size, cs) =>
          let link := cap 1 cs in
          if (indexOf link (qs "://") 0 >=? 0)%Z
          then linksLoop T fuel' articleString (p + size)  (* external link *)
          else
            let link := if (indexOf link [qc ":"] 0 >=? 0)%Z
                        then replaceChar (qc ":") (qs "%3A") link
                        else link in
            let n := indexOf link [qc "#"] 1 in
            let link :=
              if (n >? 0)%Z then
                let anchor :=
                  replaceChar (qc "_") (qs "%5F") (mid link (n + 1) (-1)) in
                firstn (Z.to_nat n) link ++ qs "?gdanchor=" ++ anchor
              else link in
            let newLink := qs "<a href=`/" ++ link ++ [qc "`"] in
            linksLoop T fuel'
              (firstn p articleString ++ newLink
                 ++ skipn (p + size) articleString)
              (p + length newLink)
      end
  end.

Definition fixedLinks (T : CharTable) (articleString : QString)
  : option QString :=
  linksLoop T (S (length articleString)) articleString 0.

(** What one pass over the text puts in place of the opening of a link:
    the opening as it is when the path is an external link, and
    otherwise the opening with one blank and the path as [fixUrl] of the
    current revision leaves it. *)
Definition opening (m : QString) (cs : Caps) : QString :=
  if (indexOf (cap 1 cs) (qs "://") 0 >=? 0)%Z then m
  else qs "<a href=`/" ++ Rewrite.fixUrl (cap 1 cs) ++ [qc "`"].

End LegacyLinks.

Module Openings.

(** The length of the run of white space at the head of a text. *)
Fixpoint blanks (T : CharTable) (s : QString) : nat :=
  match s with
  | c :: s' => if isSpace T c then S (blanks T s') else 0
  | [] => 0
  end.

(** The opening of a link to a path from the root, if one begins the
    text, is written with one blank. *)
Definition plainOpening (T : CharTable) (s : QString) : bool :=
  if startsWith (qs "<a") s then
    let r := skipn 2 s in
    let n := blanks T r in
    if (0 <? n) && startsWith (qs "href=`/") (skipn n r)
    then eqs (firstn n r) (qs " ")
    else true
  else true.

(** So are all such openings in the text. *)
Fixpoint plainOpenings (T : CharTable) (s : QString) : bool :=
  plainOpening T s
  && match s with
     | [] => true
     | _ :: s' => plainOpenings T s'
     end.

(** One pass over the text that puts [opening] in place of each match
    of [regLinks]. *)
Definition linkPass (T : CharTable) (articleString : QString) : QString :=
  rewriteFrom (LegacyLinks.regLinks T) LegacyLinks.opening 0 articleString.

End Openings.

(* ================================================================== *)
(** * Part II: properties                                              *)
(* ================================================================== *)

Import MediaWiki.

(** ** Lists *)

Lemma takeWhile_dropWhile {A} (p : A -> bool) (l : list A) :
  takeWhile p l ++ dropWhile p l = l.
Proof.
  induction l as [|x l IH]; simpl; [reflexivity|].
  destruct (p x); simpl; [now rewrite IH | reflexivity].
Qed.

Lemma takeWhile_all {A} (p : A -> bool) (l : list A) :
  (forall x, In x l -> p x = true) -> takeWhile p l = l.
Proof.
  induction l as [|x l IH]; simpl; intros H; [reflexivity|].
  rewrite (H x (or_introl eq_refl)), IH; auto.
Qed.

Lemma dropWhile_all {A} (p : A -> bool) (l : list A) :
  (forall x, In x l -> p x = true) -> dropWhile p l = [].
Proof.
  induction l as [|x l IH]; simpl; intros H; [reflexivity|].
  rewrite (H x (or_introl eq_refl)); auto.
Qed.

Lemma takeWhile_app_all {A} (p : A -> bool) (l1 l2 : list A) :
  (forall x, In x l1 -> p x = true) ->
  takeWhile p (l1 ++ l2) = l1 ++ takeWhile p l2.
Proof.
  induction l1 as [|x l1 IH]; simpl; intros H; [reflexivity|].
  rewrite (H x (or_introl eq_refl)), IH; auto.
Qed.

Lemma dropWhile_app_all {A} (p : A -> bool) (l1 l2 : list A) :
  (forall x, In x l1 -> p x = true) ->
  dropWhile p (l1 ++ l2) = dropWhile p l2.
Proof.
  induction l1 as [|x l1 IH]; simpl; intros H; [reflexivity|].
  rewrite (H x (or_introl eq_refl)), IH; auto.
Qed.

Lemma takeWhile_true {A} (p : A -> bool) (l : list A) :
  forall x, In x (takeWhile p l) -> p x = true.
Proof.
  induction l as [|y l IH]; simpl; intros x H; [contradiction|].
  destruct (p y) eqn:Hy; simpl in H; [|contradiction].
  destruct H as [<-|H]; auto.
Qed.

Lemma completed_In (evs : list Reply) (r : Reply) :
  completed evs r = true <-> In r evs.
Proof.
  unfold completed. rewrite existsb_exists. split.
  - intros (x & Hx & Heq). apply Nat.eqb_eq in Heq. now subst.
  - intros H. exists r. split; [assumption | apply Nat.eqb_refl].
Qed.

Lemma completed_snoc (evs : list Reply) (r x : Reply) :
  completed (evs ++ [r]) x = completed evs x || Nat.eqb x r.
Proof.
  unfold completed. rewrite existsb_app. simpl. now rewrite orb_false_r.
Qed.

(** ** The finished flag *)

Lemma finish_idempotent (q : Request) : finish (finish q) = finish q.
Proof. unfold finish. destruct (isFinishedFlag q) eqn:H; simpl; now rewrite ?H. Qed.

Lemma finish_finished (q : Request) :
  isFinished q = true -> finish q = q.
Proof. unfold finish, isFinished. now intros ->. Qed.

Lemma isFinished_finish (q : Request) : isFinished (finish q) = true.
Proof.
  unfold finish, isFinished.
  destruct (isFinishedFlag q) eqn:H; [exact H | reflexivity].
Qed.

(** ** One iteration of the loop of [requestFinished] *)

Section Iteration.
Variable E : Env.

Lemma preprocessArticle_spec (s : ArticleRequest) (a : QString) :
  preprocessArticle E s a =
  if accepts (self s) a
  then (true, prepared E (self s) a, s)
  else (false, a, prependQuery s (findWikiLink a (distinction (self s)))).
Proof.
  unfold preprocessArticle, accepts, prepared, distinction.
  destruct (self s) as [| |d|d sfx| |]; simpl; try reflexivity;
    unfold preprocess_Redirecting, preprocess_Fandom, thenEraIcons;
    try (destruct (isEmpty d); simpl; [reflexivity|]);
    try (destruct (isEmpty (findWikiLink a d)); reflexivity);
    destruct (isEmpty (findWikiLink a legendsDistinction)); reflexivity.
Qed.

Lemma accepts_plain (c : Class) (a : QString) :
  plain c = true -> accepts c a = true.
Proof. destruct c; simpl; intros H; try discriminate; reflexivity. Qed.

Lemma prependQuery_queued (s : ArticleRequest) (w : QString) :
  queuedInFront [nextReply (netMgr s)] s (prependQuery s w).
Proof. unfold queuedInFront, prependQuery, createQuery. simpl. tauto. Qed.

Lemma queuedInFront_refl (s : ArticleRequest) : queuedInFront [] s s.
Proof. unfold queuedInFront. simpl. tauto. Qed.

Lemma numberedFrom_refl (n : Reply) : numberedFrom n [] n.
Proof. split; [lia | constructor]. Qed.

Lemma numberedFrom_trans (n n1 n2 : Reply) (f1 f2 : list Reply) :
  numberedFrom n f1 n1 -> numberedFrom n1 f2 n2 ->
  numberedFrom n (f2 ++ f1) n2.
Proof.
  intros [H1 F1] [H2 F2]. split; [lia|].
  apply Forall_app. split; [|exact F1].
  eapply Forall_impl; [|exact F2]. simpl. intros; lia.
Qed.

Lemma prependQuery_numbered (s : ArticleRequest) (w : QString) :
  numberedFrom (nextReply (netMgr s)) [nextReply (netMgr s)]
               (nextReply (netMgr (prependQuery s w))).
Proof.
  unfold prependQuery, createQuery. simpl.
  split; [lia | constructor; [lia | constructor]].
Qed.

Lemma replyHandled_queued (s : ArticleRequest) (r : Reply) (tf : bool) :
  exists fresh, queuedInFront fresh s (replyHandled s r tf) /\
                (plain (self s) = true -> fresh = []) /\
                numberedFrom (nextReply (netMgr s)) fresh
                             (nextReply (netMgr (replyHandled s r tf))).
Proof.
  unfold replyHandled.
  destruct (preferableSuffix_of (self s)) eqn:Hsfx.
  - assert (Hp : plain (self s) = false)
      by (destruct (self s); simpl in *; congruence).
    destruct (replacements s) as [|front rest].
    + exists []. split; [apply queuedInFront_refl|].
      split; [reflexivity | apply numberedFrom_refl].
    + destruct (Nat.eqb r (reply front)); simpl.
      * destruct tf; simpl.
        -- exists []. split; [unfold queuedInFront; simpl; tauto|].
           split; [reflexivity | apply numberedFrom_refl].
        -- exists [nextReply (netMgr s)].
           split; [unfold queuedInFront, prependQuery, createQuery; simpl;
                   tauto|].
           split; [congruence|].
           apply (prependQuery_numbered s (originalWord front)).
      * exists []. split; [apply queuedInFront_refl|].
        split; [reflexivity | apply numberedFrom_refl].
  - exists []. split; [apply queuedInFront_refl|].
    split; [reflexivity | apply numberedFrom_refl].
Qed.

(** What one iteration does to the request [s0] left by [pop_front]. *)
Lemma handleReply_spec (s0 : ArticleRequest) (r : Reply) :
  exists fresh,
    let s1 := fst (handleReply E s0 r) in
    netReplies s1 = pending fresh ++ netReplies s0 /\
    self s1 = self s0 /\
    data s1 = data s0 ++ contribution E (self s0) r /\
    isFinishedFlag (base s1) = isFinishedFlag (base s0) /\
    errorString (base s1) = lastError E [r] (errorString (base s0)) /\
    (plain (self s0) = true -> fresh = []) /\
    numberedFrom (nextReply (netMgr s0)) fresh (nextReply (netMgr s1)).
Proof.
  unfold handleReply, contribution. simpl lastError.
  destruct (outcome E r) as [e|es el ec| | |a].
  - destruct (replyHandled_queued
                (with_base (setErrorString e (base s0)) s0) r false)
      as (fresh & (H1 & H2 & H3 & H4 & H5) & Hp & Hn).
    exists fresh. simpl in *. rewrite H1, H2, H3, H4, app_nil_r. tauto.
  - destruct (replyHandled_queued
                (with_base (setErrorString (xmlParseError E es el ec)
                                           (base s0)) s0) r false)
      as (fresh & (H1 & H2 & H3 & H4 & H5) & Hp & Hn).
    exists fresh. simpl in *. rewrite H1, H2, H3, H4, app_nil_r. tauto.
  - destruct (replyHandled_queued s0 r false)
      as (fresh & (H1 & H2 & H3 & H4 & H5) & Hp & Hn).
    exists fresh. simpl in *. rewrite H1, H2, H3, H4, app_nil_r. tauto.
  - destruct (replyHandled_queued s0 r false)
      as (fresh & (H1 & H2 & H3 & H4 & H5) & Hp & Hn).
    exists fresh. simpl in *. rewrite H1, H2, H3, H4, app_nil_r. tauto.
  - rewrite preprocessArticle_spec.
    destruct (accepts (self s0) a) eqn:Hacc.
    + destruct (replyHandled_queued
                  (appendArticleToData E s0
                     (processArticle E (prepared E (self s0) a))) r true)
        as (fresh & (H1 & H2 & H3 & H4 & H5) & Hp & Hn).
      exists fresh. simpl in *. rewrite H1, H2, H3, H4. tauto.
    + assert (Hnp : plain (self s0) = false).
      { destruct (plain (self s0)) eqn:Hpl; [|reflexivity].
        rewrite accepts_plain in Hacc; [discriminate | assumption]. }
      set (s' := prependQuery s0 (findWikiLink a (distinction (self s0)))).
      destruct (replyHandled_queued s' r true)
        as (fresh & (H1 & H2 & H3 & H4 & H5) & Hp & Hn).
      pose proof (numberedFrom_trans _ _ _ _ _
                    (prependQuery_numbered s0
                       (findWikiLink a (distinction (self s0)))) Hn)
        as Hnum.
      exists (fresh ++ [nextReply (netMgr s0)]). simpl in *.
      rewrite H1, H2, H3, H4, app_nil_r.
      unfold pending. rewrite map_app, <- app_assoc. simpl.
      repeat split; try reflexivity; try congruence; apply Hnum.
Qed.

End Iteration.

(** ** The loop of [requestFinished] *)

Section Loop.
Variable E : Env.

Lemma ready_le_length (l : NetReplies) : ready l <= length l.
Proof.
  unfold ready. induction l as [|[x b] l IH]; simpl; [lia|].
  destruct b; simpl; lia.
Qed.

Lemma ready_pending_app (fresh : list Reply) (l : NetReplies) :
  ready (pending fresh ++ l) = match fresh with [] => ready l | _ => 0 end.
Proof. destruct fresh; reflexivity. Qed.

Lemma done_pending_split (fin fresh : list Reply) (rest l : NetReplies) :
  fresh <> [] -> pending fresh ++ l = done fin ++ rest ->
  fin = [] /\ rest = pending fresh ++ l.
Proof.
  intros Hne Heq. destruct fresh as [|x fresh]; [congruence|].
  destruct fin as [|y fin]; simpl in *; [auto | discriminate].
Qed.

(** The loop ends, having handled a finished prefix of the queue in
    queue order; what it queued itself is pending and in front of the
    entries it left. *)
Lemma drain_spec :
  forall fuel s upd, ready (netReplies s) < fuel ->
  exists s' u fin rest fresh,
    drain E fuel s upd = Some (s', u) /\
    netReplies s = done fin ++ rest /\
    netReplies s' = pending fresh ++ rest /\
    frontPending (netReplies s') /\
    self s' = self s /\
    data s' = data s ++ concat (map (contribution E (self s)) fin) /\
    isFinishedFlag (base s') = isFinishedFlag (base s) /\
    errorString (base s') = lastError E fin (errorString (base s)) /\
    (plain (self s) = true -> fresh = []) /\
    numberedFrom (nextReply (netMgr s)) fresh (nextReply (netMgr s')).
Proof.
  induction fuel as [|fuel IH]; intros s upd Hfuel; [lia|].
  simpl. destruct (netReplies s) as [|[x b] l] eqn:Hq.
  - exists s, upd, [], [], []. rewrite Hq. simpl. rewrite ?app_nil_r.
    repeat split; auto; try lia.
  - destruct b.
    + destruct (handleReply E (with_netReplies l s) x) as [s1 u1] eqn:Hh.
      destruct (handleReply_spec E (with_netReplies l s) x)
        as (fr & H1 & H2 & H3 & H4 & H5 & H6 & H7).
      rewrite Hh in H1, H2, H3, H4, H5, H7.
      simpl in H1, H2, H3, H4, H5, H6, H7.
      assert (Hr : ready (netReplies s1) < fuel).
      { rewrite H1, ready_pending_app. unfold ready in *. simpl in Hfuel.
        destruct fr; simpl; lia. }
      destruct (IH s1 (upd || u1) Hr)
        as (s' & u & fin & rest & fresh & D1 & D2 & D3 & D4 & D5 & D6 & D7
            & D8 & D9 & D10).
      rewrite H1 in D2. rewrite H2 in D5, D6, D9. rewrite H3 in D6.
      rewrite H4 in D7. rewrite H5 in D8.
      pose proof (numberedFrom_trans _ _ _ _ _ H7 D10) as Hnum.
      destruct fr as [|f0 fr'].
      * exists s', u, (x :: fin), rest, fresh. simpl in D2. subst l.
        simpl. rewrite <- app_assoc in D6. rewrite app_nil_r in Hnum.
        repeat split; auto; apply Hnum.
      * assert (Hsplit : fin = [] /\ rest = pending (f0 :: fr') ++ l)
          by (apply done_pending_split; [discriminate | exact D2]).
        destruct Hsplit as [-> ->].
        exists s', u, [x], l, (fresh ++ f0 :: fr'). simpl in *.
        rewrite app_nil_r in D6. unfold pending in *.
        rewrite map_app, <- app_assoc. simpl.
        repeat split; auto; try apply Hnum.
        -- now rewrite app_nil_r.
        -- intros Hp. specialize (H6 Hp). discriminate.
    + exists s, upd, [], ((x, false) :: l), []. rewrite Hq. simpl.
      rewrite ?app_nil_r. repeat split; auto; try lia.
Qed.

Lemma markFinished_None (r : Reply) (l : NetReplies) :
  markFinished r l = None <-> ~ In r (map fst l).
Proof.
  induction l as [|[x b] l IH]; simpl; [tauto|].
  destruct (Nat.eqb x r) eqn:Hx.
  - apply Nat.eqb_eq in Hx. split; [discriminate | tauto].
  - apply Nat.eqb_neq in Hx.
    destruct (markFinished r l) as [l1|].
    + split; [discriminate|]. intros H.
      assert (Hn : Some l1 = None) by (apply IH; tauto). discriminate.
    + split; [|reflexivity]. intros _ [H|H]; [contradiction|].
      now apply (proj1 IH eq_refl).
Qed.

Lemma markFinished_length (r : Reply) (l l' : NetReplies) :
  markFinished r l = Some l' -> length l' = length l.
Proof.
  revert l'. induction l as [|[x b] l IH]; simpl; intros l' H;
    [discriminate|].
  destruct (Nat.eqb x r).
  - inversion H. reflexivity.
  - destruct (markFinished r l) as [l1|]; [|discriminate].
    inversion H. simpl. now rewrite (IH l1).
Qed.

(** A call of [requestFinished] on a live request for a reply of its
    queue. *)
Lemma requestFinished_spec (s : ArticleRequest) (r : Reply) (l : NetReplies) :
  isFinished (base s) = false ->
  markFinished r (netReplies s) = Some l ->
  exists s' fin rest fresh,
    requestFinished E s r = Some s' /\
    l = done fin ++ rest /\
    netReplies s' = pending fresh ++ rest /\
    frontPending (netReplies s') /\
    self s' = self s /\
    data s' = data s ++ concat (map (contribution E (self s)) fin) /\
    isFinishedFlag (base s') = empty (netReplies s') /\
    errorString (base s') = lastError E fin (errorString (base s)) /\
    (plain (self s) = true -> fresh = []) /\
    numberedFrom (nextReply (netMgr s)) fresh (nextReply (netMgr s')).
Proof.
  intros Hlive Hmark. unfold requestFinished. rewrite Hlive, Hmark.
  destruct (drain_spec (S (length l)) (with_netReplies l s) false)
    as (s1 & u & fin & rest & fresh & D1 & D2 & D3 & D4 & D5 & D6 & D7
        & D8 & D9 & D10).
  { simpl. pose proof (ready_le_length l). lia. }
  simpl in D2, D5, D6, D7, D8, D9, D10. rewrite D1.
  unfold isFinished in Hlive. rewrite Hlive in D7.
  eexists _, fin, rest, fresh. split; [reflexivity|].
  destruct (empty (netReplies s1)) eqn:Hemp.
  - simpl. unfold finish. rewrite D7. simpl. rewrite Hemp. tauto.
  - destruct u; simpl.
    + unfold update. rewrite D7. simpl. rewrite Hemp. tauto.
    + rewrite Hemp. tauto.
Qed.

(** [requestFinished] always returns. *)
Lemma requestFinished_total (s : ArticleRequest) (r : Reply) :
  exists s', requestFinished E s r = Some s'.
Proof.
  destruct (isFinished (base s)) eqn:Hfin.
  - exists s. unfold requestFinished. now rewrite Hfin.
  - destruct (markFinished r (netReplies s)) as [l|] eqn:Hm.
    + destruct (requestFinished_spec s r l Hfin Hm) as (s' & _ & _ & _ & H & _).
      now exists s'.
    + exists s. unfold requestFinished. now rewrite Hfin, Hm.
Qed.

End Loop.

(** ** Queues under out-of-order completion *)

Section Reordering.
Variable ids : list Reply.
Variable past : list Reply.
Variable r : Reply.

Let p := completed past.
Let p' := completed (past ++ [r]).

Lemma p'_p (x : Reply) : p' x = p x || Nat.eqb x r.
Proof. apply completed_snoc. Qed.

Lemma p_p' (x : Reply) : p x = true -> p' x = true.
Proof. rewrite p'_p. intros ->. reflexivity. Qed.

Lemma dropWhile_front {A} (q : A -> bool) (l : list A) :
  match dropWhile q l with x :: _ => q x = false | [] => True end.
Proof.
  induction l as [|x l IH]; simpl; [exact I|].
  destruct (q x) eqn:Hx; [exact IH | exact Hx].
Qed.

Lemma In_dropWhile {A} (q : A -> bool) (l : list A) (x : A) :
  In x (dropWhile q l) -> In x l.
Proof.
  rewrite <- (takeWhile_dropWhile q l) at 2. intros H.
  apply in_or_app. now right.
Qed.

(** A completion for a reply that is not queued changes nothing. *)
Lemma reorder_absent :
  ~ In r (dropWhile p ids) ->
  map (entry (past ++ [r])) (dropWhile p' ids)
    = map (entry past) (dropWhile p ids) /\
  takeWhile p' ids = takeWhile p ids.
Proof.
  intros Hr.
  pose proof (dropWhile_front p ids) as Hfront.
  rewrite <- (takeWhile_dropWhile p ids) at 1 3.
  rewrite dropWhile_app_all, takeWhile_app_all
    by (intros x Hx; apply p_p'; revert Hx; apply takeWhile_true).
  assert (Hsame : forall x, In x (dropWhile p ids) -> p' x = p x).
  { intros x Hx. rewrite p'_p. destruct (Nat.eqb x r) eqn:Hxr.
    - apply Nat.eqb_eq in Hxr. subst. contradiction.
    - apply orb_false_r. }
  destruct (dropWhile p ids) as [|d D] eqn:HD.
  - simpl. now rewrite app_nil_r.
  - simpl. rewrite (Hsame d (or_introl eq_refl)), Hfront. simpl.
    rewrite app_nil_r. split; [|reflexivity].
    unfold entry. fold p p'. rewrite (Hsame d (or_introl eq_refl)).
    f_equal. apply map_ext_in. intros x Hx.
    now rewrite (Hsame x (or_intror Hx)).
Qed.

(** A completion for a queued reply extends the finished prefix. *)
Lemma reorder_present :
  dropWhile p' ids = dropWhile p' (dropWhile p ids) /\
  takeWhile p' ids = takeWhile p ids ++ takeWhile p' (dropWhile p ids).
Proof.
  rewrite <- (takeWhile_dropWhile p ids) at 1 3.
  rewrite dropWhile_app_all, takeWhile_app_all
    by (intros x Hx; apply p_p'; revert Hx; apply takeWhile_true).
  split; reflexivity.
Qed.

(** Marking [r] in a queue without repetition. *)
Lemma markFinished_entries (D : list Reply) :
  NoDup D -> In r D ->
  markFinished r (map (entry past) D) = Some (map (entry (past ++ [r])) D).
Proof.
  induction D as [|x D IH]; intros Hnd Hin; [contradiction|].
  inversion Hnd as [|? ? Hx HD]; subst. simpl.
  destruct (Nat.eqb x r) eqn:Hxr.
  - apply Nat.eqb_eq in Hxr. subst x. f_equal. f_equal.
    + unfold entry. f_equal. fold p'. rewrite p'_p, Nat.eqb_refl.
      symmetry. apply orb_true_r.
    + apply map_ext_in. intros y Hy. unfold entry. f_equal. fold p p'.
      rewrite p'_p. destruct (Nat.eqb y r) eqn:Hyr.
      * apply Nat.eqb_eq in Hyr. subst. contradiction.
      * now rewrite orb_false_r.
  - apply Nat.eqb_neq in Hxr. destruct Hin as [Hin|Hin]; [contradiction|].
    rewrite (IH HD Hin). f_equal. f_equal. unfold entry. f_equal.
    fold p p'. rewrite p'_p.
    destruct (Nat.eqb_spec x r); [contradiction | now rewrite orb_false_r].
Qed.

(** The only way to cut a queue into finished entries followed by a rest
    whose front is pending. *)
Lemma finished_prefix_unique (evs : list Reply) (D fin : list Reply)
                             (rest : NetReplies) :
  map (entry evs) D = done fin ++ rest -> frontPending rest ->
  fin = takeWhile (completed evs) D /\
  rest = map (entry evs) (dropWhile (completed evs) D).
Proof.
  revert fin. induction D as [|d D IH]; intros fin Heq Hfront.
  - destruct fin; simpl in *; [|discriminate]. subst. auto.
  - destruct fin as [|f fin]; simpl in *.
    + subst rest. unfold frontPending, entry in Hfront. simpl in Hfront.
      destruct (completed evs d); [contradiction|]. auto.
    + inversion Heq as [[Hd Hc Htl]]. rewrite Hc.
      destruct (IH fin Htl Hfront) as [<- <-]. auto.
Qed.

End Reordering.

(** ** Queuing the words of a lookup *)

Section Construction.
Variable E : Env.

Lemma addQuery_spec (s : ArticleRequest) (word : QString) :
  let s1 := addQuery E s word in
  netReplies s1 = netReplies s ++ pending [nextReply (netMgr s)] /\
  nextReply (netMgr s1) = S (nextReply (netMgr s)) /\
  sent (netMgr s1)
    = sent (netMgr s) ++ [(nextReply (netMgr s), asked E (self s) word)] /\
  self s1 = self s /\ base s1 = base s /\ data s1 = data s /\
  hasAnyData s1 = hasAnyData s.
Proof.
  unfold addQuery, doAddQuery, asked.
  destruct (preferableSuffix_of (self s)) as [sfx|]; simpl.
  - unfold doAddQuery_suffix.
    destruct (fst (suffixCheck (stray E) word sfx)); simpl; tauto.
  - tauto.
Qed.

Lemma addQueries_spec (words : list QString) :
  forall s,
  let s1 := fold_left (addQuery E) words s in
  netReplies s1
    = netReplies s ++ pending (List.seq (nextReply (netMgr s)) (length words)) /\
  nextReply (netMgr s1) = nextReply (netMgr s) + length words /\
  sent (netMgr s1)
    = sent (netMgr s)
        ++ combine (List.seq (nextReply (netMgr s)) (length words))
                   (map (asked E (self s)) words) /\
  self s1 = self s /\ base s1 = base s /\ data s1 = data s /\
  hasAnyData s1 = hasAnyData s.
Proof.
  induction words as [|w words IH]; intros s; simpl.
  - rewrite !app_nil_r, Nat.add_0_r. tauto.
  - destruct (addQuery_spec s w) as (A1 & A2 & A3 & A4 & A5 & A6 & A7).
    destruct (IH (addQuery E s w)) as (B1 & B2 & B3 & B4 & B5 & B6 & B7).
    simpl in *. rewrite B1, B2, B3, B4, B5, B6, B7.
    rewrite A1, A2, A3, A4, A5, A6, A7. simpl.
    rewrite <- !app_assoc. simpl.
    repeat split; auto; lia.
Qed.

End Construction.

(** ** Delivery of completions in any order *)

Section Delivery.
Variable E : Env.
Variable c : Class.
Hypothesis c_plain : plain c = true.
Variable ids : list Reply.
Hypothesis ids_NoDup : NoDup ids.

Lemma NoDup_dropWhile (q : Reply -> bool) : NoDup (dropWhile q ids).
Proof.
  pose proof ids_NoDup as H.
  rewrite <- (takeWhile_dropWhile q ids) in H.
  now apply NoDup_app_remove_l in H.
Qed.

Lemma map_fst_entry (evs l : list Reply) : map fst (map (entry evs) l) = l.
Proof. rewrite map_map. simpl. apply map_id. Qed.

Lemma after_step (past : list Reply) (s : ArticleRequest) (r : Reply) :
  after E c ids past s ->
  exists s1, requestFinished E s r = Some s1 /\ after E c ids (past ++ [r]) s1.
Proof.
  intros (Hc & Hq & Hd & Hf).
  destruct (isFinished (base s)) eqn:Hfin.
  - (* finished: the queue is empty, nothing happens *)
    exists s. split; [unfold requestFinished; now rewrite Hfin|].
    unfold isFinished in Hfin. rewrite Hfin in Hf.
    assert (HD : dropWhile (completed past) ids = []).
    { rewrite Hq in Hf.
      destruct (dropWhile (completed past) ids); [reflexivity|discriminate]. }
    destruct (reorder_absent ids past r) as [R1 R2].
    { rewrite HD. auto. }
    unfold after. rewrite R1, R2, HD. rewrite HD in Hq.
    repeat split; auto. now rewrite Hq.
  - destruct (markFinished r (netReplies s)) as [l|] eqn:Hm.
    + (* the reply is queued *)
      assert (Hin : In r (dropWhile (completed past) ids)).
      { destruct (in_dec Nat.eq_dec r (dropWhile (completed past) ids))
          as [H|H]; [assumption|].
        assert (Hn : markFinished r (netReplies s) = None).
        { apply markFinished_None. rewrite Hq, map_fst_entry. exact H. }
        congruence. }
      rewrite Hq, (markFinished_entries past r _
                     (NoDup_dropWhile (completed past)) Hin) in Hm.
      inversion Hm as [Hl]. clear Hm.
      assert (Hm : markFinished r (netReplies s) = Some l).
      { rewrite Hq, <- Hl.
        apply markFinished_entries;
          [apply NoDup_dropWhile | assumption]. }
      destruct (requestFinished_spec E s r l Hfin Hm)
        as (s1 & fin & rest & fresh & F1 & F2 & F3 & F4 & F5 & F6 & F7
            & F8 & F9 & F10).
      rewrite Hc in F5, F6, F9. rewrite (F9 c_plain) in F3. simpl in F3.
      rewrite F3 in F4.
      rewrite <- Hl in F2.
      destruct (finished_prefix_unique (past ++ [r]) _ fin rest F2 F4)
        as [-> ->].
      destruct (reorder_present ids past r) as [R1 R2].
      exists s1. split; [assumption|]. unfold after.
      rewrite R1, R2, map_app, concat_app, <- Hd.
      repeat split; auto.
    + (* the reply is not queued *)
      exists s. split; [unfold requestFinished; now rewrite Hfin, Hm|].
      apply markFinished_None in Hm. rewrite Hq, map_fst_entry in Hm.
      destruct (reorder_absent ids past r Hm) as [R1 R2].
      unfold after. rewrite R1, R2. repeat split; auto.
Qed.

Lemma after_deliver (evs : list Reply) :
  forall past s, after E c ids past s ->
  exists s', deliver E s evs = Some s' /\ after E c ids (past ++ evs) s'.
Proof.
  induction evs as [|r evs IH]; intros past s Hs; simpl.
  - exists s. rewrite app_nil_r. auto.
  - destruct (after_step past s r Hs) as (s1 & H1 & H2).
    rewrite H1. destruct (IH (past ++ [r]) s1 H2) as (s' & H3 & H4).
    exists s'. rewrite <- app_assoc in H4. auto.
Qed.

End Delivery.

(** ** The earlier revision *)

Section LegacyDelivery.
Variable E : Legacy.Env.

Lemma legacy_handleReply_spec (s : Legacy.MediaWikiArticleRequest)
                              (r : Reply) :
  let s1 := fst (Legacy.handleReply E s r) in
  Legacy.netReplies s1 = Legacy.netReplies s /\
  Legacy.data s1 = Legacy.data s ++ legacyContribution E r /\
  isFinishedFlag (Legacy.base s1) = isFinishedFlag (Legacy.base s).
Proof.
  unfold Legacy.handleReply, legacyContribution.
  destruct (Legacy.outcome E r); simpl; rewrite ?app_nil_r; auto.
Qed.

Lemma legacy_drain_spec :
  forall l s upd,
  exists fin rest,
    let s' := fst (Legacy.drain E l s upd) in
    l = done fin ++ rest /\
    Legacy.netReplies s' = match fin with [] => Legacy.netReplies s
                                      | _ => rest end /\
    frontPending rest /\
    Legacy.data s'
      = Legacy.data s ++ concat (map (legacyContribution E) fin) /\
    isFinishedFlag (Legacy.base s') = isFinishedFlag (Legacy.base s).
Proof.
  induction l as [|[x b] l IH]; intros s upd.
  - exists [], []. simpl. rewrite app_nil_r. auto.
  - destruct b.
    + simpl. destruct (Legacy.handleReply E s x) as [s1 u1] eqn:Hh.
      destruct (legacy_handleReply_spec s x) as (H1 & H2 & H3).
      rewrite Hh in H1, H2, H3. simpl in H1, H2, H3.
      destruct (IH (Legacy.with_netReplies l s1) (upd || u1))
        as (fin & rest & D1 & D2 & D3 & D4 & D5).
      exists (x :: fin), rest. simpl in *.
      rewrite D4, D5, H2, H3, <- app_assoc.
      repeat split; auto.
      * now rewrite D1.
      * destruct fin; [|assumption]. simpl in D1. now rewrite D2.
    + exists [], ((x, false) :: l). simpl. rewrite app_nil_r. auto.
Qed.

Variable ids : list Reply.
Hypothesis ids_NoDup : NoDup ids.

Lemma legacyAfter_step (past : list Reply)
                       (s : Legacy.MediaWikiArticleRequest) (r : Reply) :
  legacyAfter E ids past s ->
  legacyAfter E ids (past ++ [r]) (Legacy.requestFinished E s r).
Proof.
  intros (Hq & Hd & Hf). unfold Legacy.requestFinished.
  destruct (isFinished (Legacy.base s)) eqn:Hfin.
  - unfold isFinished in Hfin. rewrite Hfin in Hf.
    assert (HD : dropWhile (completed past) ids = []).
    { rewrite Hq in Hf.
      destruct (dropWhile (completed past) ids); [reflexivity|discriminate]. }
    destruct (reorder_absent ids past r) as [R1 R2].
    { rewrite HD. auto. }
    unfold legacyAfter. rewrite R1, R2, HD. rewrite HD in Hq.
    repeat split; auto. now rewrite Hq.
  - destruct (markFinished r (Legacy.netReplies s)) as [l|] eqn:Hm.
    + assert (Hin : In r (dropWhile (completed past) ids)).
      { destruct (in_dec Nat.eq_dec r (dropWhile (completed past) ids))
          as [H|H]; [assumption|].
        assert (Hn : markFinished r (Legacy.netReplies s) = None).
        { apply markFinished_None. rewrite Hq, map_fst_entry. exact H. }
        congruence. }
      rewrite Hq, (markFinished_entries past r _
                     (NoDup_dropWhile ids ids_NoDup (completed past)) Hin)
        in Hm.
      inversion Hm as [Hl]. clear Hm. rewrite Hl.
      destruct (legacy_drain_spec l (Legacy.with_netReplies l s) false)
        as (fin & rest & D1 & D2 & D3 & D4 & D5).
      destruct (Legacy.drain E l (Legacy.with_netReplies l s) false)
        as [s1 u] eqn:Hdr.
      simpl in D2, D4, D5.
      assert (Hrest : Legacy.netReplies s1 = rest).
      { rewrite D2. destruct fin; [|reflexivity]. now rewrite D1. }
      rewrite <- Hl in D1.
      destruct (finished_prefix_unique (past ++ [r]) _ fin rest D1 D3)
        as [Hfin' Hrest'].
      destruct (reorder_present ids past r) as [R1 R2].
      unfold isFinished in Hfin. rewrite Hfin in D5.
      assert (Hgoal : forall q,
                 isFinishedFlag q = empty (Legacy.netReplies s1) ->
                 errorString q = errorString (Legacy.base s1) ->
                 legacyAfter E ids (past ++ [r]) (Legacy.with_base q s1)).
      { intros q Hq1 _. unfold legacyAfter. simpl.
        rewrite R1, R2, map_app, concat_app, <- Hd, Hrest, Hrest', D4,
          Hfin'.
        repeat split; auto. now rewrite Hq1, Hrest, Hrest'. }
      destruct (empty (Legacy.netReplies s1)) eqn:Hemp.
      * apply Hgoal; unfold finish; rewrite D5; reflexivity.
      * destruct u.
        -- apply Hgoal; unfold update; rewrite D5; simpl; auto.
        -- replace s1 with (Legacy.with_base (Legacy.base s1) s1)
             by (destruct s1; reflexivity).
           apply Hgoal; auto.
    + apply markFinished_None in Hm. rewrite Hq, map_fst_entry in Hm.
      destruct (reorder_absent ids past r Hm) as [R1 R2].
      unfold legacyAfter. rewrite R1, R2. repeat split; auto.
Qed.

Lemma legacyAfter_deliver (evs : list Reply) :
  forall past s, legacyAfter E ids past s ->
  legacyAfter E ids (past ++ evs) (Legacy.deliver E s evs).
Proof.
  unfold Legacy.deliver.
  induction evs as [|r evs IH]; intros past s Hs; simpl.
  - now rewrite app_nil_r.
  - replace (past ++ r :: evs) with ((past ++ [r]) ++ evs)
      by (now rewrite <- app_assoc).
    apply IH. now apply legacyAfter_step.
Qed.

Lemma legacy_addQueries_spec (words : list QString) :
  forall s,
  let s1 := fold_left Legacy.addQuery words s in
  Legacy.netReplies s1
    = Legacy.netReplies s
        ++ pending (List.seq (nextReply (Legacy.netMgr s)) (length words)) /\
  sent (Legacy.netMgr s1)
    = sent (Legacy.netMgr s)
        ++ combine (List.seq (nextReply (Legacy.netMgr s)) (length words))
                   words /\
  Legacy.base s1 = Legacy.base s /\ Legacy.data s1 = Legacy.data s.
Proof.
  induction words as [|w words IH]; intros s; simpl.
  - rewrite !app_nil_r. tauto.
  - destruct (IH (Legacy.addQuery s w)) as (B1 & B2 & B3 & B4).
    simpl in *. rewrite B1, B2, B3, B4. simpl.
    rewrite <- !app_assoc. simpl. repeat split; auto.
Qed.

End LegacyDelivery.

(** ** Delivery to a request of any class *)

Section DeliveryAnyClass.
Variable E : Env.
Variable c : Class.
Variable ids : list Reply.

Lemma markFinished_fst (r : Reply) (l l' : NetReplies) :
  markFinished r l = Some l' -> map fst l' = map fst l.
Proof.
  revert l'. induction l as [|[x b] l IH]; simpl; intros l' H;
    [discriminate|].
  destruct (Nat.eqb x r).
  - inversion H. reflexivity.
  - destruct (markFinished r l) as [l1|]; [|discriminate].
    inversion H. simpl. now rewrite (IH l1).
Qed.

Lemma map_fst_done (l : list Reply) : map fst (done l) = l.
Proof. unfold done. rewrite map_map. simpl. apply map_id. Qed.

Lemma map_fst_pending (l : list Reply) : map fst (pending l) = l.
Proof. unfold pending. rewrite map_map. simpl. apply map_id. Qed.

Lemma filter_fresh (n : Reply) (fresh : list Reply) :
  Forall (fun x => x < n) ids -> Forall (fun x => n <= x) fresh ->
  filter (completed ids) fresh = [].
Proof.
  intros Hids Hfresh. induction Hfresh as [|x fresh Hx _ IH];
    [reflexivity|].
  simpl. destruct (completed ids x) eqn:Hc; [|exact IH].
  apply completed_In in Hc. rewrite Forall_forall in Hids.
  specialize (Hids x Hc). lia.
Qed.

Lemma handledSoFar_step (handled : list Reply) (s : ArticleRequest)
                        (r : Reply) :
  handledSoFar E c ids handled s ->
  exists s1 fin,
    requestFinished E s r = Some s1 /\
    handledSoFar E c ids (handled ++ fin) s1.
Proof.
  intros (Hc & Hd & Hf & Hn).
  destruct (isFinished (base s)) eqn:Hfin.
  - exists s, []. rewrite app_nil_r.
    split; [unfold requestFinished; now rewrite Hfin|].
    repeat split; assumption.
  - destruct (markFinished r (netReplies s)) as [l|] eqn:Hm.
    + destruct (requestFinished_spec E s r l Hfin Hm)
        as (s1 & fin & rest & fresh & F1 & F2 & F3 & F4 & F5 & F6 & F7
            & F8 & F9 & [F10 F11]).
      exists s1, fin. split; [exact F1|].
      pose proof (markFinished_fst r _ _ Hm) as Hfst.
      rewrite F2, map_app, map_fst_done in Hfst.
      rewrite <- Hfst, filter_app in Hf.
      unfold handledSoFar.
      split; [now rewrite F5|].
      split; [now rewrite F6, Hc, Hd, map_app, concat_app|].
      split.
      * rewrite F3, (map_app fst), map_fst_pending, !filter_app.
        rewrite (filter_fresh (nextReply (netMgr s)) fresh Hn F11).
        simpl. now rewrite <- app_assoc.
      * eapply Forall_impl; [|exact Hn]. simpl. intros; lia.
    + exists s, []. rewrite app_nil_r.
      split; [unfold requestFinished; now rewrite Hfin, Hm|].
      repeat split; assumption.
Qed.

Lemma handledSoFar_deliver (evs : list Reply) :
  forall handled s, handledSoFar E c ids handled s ->
  exists s' handled',
    deliver E s evs = Some s' /\
    handledSoFar E c ids (handled ++ handled') s'.
Proof.
  induction evs as [|r evs IH]; intros handled s Hs; simpl.
  - exists s, []. rewrite app_nil_r. auto.
  - destruct (handledSoFar_step handled s r Hs) as (s1 & fin & H1 & H2).
    rewrite H1. destruct (IH (handled ++ fin) s1 H2) as (s' & h' & H3 & H4).
    exists s', (fin ++ h'). rewrite app_assoc. auto.
Qed.

End DeliveryAnyClass.

(* ================================================================== *)
(** * Part III: the claims                                             *)
(* ================================================================== *)

(** ** Ordering *)

Lemma articleRequest_initial (f : Factory) (mgr : Manager) :
  let s := articleRequest f mgr in
  self s = classOf f /\ netReplies s = [] /\ netMgr s = mgr /\
  base s = newRequest /\ data s = [] /\ hasAnyData s = false.
Proof. destruct f; simpl; auto 10. Qed.

Lemma getArticle_live (E : Env) (d : MediaWikiDictionary) (mgr : Manager)
                      (word : QString) (alts : list QString)
                      (s0 : ArticleRequest) :
  getArticle E d mgr word alts = LiveArticle s0 ->
  let ids := List.seq (nextReply mgr) (S (length alts)) in
  netReplies s0 = pending ids /\
  sent (netMgr s0)
    = sent mgr ++ combine ids (map (asked E (classOf (factory d)))
                                   (word :: alts)) /\
  self s0 = classOf (factory d) /\ base s0 = newRequest /\
  data s0 = [] /\ hasAnyData s0 = false /\
  nextReply (netMgr s0) = nextReply mgr + S (length alts).
Proof.
  intros Hget ids. unfold getArticle in Hget.
  destruct (80 <? length word); [discriminate|].
  inversion Hget as [Hs0]. clear Hget.
  change (fold_left (addQuery E) alts
            (addQuery E (articleRequest (factory d) mgr) word))
    with (fold_left (addQuery E) (word :: alts)
            (articleRequest (factory d) mgr)).
  destruct (addQueries_spec E (word :: alts)
              (articleRequest (factory d) mgr))
    as (A1 & A2 & A3 & A4 & A5 & A6 & A7).
  destruct (articleRequest_initial (factory d) mgr)
    as (I1 & I2 & I3 & I4 & I5 & I6).
  rewrite I1 in A3, A4. rewrite I2, I3 in A1. rewrite I3 in A2, A3.
  rewrite I4 in A5. rewrite I5 in A6. rewrite I6 in A7.
  repeat split; assumption.
Qed.

Lemma seq_NoDup_In (n len : nat) :
  NoDup (List.seq n len).
Proof. apply seq_NoDup. Qed.

Lemma all_completed (ids evs : list Reply) :
  Permutation ids evs ->
  takeWhile (completed evs) ids = ids /\ dropWhile (completed evs) ids = [].
Proof.
  intros Hperm.
  assert (H : forall x, In x ids -> completed evs x = true).
  { intros x Hx. apply completed_In.
    now apply (Permutation_in x Hperm). }
  split; [now apply takeWhile_all | now apply dropWhile_all].
Qed.

Lemma initial_queue (evs ids : list Reply) :
  pending ids = map (entry []) (dropWhile (completed []) ids).
Proof.
  assert (H : dropWhile (completed []) ids = ids)
    by (destruct ids; reflexivity).
  rewrite H. reflexivity.
Qed.

(** C1.  Whatever the order in which the completions of the queued
    queries arrive, the entries of the queue are handled from the front
    and only while the front entry is finished.
    (i) For a request of any class, a call of [requestFinished] for a
    queued reply marks that entry, then handles a prefix of the queue
    made of finished entries, in queue order, and appends to the buffer
    what they stand for, in that order; it stops with the queue empty or
    its front pending.
    (ii) For a request of any class made by [getArticle], after any
    sequence of completions the buffer holds what the replies handled so
    far stand for, in the order they were handled, and the submitted
    queries among them are a prefix of the submitted queries, in
    submission order.
    (iii) For the classes that queue nothing themselves, after any
    sequence of completions the buffer holds what the longest completed
    prefix of the submitted queries stands for, in submission order; when
    the completions are a permutation of the submitted queries, it holds
    all of them in submission order and the request is finished.
    (iv) The same holds of the earlier revision. *)
Theorem completions_processed_in_queue_order (E : Env) (EL : Legacy.Env) :
  (forall s r l,
     isFinished (base s) = false ->
     markFinished r (netReplies s) = Some l ->
     exists s' fin rest fresh,
       requestFinished E s r = Some s' /\
       l = done fin ++ rest /\
       netReplies s' = pending fresh ++ rest /\
       frontPending (netReplies s') /\
       data s' = data s ++ concat (map (contribution E (self s)) fin)) /\
  (forall d mgr word alts s0 evs,
     getArticle E d mgr word alts = LiveArticle s0 ->
     let ids := List.seq (nextReply mgr) (S (length alts)) in
     exists s' handled later,
       deliver E s0 evs = Some s' /\
       data s'
         = concat (map (contribution E (classOf (factory d))) handled) /\
       filter (completed ids) handled ++ later = ids) /\
  (forall d mgr word alts s0 evs,
     plain (classOf (factory d)) = true ->
     getArticle E d mgr word alts = LiveArticle s0 ->
     let ids := List.seq (nextReply mgr) (S (length alts)) in
     let stands := contribution E (classOf (factory d)) in
     netReplies s0 = pending ids /\
     exists s',
       deliver E s0 evs = Some s' /\
       data s' = concat (map stands (takeWhile (completed evs) ids)) /\
       (Permutation ids evs ->
        data s' = concat (map stands ids) /\
        isFinished (base s') = true)) /\
  (forall mgr word alts evs,
     let ids := List.seq (nextReply mgr) (S (length alts)) in
     let s0 := Legacy.construct word alts mgr in
     let s' := Legacy.deliver EL s0 evs in
     Legacy.netReplies s0 = pending ids /\
     Legacy.data s'
       = concat (map (legacyContribution EL)
                     (takeWhile (completed evs) ids)) /\
     (Permutation ids evs ->
      Legacy.data s' = concat (map (legacyContribution EL) ids) /\
      isFinished (Legacy.base s') = true)).
Proof.
  split; [|split; [|split]].
  - intros s r l Hlive Hm.
    destruct (requestFinished_spec E s r l Hlive Hm)
      as (s' & fin & rest & fresh & F1 & F2 & F3 & F4 & F5 & F6 & _).
    exists s', fin, rest, fresh. auto.
  - intros d mgr word alts s0 evs Hget ids.
    destruct (getArticle_live E d mgr word alts s0 Hget)
      as (A1 & _ & A4 & _ & A6 & _ & A8). fold ids in A1.
    assert (Hall : filter (completed ids) ids = ids).
    { apply forallb_filter_id. apply forallb_forall. intros x Hx.
      now apply completed_In. }
    assert (Hinit : handledSoFar E (classOf (factory d)) ids [] s0).
    { unfold handledSoFar. rewrite A1, A4, A6, map_fst_pending.
      repeat split; auto.
      apply Forall_forall. intros x Hx. subst ids.
      apply in_seq in Hx. rewrite A8. lia. }
    destruct (handledSoFar_deliver E (classOf (factory d)) ids evs [] s0
                Hinit)
      as (s' & handled & D1 & (_ & D3 & D4 & _)).
    exists s', handled, (filter (completed ids) (map fst (netReplies s'))).
    auto.
  - intros d mgr word alts s0 evs Hplain Hget ids stands.
    destruct (getArticle_live E d mgr word alts s0 Hget)
      as (A1 & _ & A4 & A5 & A6 & _). fold ids in A1.
    split; [exact A1|].
    assert (Hafter : after E (classOf (factory d)) ids [] s0).
    { unfold after. rewrite A1, A4, A5, A6.
      rewrite <- (initial_queue [] ids).
      repeat split; auto. }
    destruct (after_deliver E (classOf (factory d)) Hplain ids
                (seq_NoDup_In _ _) evs [] s0 Hafter)
      as (s' & D1 & (D2 & D3 & D4 & D5)).
    change ([] ++ evs) with evs in D3, D4.
    exists s'. split; [exact D1|]. split; [exact D4|].
    intros Hperm. destruct (all_completed ids evs Hperm) as [T1 T2].
    rewrite T1 in D4. split; [exact D4|].
    unfold isFinished. rewrite D5, D3, T2. reflexivity.
  - intros mgr word alts evs ids s0 s'.
    destruct (legacy_addQueries_spec (word :: alts)
                {| Legacy.base := newRequest; Legacy.data := [];
                   Legacy.hasAnyData := false; Legacy.netReplies := [];
                   Legacy.netMgr := mgr |})
      as (A1 & A2 & A3 & A4).
    simpl in A1, A2, A3, A4.
    change (Legacy.netReplies s0 = pending ids) in A1.
    change (Legacy.base s0 = newRequest) in A3.
    change (Legacy.data s0 = []) in A4.
    split; [exact A1|].
    assert (Hafter : legacyAfter EL ids [] s0).
    { unfold legacyAfter. rewrite A1, A3, A4.
      rewrite <- (initial_queue [] ids).
      repeat split; auto. }
    pose proof (legacyAfter_deliver EL ids (seq_NoDup_In _ _) evs [] s0
                  Hafter) as (D3 & D4 & D5).
    change ([] ++ evs) with evs in D3, D4. fold s' in D3, D4, D5.
    split; [exact D4|].
    intros Hperm. destruct (all_completed ids evs Hperm) as [T1 T2].
    rewrite T1 in D4. split; [exact D4|].
    unfold isFinished. rewrite D5, D3, T2. reflexivity.
Qed.

Lemma completions_processed_in_queue_order_witness :
  let s1 := with_netReplies (pending [5; 6]) (construct FandomArticleRequest
                                                freshManager) in
  (isFinished (base s1) = false /\
   markFinished 6 (netReplies s1) = Some [(5, false); (6, true)] /\
   exists s', requestFinished sampleEnv s1 6 = Some s' /\ data s' = []) /\
  (exists s0 s' handled later,
     getArticle sampleEnv legendsDictionary freshManager (qs "Yoda") []
       = LiveArticle s0 /\
     deliver sampleEnv s0 [0; 1; 2] = Some s' /\
     data s' = concat (map (contribution sampleEnv
                              WookieepediaLegendsArticleRequest) handled) /\
     filter (completed [0]) handled ++ later = [0]) /\
  (plain (classOf (factory sampleDictionary)) = true /\
   Permutation [0; 1; 2] [2; 0; 1] /\
   exists s0 s',
     getArticle sampleEnv sampleDictionary freshManager (qs "a")
                [qs "b"; qs "c"] = LiveArticle s0 /\
     deliver sampleEnv s0 [2; 0; 1] = Some s' /\
     data s' = concat (map (contribution sampleEnv MediaWikiArticleRequest)
                           [0; 1; 2]) /\
     isFinished (base s') = true) /\
  (let s' := Legacy.deliver sampleLegacyEnv
               (Legacy.construct (qs "a") [qs "b"; qs "c"] freshManager)
               [2; 0; 1] in
   Legacy.data s' = concat (map (legacyContribution sampleLegacyEnv)
                                [0; 1; 2]) /\
   isFinished (Legacy.base s') = true).
Proof.
  intros s1.
  destruct (completions_processed_in_queue_order sampleEnv sampleLegacyEnv)
    as (P1 & P2 & P3 & P4).
  split; [|split; [|split]].
  - split; [reflexivity|]. split; [reflexivity|].
    destruct (P1 s1 6 [(5, false); (6, true)] eq_refl eq_refl)
      as (s' & fin & rest & fresh & F1 & F2 & F3 & F4 & F5).
    exists s'. split; [exact F1|].
    destruct fin as [|f fin]; [|discriminate].
    exact F5.
  - destruct (P2 legendsDictionary freshManager (qs "Yoda") []
                 _ [0; 1; 2] eq_refl)
      as (s' & handled & later & D1 & D2 & D3).
    eexists. exists s', handled, later.
    split; [reflexivity|]. split; [exact D1|]. split; [exact D2 | exact D3].
  - split; [reflexivity|].
    split; [exact (Permutation_app_comm [0; 1] [2])|].
    destruct (P3 sampleDictionary freshManager (qs "a") [qs "b"; qs "c"]
                 _ [2; 0; 1] eq_refl eq_refl)
      as (_ & s' & D1 & D2 & D3).
    eexists. exists s'. split; [reflexivity|]. split; [exact D1|].
    apply D3. exact (Permutation_app_comm [0; 1] [2]).
  - destruct (P4 freshManager (qs "a") [qs "b"; qs "c"] [2; 0; 1])
      as (_ & _ & D3).
    apply D3. exact (Permutation_app_comm [0; 1] [2]).
Defined.

(** ** Redirection *)

Lemma replyHandled_textFound (s : ArticleRequest) (r : Reply) :
  let s1 := replyHandled s r true in
  netReplies s1 = netReplies s /\ netMgr s1 = netMgr s /\
  data s1 = data s /\ hasAnyData s1 = hasAnyData s /\
  base s1 = base s /\ self s1 = self s.
Proof.
  unfold replyHandled.
  destruct (preferableSuffix_of (self s)); [|simpl; tauto].
  destruct (replacements s) as [|front rest]; [simpl; tauto|].
  destruct (Nat.eqb r (reply front)); simpl; tauto.
Qed.

Lemma redirect_rejects (c : Class) (d body : QString) :
  redirectLinkDistinction_of c = Some d ->
  isEmpty d = false ->
  isEmpty (findWikiLink body d) = false ->
  accepts c body = false /\ distinction c = d.
Proof.
  intros Hd Hne Hw. unfold accepts, distinction. rewrite Hd, Hne, Hw. auto.
Qed.




(** ** The suffix test of [doAddQuery] *)

Section SuffixFallback.
Variable E : Env.

Lemma startsWith_eq (a b : QString) :
  length a = length b -> (startsWith a b = true <-> a = b).
Proof.
  revert b. induction a as [|x a IH]; intros [|y b] Hlen; simpl in *;
    try discriminate; [tauto|].
  rewrite andb_true_iff, N.eqb_eq, IH by lia.
  split; [intros [-> ->]; reflexivity | intros H; inversion H; auto].
Qed.

Lemma skipn_nth_cons (word : QString) (k : nat) :
  k < length word -> skipn k word = nth k word 0%N :: skipn (S k) word.
Proof.
  revert k. induction word as [|c word IH]; intros k Hk; simpl in *; [lia|].
  destruct k; [reflexivity|]. apply IH. lia.
Qed.

(** Within the word, [std::equal] compares as expected and reads inside
    the buffer only. *)
Lemma std_equal_in_bounds (word other : QString) :
  forall k, k + length other <= length word ->
  fst (std_equal (stray E) word (Z.of_nat k) other)
    = startsWith other (skipn k word) /\
  Forall (fun i => inBounds word i = true)
         (snd (std_equal (stray E) word (Z.of_nat k) other)).
Proof.
  induction other as [|c other IH]; intros k Hk; simpl in *.
  - split; [reflexivity | constructor].
  - assert (Hin : inBounds word (Z.of_nat k) = true).
    { unfold inBounds. apply andb_true_iff. split.
      - apply Z.leb_le. lia.
      - apply Z.ltb_lt. lia. }
    rewrite skipn_nth_cons by lia.
    unfold deref. rewrite Hin, Nat2Z.id.
    rewrite N.eqb_sym.
    destruct (N.eqb c (nth k word 0%N)); simpl.
    + replace (Z.of_nat k + 1)%Z with (Z.of_nat (S k)) by lia.
      destruct (IH (S k)) as [H1 H2]; [lia|].
      destruct (std_equal (stray E) word (Z.of_nat (S k)) other) as [b reads].
      simpl in *. split; [exact H1 | constructor; assumption].
    + split; [reflexivity | constructor; [assumption | constructor]].
Qed.

Lemma suffixCheck_in_bounds (word sfx : QString) :
  length sfx <= length word ->
  (fst (suffixCheck (stray E) word sfx) = true
     <-> exists pre, word = pre ++ sfx) /\
  Forall (fun i => inBounds word i = true)
         (snd (suffixCheck (stray E) word sfx)).
Proof.
  intros Hlen. unfold suffixCheck.
  replace (Z.of_nat (length word) - Z.of_nat (length sfx))%Z
    with (Z.of_nat (length word - length sfx)) by lia.
  destruct (std_equal_in_bounds word sfx (length word - length sfx))
    as [H1 H2]; [lia|].
  split; [|exact H2]. rewrite H1.
  rewrite startsWith_eq by (rewrite length_skipn; lia).
  split.
  - intros Heq. exists (firstn (length word - length sfx) word).
    rewrite Heq at 2. rewrite Heq. now rewrite firstn_skipn.
  - intros [pre ->]. rewrite length_app.
    replace (length pre + length sfx - length sfx) with (length pre) by lia.
    now rewrite skipn_app, skipn_all, Nat.sub_diag.
Qed.

(** A call for the reply at the front of a live request, when one
    iteration brings the loop to its exit. *)
Lemma requestFinished_front (s : ArticleRequest) (r : Reply) (flag : bool)
                            (rest : NetReplies) :
  isFinished (base s) = false ->
  netReplies s = (r, flag) :: rest ->
  let s1 := fst (handleReply E (with_netReplies rest s) r) in
  let u := snd (handleReply E (with_netReplies rest s) r) in
  frontPending (netReplies s1) ->
  requestFinished E s r
    = Some (if empty (netReplies s1) then with_base (finish (base s1)) s1
            else if u then with_base (update (base s1)) s1 else s1).
Proof.
  intros Hlive Hq s1 u Hfront. unfold requestFinished.
  rewrite Hlive, Hq. simpl. rewrite Nat.eqb_refl. simpl.
  change (with_netReplies rest (with_netReplies ((r, true) :: rest) s))
    with (with_netReplies rest s).
  subst s1 u.
  destruct (handleReply E (with_netReplies rest s) r) as [s1 u].
  cbn [fst snd] in *.
  destruct (netReplies s1) as [|[x [|]] l] eqn:Hq1; simpl in Hfront;
    [|contradiction|]; simpl; rewrite Hq1; reflexivity.
Qed.

(** The iteration for a reply without text that is the speculative
    query at the front of [replacements]. *)
Lemma handleReply_fallback (s : ArticleRequest) (r : Reply)
                           (sfx w : QString) (reps : list Replacement) :
  preferableSuffix_of (self s) = Some sfx ->
  replacements s = {| reply := r; originalWord := w |} :: reps ->
  textFound E r = false ->
  let s1 := fst (handleReply E s r) in
  netReplies s1 = (nextReply (netMgr s), false) :: netReplies s /\
  netMgr s1 = {| nextReply := S (nextReply (netMgr s));
                 sent := sent (netMgr s) ++ [(nextReply (netMgr s), w)] |} /\
  data s1 = data s /\ hasAnyData s1 = hasAnyData s /\
  replacements s1 = reps /\ self s1 = self s /\
  isFinishedFlag (base s1) = isFinishedFlag (base s) /\
  snd (handleReply E s r) = false.
Proof.
  intros Hsfx Hreps Hno. unfold textFound in Hno. unfold handleReply.
  destruct (outcome E r); try discriminate;
    unfold replyHandled; simpl; rewrite Hsfx, Hreps; simpl;
    rewrite Nat.eqb_refl; simpl; auto 10.
Qed.

(** The iteration for a reply whose article the class lets through. *)
Lemma handleReply_accepted (s : ArticleRequest) (r : Reply) (b : QString) :
  outcome E r = Text b ->
  accepts (self s) b = true ->
  let s1 := fst (handleReply E s r) in
  netReplies s1 = netReplies s /\ netMgr s1 = netMgr s /\
  data s1
    = data s ++ articleBody E (processArticle E (prepared E (self s) b)) /\
  hasAnyData s1 = true /\
  isFinishedFlag (base s1) = isFinishedFlag (base s) /\
  snd (handleReply E s r) = true.
Proof.
  intros Hout Hacc. unfold handleReply.
  rewrite Hout, preprocessArticle_spec, Hacc. cbn [fst snd].
  destruct (replyHandled_textFound
              (appendArticleToData E s
                 (processArticle E (prepared E (self s) b))) r)
    as (H1 & H2 & H3 & H4 & H5 & H6).
  rewrite H1, H2, H3, H4, H5. simpl. auto 10.
Qed.

(** For a word at least as long as the preferable suffix and not ending
    with it, a lookup of a suffix-adding class first asks for the word
    with the suffix appended, not for the word.  When the reply to that
    query holds no article text (the transfer or the parsing failed, or
    there is no parse or text node), a query for the word itself is
    queued in its place and nothing reaches the buffer; once that query
    brings an article the class lets through, the buffer holds that
    article and nothing else, and the request is finished. *)
Lemma suffix_fallback (c : Class) (sfx word : QString) (mgr : Manager) :
  preferableSuffix_of c = Some sfx ->
  length sfx <= length word ->
  ~ (exists pre, word = pre ++ sfx) ->
  let n := nextReply mgr in
  let s0 := addQuery E (construct c mgr) word in
  (netReplies s0 = [(n, false)] /\
   sent (netMgr s0) = sent mgr ++ [(n, word ++ sfx)] /\
   replacements s0 = [{| reply := n; originalWord := word |}]) /\
  (textFound E n = false ->
   exists s1,
     requestFinished E s0 n = Some s1 /\
     netReplies s1 = [(S n, false)] /\
     sent (netMgr s1) = sent mgr ++ [(n, word ++ sfx); (S n, word)] /\
     data s1 = [] /\ hasAnyData s1 = false /\
     isFinished (base s1) = false /\
     forall b, outcome E (S n) = Text b -> accepts c b = true ->
       exists s2,
         requestFinished E s1 (S n) = Some s2 /\
         data s2 = articleBody E (processArticle E (prepared E c b)) /\
         netReplies s2 = [] /\
         sent (netMgr s2) = sent (netMgr s1) /\
         isFinished (base s2) = true).
Proof.
  intros Hsfx Hlen Hnot n s0.
  assert (Hcheck : fst (suffixCheck (stray E) word sfx) = false).
  { destruct (fst (suffixCheck (stray E) word sfx)) eqn:Hc; [|reflexivity].
    exfalso. apply Hnot. now apply (suffixCheck_in_bounds word sfx Hlen). }
  assert (Hs0 : s0 = {| self := c; base := newRequest; data := [];
                        hasAnyData := false; netReplies := [(n, false)];
                        replacements := [{| reply := n;
                                            originalWord := word |}];
                        netMgr := {| nextReply := S n;
                                     sent := sent mgr ++ [(n, word ++ sfx)] |}
                     |}).
  { unfold s0, addQuery, doAddQuery. simpl. rewrite Hsfx.
    unfold doAddQuery_suffix. rewrite Hcheck. reflexivity. }
  clearbody s0. subst s0.
  split; [simpl; auto|].
  intros Hno.
  match goal with |- context [requestFinished E ?s n] => set (s0 := s) end.
  destruct (handleReply_fallback (with_netReplies [] s0) n sfx word []
              Hsfx eq_refl Hno)
    as (F1 & F2 & F3 & F4 & F5 & F6 & F7 & F8).
  pose proof (requestFinished_front s0 n false [] eq_refl eq_refl) as Hrf.
  cbv zeta in Hrf. rewrite F1, F8 in Hrf. simpl in Hrf.
  set (s1 := fst (handleReply E (with_netReplies [] s0) n)) in *.
  exists s1. split; [apply Hrf; exact I|].
  simpl in F1, F2, F3, F4, F6, F7.
  split; [exact F1|].
  split; [rewrite F2; simpl; rewrite <- app_assoc; reflexivity|].
  split; [exact F3|]. split; [exact F4|]. split; [exact F7|].
  intros b Hb Hacc. rewrite <- F6 in Hacc.
  destruct (handleReply_accepted (with_netReplies [] s1) (S n) b Hb Hacc)
    as (A1 & A2 & A3 & A4 & A5 & A6).
  assert (Hlive : isFinished (base s1) = false)
    by (unfold isFinished; now rewrite F7).
  pose proof (requestFinished_front s1 (S n) false [] Hlive F1) as Hrf2.
  cbv zeta in Hrf2. simpl in A1. rewrite A1 in Hrf2. simpl in Hrf2.
  eexists. split; [apply Hrf2; exact I|]. simpl.
  simpl in A2, A3, A5. rewrite A2, A3, F3, F6. simpl.
  split; [reflexivity|]. split; [exact A1|]. split; [reflexivity|].
  apply isFinished_finish.
Qed.

End SuffixFallback.

Lemma std_equal_first_read (stray : Z -> QChar) (word other : QString)
                           (first1 : Z) :
  other <> [] -> In first1 (snd (std_equal stray word first1 other)).
Proof.
  destruct other as [|c other]; [congruence|]. intros _. simpl.
  destruct (N.eqb (deref stray word first1) c); [|simpl; auto].
  destruct (std_equal stray word (first1 + 1) other). simpl. auto.
Qed.

(** C10.  The test at the head of [doAddQuery] starts reading at
    [word.end() - preferableSuffix.size()]: for the word Yoda and the
    suffix /Legends that is four characters before the word's buffer,
    for the empty word eight, whatever the memory there holds.  The
    test reads outside the word. *)
Theorem suffix_check_reads_out_of_bounds (stray : Z -> QChar) :
  (In (-4)%Z (snd (suffixCheck stray (qs "Yoda") legendsSuffix)) /\
   inBounds (qs "Yoda") (-4) = false) /\
  (In (-8)%Z (snd (suffixCheck stray [] legendsSuffix)) /\
   inBounds [] (-8) = false).
Proof.
  split; (split; [|reflexivity]).
  - apply (std_equal_first_read stray (qs "Yoda") legendsSuffix (-4)).
    discriminate.
  - apply (std_equal_first_read stray [] legendsSuffix (-8)).
    discriminate.
Qed.

(** C3.  The word Legends does not end with the suffix /Legends, and is
    shorter than it.  The suffix test of [doAddQuery] reads the character
    before the word's buffer; when that is a slash the test holds, the
    plain word is asked for, and no query with the suffix appended is
    sent nor any fallback recorded. *)
Theorem suffix_query_skipped_for_short_word :
  let r := getArticle sampleEnv legendsDictionary freshManager
                      (qs "Legends") [] in
  endsWith (qs "Legends") legendsSuffix = false /\
  stray sampleEnv (-1) = qc "/" /\
  In (-1)%Z (snd (suffixCheck (stray sampleEnv) (qs "Legends")
                              legendsSuffix)) /\
  inBounds (qs "Legends") (-1) = false /\
  sent (resultManager r) = [(0, qs "Legends")] /\
  exists s, r = LiveArticle s /\ replacements s = [] /\
            self s = WookieepediaLegendsArticleRequest.
Proof.
  intros r. repeat split; try reflexivity.
  - vm_compute. auto.
  - eexists. repeat split; reflexivity.
Qed.

(** ** The debounced prefix search *)

Section Debounce.
Import WordSearch.

(** C4, as the spec words it, fails: a request cancelled before its
    timer fired gives up its reply at once.  (The sentence refuted reads:
    cancelling before maturity leaves the reply in place and the request
    unfinished, cancelling after maturity releases the reply and
    finishes.) *)
Lemma cancel_before_maturity_keeps_reply_refuted :
  ~ (forall s : MediaWikiWordSearchRequest,
       (livedLongEnough s = false ->
        netReply (cancel s) = netReply s /\
        isFinished (base (cancel s)) = isFinished (base s)) /\
       (livedLongEnough s = true ->
        netReply (cancel s) = None /\
        isFinished (base (cancel s)) = true)).
Proof.
  intros H.
  destruct (H (construct (qs "yod") freshManager)) as [H1 _].
  destruct (H1 eq_refl) as [Hreply _].
  discriminate Hreply.
Qed.

(** C4, amended.  [cancel] releases the reply at once and records the
    cancellation, whatever the age of the request.  Before the timer has
    fired it leaves the request unfinished, and the timer event finishes
    it; after the timer has fired it finishes the request at once.  A
    completion of the transfer after [cancel] changes nothing. *)
Theorem cancel_defers_only_finish
  (searchOutcome : Reply -> SearchOutcome)
  (xmlParseError : QString -> Z -> Z -> QString)
  (s : MediaWikiWordSearchRequest) :
  netReply (cancel s) = None /\
  isCancelling (cancel s) = true /\
  downloadFinished searchOutcome xmlParseError (cancel s) = cancel s /\
  (livedLongEnough s = false ->
   base (cancel s) = base s /\
   isFinished (base (timerEvent (cancel s))) = true) /\
  (livedLongEnough s = true ->
   isFinished (base (cancel s)) = true).
Proof.
  assert (Hfin : forall q, isFinished (finish q) = true).
  { intros q. unfold finish, isFinished.
    destruct (isFinishedFlag q) eqn:Hq; [exact Hq | reflexivity]. }
  destruct s as [q m nr lived cancelling timer mgr].
  unfold cancel, timerEvent, downloadFinished.
  destruct lived; simpl; repeat split;
    try discriminate; try (now destruct nr); intros _; apply Hfin.
Qed.

Lemma cancel_defers_only_finish_witness :
  let young := construct (qs "yod") freshManager in
  let old := timerEvent young in
  (livedLongEnough young = false /\
   netReply young = Some 0 /\ netReply (cancel young) = None /\
   isFinished (base (cancel young)) = false /\
   isFinished (base (timerEvent (cancel young))) = true) /\
  (livedLongEnough old = true /\
   netReply (cancel old) = None /\
   isFinished (base (cancel old)) = true).
Proof.
  intros young old.
  destruct (cancel_defers_only_finish (fun _ => NoPagesNode)
              (fun e _ _ => e) young) as (Y1 & _ & _ & Y4 & _).
  destruct (cancel_defers_only_finish (fun _ => NoPagesNode)
              (fun e _ _ => e) old) as (O1 & _ & _ & _ & O5).
  split.
  - split; [reflexivity|]. split; [reflexivity|]. split; [exact Y1|].
    destruct (Y4 eq_refl) as [Hb Ht]. rewrite Hb. split; [reflexivity|].
    exact Ht.
  - split; [reflexivity|]. split; [exact O1|]. exact (O5 eq_refl).
Defined.

End Debounce.

(** ** Oversized words *)

(** C5.  For a word of more than 80 characters [getArticle] (in both
    revisions) and [prefixMatch] return a request that is finished, with
    nothing in its buffer, no data flag, no match and no error text, and
    leave the network manager as it was: nothing is sent.  For a word of
    at most 80 characters they return a request that is not finished and
    have sent at least one query ([prefixMatch] exactly one, for the
    word). *)
Theorem oversized_word_rejected_without_network
  (E : Env) (d : MediaWikiDictionary) (mgr : Manager) (word : QString)
  (alts : list QString) :
  (80 < length word ->
   (let r := getArticle E d mgr word alts in
    resultView r = DataRequestInstant false /\
    isFinished (dr_base (resultView r)) = true /\
    dr_data (resultView r) = [] /\
    dr_hasAnyData (resultView r) = false /\
    errorString (dr_base (resultView r)) = [] /\
    resultManager r = mgr) /\
   (let r := WordSearch.prefixMatch mgr word in
    isFinished (ws_base (WordSearch.resultView r)) = true /\
    ws_matches (WordSearch.resultView r) = [] /\
    errorString (ws_base (WordSearch.resultView r)) = [] /\
    WordSearch.resultManager r = mgr) /\
   Legacy.getArticle mgr word alts
     = Legacy.InstantArticle (DataRequestInstant false) mgr) /\
  (length word <= 80 ->
   (exists s,
      getArticle E d mgr word alts = LiveArticle s /\
      isFinished (base s) = false /\
      exists more,
        sent (netMgr s)
          = sent mgr ++ (nextReply mgr, asked E (self s) word) :: more) /\
   (exists s,
      WordSearch.prefixMatch mgr word = WordSearch.LiveSearch s /\
      isFinished (WordSearch.base s) = false /\
      sent (WordSearch.netMgr s) = sent mgr ++ [(nextReply mgr, word)]) /\
   (exists s,
      Legacy.getArticle mgr word alts = Legacy.LiveArticle s /\
      isFinished (Legacy.base s) = false /\
      exists more,
        sent (Legacy.netMgr s) = sent mgr ++ (nextReply mgr, word) :: more)).
Proof.
  split.
  - intros Hlong. apply Nat.ltb_lt in Hlong.
    unfold getArticle, WordSearch.prefixMatch, Legacy.getArticle.
    rewrite Hlong. simpl. auto 10.
  - intros Hshort. apply Nat.ltb_ge in Hshort. split; [|split].
    + destruct (getArticle E d mgr word alts) as [x m|s] eqn:Hget.
      * unfold getArticle in Hget. rewrite Hshort in Hget. discriminate.
      * destruct (getArticle_live E d mgr word alts s Hget)
          as (G1 & G2 & G3 & G4 & G5 & G6).
        exists s. split; [reflexivity|]. rewrite G4. split; [reflexivity|].
        rewrite G2, G3. simpl. eexists. reflexivity.
    + unfold WordSearch.prefixMatch. rewrite Hshort.
      eexists. split; [reflexivity|]. simpl. auto.
    + unfold Legacy.getArticle. rewrite Hshort.
      eexists. split; [reflexivity|].
      destruct (legacy_addQueries_spec (word :: alts)
                  {| Legacy.base := newRequest; Legacy.data := [];
                     Legacy.hasAnyData := false; Legacy.netReplies := [];
                     Legacy.netMgr := mgr |})
        as (A1 & A2 & A3 & A4).
      simpl in A2, A3. unfold Legacy.construct. simpl.
      rewrite A2, A3. split; [reflexivity|]. eexists. reflexivity.
Qed.

Lemma oversized_word_rejected_without_network_witness :
  let long := repeat (qc "a") 81 in
  let short := repeat (qc "a") 80 in
  (80 < length long /\
   resultView (getArticle sampleEnv sampleDictionary freshManager long
                          [qs "b"])
     = DataRequestInstant false /\
   resultManager (getArticle sampleEnv sampleDictionary freshManager long
                             [qs "b"]) = freshManager /\
   WordSearch.resultManager (WordSearch.prefixMatch freshManager long)
     = freshManager) /\
  (length short <= 80 /\
   exists s,
     getArticle sampleEnv sampleDictionary freshManager short [qs "b"]
       = LiveArticle s /\
     isFinished (base s) = false /\
     exists more, sent (netMgr s) = (0, short) :: more).
Proof.
  intros long short.
  destruct (oversized_word_rejected_without_network sampleEnv
              sampleDictionary freshManager long [qs "b"]) as [L _].
  destruct (oversized_word_rejected_without_network sampleEnv
              sampleDictionary freshManager short [qs "b"]) as [_ S].
  assert (Hlong : 80 < length long) by (vm_compute; lia).
  assert (Hshort : length short <= 80) by (vm_compute; lia).
  split.
  - split; [exact Hlong|].
    destruct (L Hlong) as ((A1 & _ & _ & _ & _ & A6) & (_ & _ & _ & B4) & _).
    auto.
  - split; [exact Hshort|].
    destruct (S Hshort) as ((s & G1 & G2 & more & G3) & _).
    exists s. split; [exact G1|]. split; [exact G2|].
    exists more. rewrite G3.
    assert (Hself : self s = MediaWikiArticleRequest).
    { destruct (getArticle_live _ _ _ _ _ _ G1) as (_ & _ & H & _).
      exact H. }
    rewrite Hself. reflexivity.
Defined.

(** ** Events after the end *)

(** C6.  [cancel] finishes the request.  On a finished request, whether
    it was cancelled or ran to its end, [cancel] and every call of
    [requestFinished] leave the request, its buffer included, exactly as
    it was; so a second [cancel] changes nothing.  A call of
    [requestFinished] for a reply that is not in the queue leaves the
    request as it was.  Every call returns.  The same holds of the
    earlier revision. *)
Theorem finished_request_ignores_events
  (E : Env) (EL : Legacy.Env) (s : ArticleRequest)
  (t : Legacy.MediaWikiArticleRequest) (r : Reply) :
  (isFinished (base (cancel s)) = true /\
   cancel (cancel s) = cancel s /\
   (exists s', requestFinished E s r = Some s') /\
   (isFinished (base s) = true ->
    cancel s = s /\ requestFinished E s r = Some s) /\
   (~ In r (map fst (netReplies s)) -> requestFinished E s r = Some s)) /\
  (isFinished (Legacy.base (Legacy.cancel t)) = true /\
   Legacy.cancel (Legacy.cancel t) = Legacy.cancel t /\
   (isFinished (Legacy.base t) = true ->
    Legacy.cancel t = t /\ Legacy.requestFinished EL t r = t) /\
   (~ In r (map fst (Legacy.netReplies t)) ->
    Legacy.requestFinished EL t r = t)).
Proof.
  split.
  - split; [apply isFinished_finish|].
    split; [unfold cancel; simpl; now rewrite finish_idempotent|].
    split; [apply requestFinished_total|].
    split.
    + intros Hfin. split.
      * unfold cancel. rewrite (finish_finished _ Hfin).
        destruct s; reflexivity.
      * unfold requestFinished. now rewrite Hfin.
    + intros Hnot. unfold requestFinished.
      destruct (isFinished (base s)); [reflexivity|].
      apply markFinished_None in Hnot. now rewrite Hnot.
  - split; [apply isFinished_finish|].
    split; [unfold Legacy.cancel; simpl; now rewrite finish_idempotent|].
    split.
    + intros Hfin. split.
      * unfold Legacy.cancel. rewrite (finish_finished _ Hfin).
        destruct t; reflexivity.
      * unfold Legacy.requestFinished. now rewrite Hfin.
    + intros Hnot. unfold Legacy.requestFinished.
      destruct (isFinished (Legacy.base t)); [reflexivity|].
      apply markFinished_None in Hnot. now rewrite Hnot.
Qed.

Lemma finished_request_ignores_events_witness :
  let s := with_netReplies (pending [3; 4])
             (construct MediaWikiArticleRequest freshManager) in
  let t := Legacy.construct (qs "a") [qs "b"] freshManager in
  (isFinished (base (cancel s)) = true /\
   cancel (cancel (cancel s)) = cancel s /\
   requestFinished sampleEnv (cancel s) 3 = Some (cancel s) /\
   ~ In 9 (map fst (netReplies s)) /\
   requestFinished sampleEnv s 9 = Some s) /\
  (isFinished (Legacy.base (Legacy.cancel t)) = true /\
   Legacy.requestFinished sampleLegacyEnv (Legacy.cancel t) 0
     = Legacy.cancel t /\
   ~ In 9 (map fst (Legacy.netReplies t)) /\
   Legacy.requestFinished sampleLegacyEnv t 9 = t).
Proof.
  intros s t.
  assert (Hs : ~ In 9 (map fst (netReplies s)))
    by (simpl; intros [H|[H|H]]; [discriminate | discriminate | exact H]).
  assert (Ht : ~ In 9 (map fst (Legacy.netReplies t)))
    by (simpl; intros [H|[H|H]]; [discriminate | discriminate | exact H]).
  destruct (finished_request_ignores_events sampleEnv sampleLegacyEnv
              (cancel s) (Legacy.cancel t) 3)
    as ((_ & _ & _ & C4 & _) & _).
  destruct (finished_request_ignores_events sampleEnv sampleLegacyEnv
              (cancel s) (Legacy.cancel t) 0)
    as (_ & (_ & _ & D3 & _)).
  destruct (finished_request_ignores_events sampleEnv sampleLegacyEnv
              s t 9)
    as ((A1 & _ & _ & _ & A5) & (B1 & _ & _ & B4)).
  split.
  - split; [exact A1|].
    split; [exact (proj1 (C4 A1))|].
    split; [exact (proj2 (C4 A1))|].
    split; [exact Hs | exact (A5 Hs)].
  - split; [exact B1|].
    split; [exact (proj2 (D3 B1))|].
    split; [exact Ht | exact (B4 Ht)].
Defined.

(** ** Failures *)

Lemma handleReply_failure_hasAnyData (E : Env) (s0 : ArticleRequest)
                                     (r : Reply) (msg : QString) :
  failure E r = Some msg ->
  hasAnyData (fst (handleReply E s0 r)) = hasAnyData s0.
Proof.
  unfold failure, handleReply. intros Hfail.
  destruct (outcome E r) as [e|es el ec| | |a]; try discriminate.
  - destruct (replyHandled_queued
                (with_base (setErrorString e (base s0)) s0) r false)
      as (fresh & (_ & _ & _ & _ & H5) & _ & _). exact H5.
  - destruct (replyHandled_queued
                (with_base (setErrorString (xmlParseError E es el ec)
                                           (base s0)) s0) r false)
      as (fresh & (_ & _ & _ & _ & H5) & _ & _). exact H5.
Qed.



(** ** Queries sent on construction *)




(** ** The rewrite pipeline *)

Section Passes.
Import Rewrite.

Lemma search_None (r : regex) (s : QString) :
  forall pos pos', search r s pos = None -> search r s pos' = None.
Proof.
  induction s as [|c s IH]; intros pos pos'; simpl;
    destruct (matchAt r _); try discriminate; auto.
  apply IH.
Qed.

Lemma search_None_head (r : regex) (s : QString) (pos : nat) :
  search r s pos = None -> matchAt r s = None.
Proof.
  destruct s; simpl; destruct (matchAt r _); auto; discriminate.
Qed.

Lemma search_None_tail (r : regex) (c : QChar) (s : QString) (pos : nat) :
  search r (c :: s) pos = None -> search r s 0 = None.
Proof.
  simpl. destruct (matchAt r (c :: s)); [discriminate|].
  apply search_None.
Qed.

(** A pass over a text in which the pattern matches nowhere. *)
Lemma rewriteFrom_no_match (r : regex) (f : QString -> Caps -> QString)
                           (s : QString) :
  search r s 0 = None -> rewriteFrom r f 0 s = s.
Proof.
  induction s as [|c s IH]; intros H; [reflexivity|].
  simpl. rewrite (search_None_head _ _ _ H).
  now rewrite (IH (search_None_tail _ _ _ _ H)).
Qed.

Lemma occurs_false (r : regex) (s : QString) :
  occurs r s = false -> search r s 0 = None.
Proof. unfold occurs. destruct (search r s 0); [discriminate|auto]. Qed.

Lemma indexIn_no_match (r : regex) (s : QString) :
  occurs r s = false -> indexIn r s 0 = None.
Proof.
  intros H. unfold indexIn. simpl. now rewrite (occurs_false _ _ H).
Qed.

Lemma replaceRx_no_match (r : regex) (n : nat) (after s : QString) :
  occurs r s = false -> replaceRx r n after s = s.
Proof. intros H. apply rewriteFrom_no_match. now apply occurs_false. Qed.

Lemma Qt4x5_replace_no_match (r : regex) (n : nat) (after s : QString) :
  occurs r s = false -> Qt4x5_Regex_replace r n after s = s.
Proof. apply replaceRx_no_match. Qed.

Lemma findFrom_None (needle s : QString) :
  forall pos pos', findFrom needle s pos = None ->
                   findFrom needle s pos' = None.
Proof.
  induction s as [|c s IH]; intros pos pos'; simpl;
    destruct (startsWith needle _); try discriminate; auto.
  apply IH.
Qed.

Lemma replace_no_match (before after s : QString) :
  contains before s = false -> replace before after s = s.
Proof.
  unfold contains, replace.
  induction s as [|c s IH]; intros H; [reflexivity|].
  simpl in *. destruct (startsWith before (c :: s)); [discriminate|].
  rewrite IH; [reflexivity|].
  destruct (findFrom before s 1) eqn:H1; [discriminate|].
  now rewrite (findFrom_None _ _ 1 0 H1).
Qed.


(** The same failure in the first stage: a link whose path holds two
    number signs is rewritten by each of two passes. *)
Example link_normalization_rewrites_twice :
  pass (linkNormalization sampleConfig) (qs "<a href=`/a#b#c`>")
    = Some (qs "<a href=`/a?gdanchor=b#c`>") /\
  pass (linkNormalization sampleConfig) (qs "<a href=`/a?gdanchor=b#c`>")
    = Some (qs "<a href=`/a?gdanchor=b?gdanchor=c`>").
Proof. split; reflexivity. Qed.



End Passes.

(* ================================================================== *)
(** * Part IV: further properties of the code                         *)
(* ================================================================== *)

Import Words Invariants Events Languages Revisions Traffic.
Import Folding Urls Heads.

(** ** Texts, patterns and the first stage of the pipeline *)

Lemma In_firstn {A} (x : A) (n : nat) (l : list A) :
  In x (firstn n l) -> In x l.
Proof.
  intros H. rewrite <- (firstn_skipn n l). apply in_or_app. now left.
Qed.

Lemma In_skipn {A} (x : A) (n : nat) (l : list A) :
  In x (skipn n l) -> In x l.
Proof.
  intros H. rewrite <- (firstn_skipn n l). apply in_or_app. now right.
Qed.

Lemma startsWith_app (n s : QString) :
  startsWith n s = true <-> exists post, s = n ++ post.
Proof.
  revert s. induction n as [|x n IH]; intros s; simpl.
  - split; [intros _; now exists s | reflexivity].
  - destruct s as [|y s].
    + split; [discriminate | intros [post H]; discriminate].
    + rewrite andb_true_iff, N.eqb_eq, IH. split.
      * intros [-> [post ->]]. now exists post.
      * intros [post H]. inversion H. split; [reflexivity | now exists post].
Qed.

Lemma findFrom_Some (needle s : QString) :
  forall pos p, findFrom needle s pos = Some p ->
  exists a b, s = a ++ needle ++ b /\ p = pos + length a.
Proof.
  induction s as [|c s IH]; intros pos p H; simpl in H.
  - destruct (startsWith needle []) eqn:Hs; [|discriminate].
    inversion H; subst. apply startsWith_app in Hs as [post Hs].
    exists [], post. simpl. split; [exact Hs | lia].
  - destruct (startsWith needle (c :: s)) eqn:Hs.
    + inversion H; subst. apply startsWith_app in Hs as [post Hs].
      exists [], post. simpl. split; [exact Hs | lia].
    + apply IH in H as (a & b & -> & ->).
      exists (c :: a), b. simpl. split; [reflexivity | lia].
Qed.

(** The first occurrence of a character. *)
Lemma findFrom_char (c : QChar) (s : QString) :
  forall pos p, findFrom [c] s pos = Some p ->
  exists a b, s = a ++ c :: b /\ ~ In c a /\ p = pos + length a.
Proof.
  induction s as [|x s IH]; intros pos p H; simpl in H; [discriminate|].
  destruct (N.eqb c x) eqn:Hx; simpl in H.
  - inversion H; subst. apply N.eqb_eq in Hx. subst x.
    exists [], s. simpl. split; [reflexivity|]. split; [tauto | lia].
  - apply IH in H as (a & b & -> & Hn & ->).
    exists (x :: a), b. simpl. split; [reflexivity|].
    split; [|lia]. intros [E|E]; [|tauto].
    subst x. now rewrite N.eqb_refl in Hx.
Qed.

Lemma findFrom_absent (c : QChar) (rest s : QString) :
  ~ In c s -> forall pos, findFrom (c :: rest) s pos = None.
Proof.
  induction s as [|x s IH]; intros Hn pos; simpl; [reflexivity|].
  destruct (N.eqb c x) eqn:Hx.
  - apply N.eqb_eq in Hx. subst x. exfalso. apply Hn. now left.
  - simpl. apply IH. intros Hin. apply Hn. now right.
Qed.

Lemma findFrom_char_None (c : QChar) (s : QString) :
  forall pos, findFrom [c] s pos = None -> ~ In c s.
Proof.
  induction s as [|x s IH]; intros pos H; simpl in *; [tauto|].
  destruct (N.eqb c x) eqn:Hx; simpl in H; [discriminate|].
  intros [E|E].
  - subst x. now rewrite N.eqb_refl in Hx.
  - exact (IH _ H E).
Qed.

Lemma indexOf_absent (c : QChar) (rest s : QString) (from : nat) :
  ~ In c s -> indexOf s (c :: rest) from = (-1)%Z.
Proof.
  intros Hn. unfold indexOf. destruct (length s <? from); [reflexivity|].
  rewrite findFrom_absent; [reflexivity|].
  intros Hin. apply Hn. rewrite <- (firstn_skipn from s).
  apply in_or_app. now right.
Qed.

Lemma indexOf_range (s needle : QString) (from : nat) :
  (indexOf s needle from = -1 \/
   Z.of_nat from <= indexOf s needle from
     <= Z.of_nat (length s) - Z.of_nat (length needle))%Z.
Proof.
  unfold indexOf. destruct (length s <? from) eqn:Hl; [now left|].
  apply Nat.ltb_ge in Hl.
  destruct (findFrom needle (skipn from s) from) as [p|] eqn:Hf; [|now left].
  right. apply findFrom_Some in Hf as (a & b & Hs & ->).
  assert (Hlen : length (skipn from s) = length a + (length needle + length b))
    by (rewrite Hs, !length_app; reflexivity).
  rewrite length_skipn in Hlen. lia.
Qed.

(** The position [indexOf] returns for a character. *)
Lemma indexOf_char (c : QChar) (s : QString) (from : nat) (n : Z) :
  indexOf s [c] from = n -> (0 <= n)%Z ->
  exists a b, s = a ++ c :: b /\ Z.of_nat (length a) = n /\
              from <= length a /\ ~ In c (skipn from a).
Proof.
  unfold indexOf. intros H Hn.
  destruct (length s <? from) eqn:Hl; [lia|]. apply Nat.ltb_ge in Hl.
  destruct (findFrom [c] (skipn from s) from) as [p|] eqn:Hf; [|lia].
  apply findFrom_char in Hf as (a & b & Hs & Hnot & ->).
  exists (firstn from s ++ a), b.
  rewrite <- app_assoc, <- Hs, firstn_skipn.
  rewrite length_app, length_firstn, Nat.min_l by exact Hl.
  split; [reflexivity|]. split; [lia|]. split; [lia|].
  rewrite skipn_app, length_firstn, Nat.min_l by exact Hl.
  rewrite Nat.sub_diag. simpl.
  rewrite skipn_all2; [exact Hnot|].
  rewrite length_firstn. lia.
Qed.

(** ** The matcher against the words of a pattern *)

Lemma mt_sound (r : regex) :
  nocap r = true ->
  forall s cs k m, mt r s cs k = Some m ->
  exists u s', s = u ++ s' /\ Lang r u /\ k s' cs = Some m.
Proof.
  induction r as [|p|a IHa b IHb|g a IHa|a IHa|n a IHa];
    intros Hnc s cs k m H; simpl in *.
  - exists [], s. split; [reflexivity|]. split; [constructor | exact H].
  - destruct s as [|c s']; [discriminate|].
    destruct (p c) eqn:Hp; [|discriminate].
    exists [c], s'. split; [reflexivity|].
    split; [now constructor | exact H].
  - apply andb_true_iff in Hnc as [Ha Hb].
    apply (IHa Ha) in H as (u & s1 & -> & Hu & H).
    apply (IHb Hb) in H as (v & s2 & -> & Hv & H).
    exists (u ++ v), s2. rewrite app_assoc. split; [reflexivity|].
    split; [now constructor | exact H].
  - revert H. generalize (length s) at 1. intros fuel. revert s cs m.
    induction fuel as [|fuel IHf]; intros s cs m H.
    + exists [], s. split; [reflexivity|]. split; [constructor | exact H].
    + match type of H with
      | (if _ then match ?more with _ => _ end else _) = _ =>
          destruct more as [m0|] eqn:Hmore
      end.
      * assert (Hm : exists u s', s = u ++ s' /\ Lang (Rep g a) u
                                  /\ k s' cs = Some m0).
        { apply (IHa Hnc) in Hmore as (u & s1 & -> & Hu & Hk).
          destruct (length s1 <? length (u ++ s1)); [|discriminate].
          apply IHf in Hk as (v & s2 & -> & Hv & Hk).
          exists (u ++ v), s2. rewrite app_assoc. split; [reflexivity|].
          split; [now constructor | exact Hk]. }
        destruct g.
        -- inversion H; subst. exact Hm.
        -- destruct (k s cs) eqn:Hk0.
           ++ exists [], s. split; [reflexivity|].
              split; [constructor | congruence].
           ++ inversion H; subst. exact Hm.
      * exists [], s. split; [reflexivity|]. split; [constructor|].
        destruct g; [exact H|]. destruct (k s cs); [exact H | discriminate].
  - destruct (mt a s cs k) eqn:Hm.
    + inversion H; subst. apply (IHa Hnc) in Hm as (u & s1 & -> & Hu & Hk).
      exists u, s1. split; [reflexivity|]. split; [now constructor | exact Hk].
    + exists [], s. split; [reflexivity|]. split; [constructor | exact H].
  - discriminate.
Qed.

Lemma Lang_lit (L u : QString) : Lang (lit L) u -> u = L.
Proof.
  unfold lit. revert u. induction L as [|c L IH]; intros u H.
  - inversion H. reflexivity.
  - destruct L as [|c' L].
    + simpl in H. inversion H; subst.
      match goal with Hc : N.eqb _ _ = true |- _ =>
        apply N.eqb_eq in Hc; now subst end.
    + change (seq (map chr (c :: c' :: L)))
        with (Cat (chr c) (seq (map chr (c' :: L)))) in H.
      inversion H; subst.
      match goal with Hc : Lang (chr c) _ |- _ => inversion Hc; subst end.
      match goal with Hc : N.eqb _ _ = true |- _ =>
        apply N.eqb_eq in Hc; subst end.
      simpl. f_equal. now apply IH.
Qed.

Lemma Lang_star_Cls (g : bool) (p : QChar -> bool) (u : QString) :
  Lang (Rep g (Cls p)) u -> Forall (fun c => p c = true) u.
Proof.
  intros H. remember (Rep g (Cls p)) as r eqn:Hr.
  induction H; try discriminate.
  - constructor.
  - inversion Hr; subst.
    match goal with Hc : Lang (Cls p) _ |- _ => inversion Hc; subst end.
    simpl. constructor; [assumption | now apply IHLang2].
Qed.

Lemma Lang_plus_Cls (p : QChar -> bool) (u : QString) :
  Lang (plus (Cls p)) u ->
  exists c v, u = c :: v /\ Forall (fun c => p c = true) (c :: v).
Proof.
  unfold plus. intros H. inversion H; subst.
  match goal with Hc : Lang (Cls p) _ |- _ => inversion Hc; subst end.
  match goal with Hc : Lang (Rep _ _) _ |- _ =>
    apply Lang_star_Cls in Hc end.
  eexists _, _. split; [reflexivity|]. now constructor.
Qed.

Lemma matchAt_sound (r : regex) (s rest : QString) (cs : Caps) :
  nocap r = true -> matchAt r s = Some (rest, cs) ->
  exists u, s = u ++ rest /\ Lang r u /\ cs = [].
Proof.
  intros Hnc H. unfold matchAt in H.
  apply (mt_sound r Hnc) in H as (u & s' & -> & Hu & Hk).
  inversion Hk; subst. now exists u.
Qed.

Lemma search_Some (r : regex) (s : QString) :
  forall pos p m, search r s pos = Some (p, m) ->
  exists a, p = pos + length a /\ a = firstn (length a) s /\
            length a <= length s /\
            matchAt r (skipn (length a) s) = Some m.
Proof.
  induction s as [|c s IH]; intros pos p m H; simpl in H.
  - destruct (matchAt r []) eqn:Hm; [|discriminate].
    inversion H; subst. exists []. simpl. repeat split; auto; lia.
  - destruct (matchAt r (c :: s)) eqn:Hm.
    + inversion H; subst. exists []. simpl. repeat split; auto; lia.
    + apply IH in H as (a & -> & Ha & Hl & Hm').
      exists (c :: a). simpl. rewrite <- Ha.
      repeat split; auto; lia.
Qed.

Lemma indexIn_Some (r : regex) (s : QString) (from p len : nat) (cs : Caps) :
  indexIn r s from = Some (p, len, cs) ->
  from <= p /\ p <= length s /\
  exists rest, matchAt r (skipn p s) = Some (rest, cs) /\
               len = length s - p - length rest.
Proof.
  unfold indexIn. destruct (length s <? from) eqn:Hl; [discriminate|].
  apply Nat.ltb_ge in Hl.
  destruct (search r (skipn from s) from) as [[q [rest cs']]|] eqn:Hs;
    [|discriminate].
  intros H. inversion H; subst.
  apply search_Some in Hs as (a & -> & _ & Hla & Hm).
  rewrite length_skipn in Hla. rewrite skipn_skipn in Hm.
  rewrite (Nat.add_comm (length a) from) in Hm.
  split; [lia|]. split; [lia|]. now exists rest.
Qed.

(** What [indexIn] reports for a pattern without groups: the text at
    the position begins with a word of the pattern of the length
    reported. *)
Lemma indexIn_word (r : regex) (s : QString) (from p len : nat) (cs : Caps) :
  nocap r = true ->
  indexIn r s from = Some (p, len, cs) ->
  from <= p /\ p + len <= length s /\
  Lang r (firstn len (skipn p s)).
Proof.
  intros Hnc H. apply indexIn_Some in H as (H1 & H2 & rest & Hm & ->).
  apply (matchAt_sound r _ _ _ Hnc) in Hm as (u & Hu & HL & _).
  assert (Hlen : length s - p = length u + length rest).
  { rewrite <- length_skipn, Hu, length_app. reflexivity. }
  replace (length s - p - length rest) with (length u) by lia.
  split; [exact H1|]. split; [lia|].
  rewrite Hu, firstn_app, Nat.sub_diag, firstn_all. simpl.
  now rewrite app_nil_r.
Qed.

(** ** [RootBasedUrlFixer] *)

Section RootBasedUrlFixer.
Import Rewrite.
Variable C : Config.

Lemma nocap_lit (L : QString) : nocap (lit L) = true.
Proof.
  unfold lit. induction L as [|c [|c' L] IH]; try reflexivity.
  change (seq (map chr (c :: c' :: L)))
    with (Cat (chr c) (seq (map chr (c' :: L)))).
  simpl nocap. exact IH.
Qed.

Lemma nocap_linkPrefix : nocap (linkPrefix C) = true.
Proof.
  unfold linkPrefix. cbn [seq nocap plus]. rewrite !nocap_lit. reflexivity.
Qed.

Lemma linkPrefix_word (u : QString) :
  Lang (linkPrefix C) u -> 1 <= length u.
Proof.
  unfold linkPrefix. cbn [seq]. intros H. inversion H; subst.
  match goal with Hc : Lang (lit _) _ |- _ => apply Lang_lit in Hc; subst end.
  rewrite length_app. simpl. lia.
Qed.

Lemma linkPrefix_indexIn (article : QString) (pos p len : nat) (cs : Caps) :
  indexIn (linkPrefix C) article pos = Some (p, len, cs) ->
  pos <= p /\ 1 <= len /\ p + len <= length article.
Proof.
  intros H. apply (indexIn_word _ _ _ _ _ _ nocap_linkPrefix) in H
    as (H1 & H2 & HL).
  apply linkPrefix_word in HL.
  rewrite length_firstn, length_skipn in HL. lia.
Qed.

(** The loop of [fixedArticle] leaves after at most as many rounds as
    there are characters from [pos] on: every round moves [pos] past a
    link prefix. *)
Lemma fixedArticle_loop_total (article : QString) :
  forall fuel pos result,
    pos <= length article -> length article - pos < fuel ->
    exists pos' out,
      fixedArticle_loop C fuel article pos result = Some (pos', out) /\
      pos <= pos' <= length article.
Proof.
  induction fuel as [|fuel IH]; intros pos result Hpos Hfuel; [lia|].
  cbn [fixedArticle_loop].
  destruct (indexIn (linkPrefix C) article pos) as [[[p len] cs]|] eqn:Hi.
  - apply linkPrefix_indexIn in Hi as (H1 & H2 & H3).
    cbv zeta.
    destruct (indexOf article [dq] (p + len) <? 0)%Z eqn:Hq.
    + eexists _, _. split; [reflexivity | lia].
    + apply Z.ltb_ge in Hq.
      destruct (indexOf_range article [dq] (p + len)) as [Hr|Hr]; [lia|].
      simpl length in Hr.
      destruct (IH (Z.to_nat (indexOf article [dq] (p + len)))
                   (result ++ firstn (p + len - pos) (skipn pos article)
                      ++ fixUrl (mid article (Z.of_nat (p + len))
                                   (indexOf article [dq] (p + len)
                                    - Z.of_nat (p + len)))))
        as (pos' & out & Hout & Hle); [lia | lia |].
      rewrite <- app_assoc. exists pos', out. split; [exact Hout | lia].
  - eexists _, _. split; [reflexivity | lia].
Qed.

(** X1.  [fixedArticle] returns for every article: its loop ends. *)
Theorem fixedArticle_returns (article : QString) :
  exists out, fixedArticle C article = Some out.
Proof.
  unfold fixedArticle.
  destruct (fixedArticle_loop_total article (S (length article)) 0 [])
    as (pos' & out & -> & _); [lia | lia |].
  destruct (pos' =? 0); eauto.
Qed.

Lemma replaceChar_absent (before : QChar) (after s : QString) :
  ~ In before s -> replaceChar before after s = s.
Proof.
  induction s as [|c s IH]; intros Hn; simpl; [reflexivity|].
  destruct (N.eqb c before) eqn:Hc.
  - apply N.eqb_eq in Hc. subst c. exfalso. apply Hn. now left.
  - simpl. f_equal. apply IH. intros Hin. apply Hn. now right.
Qed.

Lemma replaceChar_In (before x : QChar) (after s : QString) :
  In x (replaceChar before after s) ->
  (In x s /\ x <> before) \/ In x after.
Proof.
  induction s as [|c s IH]; simpl; [tauto|].
  intros H. apply in_app_or in H as [H|H].
  - destruct (N.eqb c before) eqn:Hc; [now right|].
    destruct H as [->|[]]. left. split; [now left|].
    intros ->. now rewrite N.eqb_refl in Hc.
  - destruct (IH H) as [[H1 H2]|H1]; [left; split; auto | now right].
Qed.

Lemma replaceChar_app (before : QChar) (after a b : QString) :
  replaceChar before after (a ++ b)
    = replaceChar before after a ++ replaceChar before after b.
Proof.
  induction a as [|c a IH]; simpl; [reflexivity|].
  now rewrite IH, app_assoc.
Qed.

Lemma mid_inside (s : QString) (position n : nat) :
  position + n <= length s ->
  mid s (Z.of_nat position) (Z.of_nat n) = firstn n (skipn position s).
Proof.
  intros H. unfold mid.
  destruct (Z.of_nat position >? Z.of_nat (length s))%Z eqn:H1.
  { apply Z.gtb_lt in H1. lia. }
  destruct (Z.of_nat position <? 0)%Z eqn:H2.
  { apply Z.ltb_lt in H2. lia. }
  destruct (Z.of_nat n <? 0)%Z eqn:H3.
  { apply Z.ltb_lt in H3. lia. }
  destruct (Z.of_nat n >? Z.of_nat (length s) - Z.of_nat position)%Z eqn:H4.
  { apply Z.gtb_lt in H4. lia. }
  simpl. now rewrite !Nat2Z.id.
Qed.

Lemma mid_rest (s : QString) (position : nat) :
  mid s (Z.of_nat position) (-1) = skipn position s.
Proof.
  unfold mid.
  destruct (Z.of_nat position >? Z.of_nat (length s))%Z eqn:H1.
  - apply Z.gtb_lt in H1. rewrite skipn_all2; [reflexivity | lia].
  - destruct (Z.of_nat position <? 0)%Z eqn:H2.
    { apply Z.ltb_lt in H2. lia. }
    simpl. now rewrite Nat2Z.id.
Qed.

(** [fixUrl] has nothing to do on a url without colon and number sign. *)
Lemma fixUrl_plain (url : QString) :
  ~ In (qc ":") url -> ~ In (qc "#") url -> fixUrl url = url.
Proof.
  intros Hc Hh. unfold fixUrl.
  change (qs "://") with (qc ":" :: qs "//").
  rewrite (indexOf_absent _ _ _ 0 Hc).
  rewrite (indexOf_absent _ [] _ 0 Hc).
  change (-1 >=? 0)%Z with false. cbv iota zeta.
  rewrite (indexOf_absent _ [] _ 1 Hh). reflexivity.
Qed.

Lemma firstn_step {A} (l : list A) (a b : nat) :
  a <= b -> firstn a l ++ firstn (b - a) (skipn a l) = firstn b l.
Proof.
  intros H. rewrite <- (firstn_skipn a l) at 3.
  rewrite firstn_app, length_firstn.
  destruct (Nat.le_gt_cases a (length l)) as [Hl|Hl].
  - rewrite Nat.min_l by exact Hl.
    rewrite (firstn_all2 (n := b)) by (rewrite length_firstn; lia).
    reflexivity.
  - rewrite !skipn_all2 by lia. rewrite !firstn_nil, !app_nil_r.
    rewrite firstn_firstn. f_equal. lia.
Qed.

Lemma fixedArticle_loop_plain (article : QString) :
  ~ In (qc ":") article -> ~ In (qc "#") article ->
  forall fuel pos result pos' out,
    result = firstn pos article ->
    fixedArticle_loop C fuel article pos result = Some (pos', out) ->
    out = firstn pos' article.
Proof.
  intros Hc Hh.
  induction fuel as [|fuel IH]; intros pos result pos' out Hres H;
    [discriminate|].
  cbn [fixedArticle_loop] in H.
  destruct (indexIn (linkPrefix C) article pos) as [[[p len] cs]|] eqn:Hi.
  - apply linkPrefix_indexIn in Hi as (H1 & H2 & H3).
    cbv zeta in H.
    assert (Hstep : result ++ firstn (p + len - pos) (skipn pos article)
                    = firstn (p + len) article).
    { rewrite Hres. apply firstn_step. lia. }
    rewrite Hstep in H.
    destruct (indexOf article [dq] (p + len) <? 0)%Z eqn:Hq.
    + now inversion H.
    + apply Z.ltb_ge in Hq.
      destruct (indexOf_range article [dq] (p + len)) as [Hr|Hr]; [lia|].
      simpl length in Hr.
      set (q := Z.to_nat (indexOf article [dq] (p + len))) in *.
      assert (Hq' : indexOf article [dq] (p + len) = Z.of_nat q)
        by (unfold q; lia).
      rewrite Hq' in H.
      replace (Z.of_nat q - Z.of_nat (p + len))%Z
        with (Z.of_nat (q - (p + len))) in H by lia.
      rewrite mid_inside in H by lia.
      rewrite fixUrl_plain in H.
      * assert (Hle : p + len <= q) by lia.
        apply (IH _ _ _ _ (firstn_step article (p + len) q Hle) H).
      * intros Hin. apply Hc. apply In_firstn, In_skipn in Hin. exact Hin.
      * intros Hin. apply Hh. apply In_firstn, In_skipn in Hin. exact Hin.
  - inversion H; subst. reflexivity.
Qed.

(** X2.  An article without colon and without number sign comes out of
    [fixedArticle] as it went in, whatever links it holds. *)
Theorem fixedArticle_plain_article (article : QString) :
  ~ In (qc ":") article -> ~ In (qc "#") article ->
  fixedArticle C article = Some article.
Proof.
  intros Hc Hh. unfold fixedArticle.
  destruct (fixedArticle_loop_total article (S (length article)) 0 [])
    as (pos' & out & Hloop & _); [lia | lia |].
  rewrite Hloop.
  rewrite (fixedArticle_loop_plain article Hc Hh _ _ _ _ _ eq_refl Hloop).
  destruct (pos' =? 0); [reflexivity|]. now rewrite firstn_skipn.
Qed.

End RootBasedUrlFixer.

Lemma absent_by_test (x : QChar) (l : QString) :
  forallb (fun c => negb (N.eqb c x)) l = true -> ~ In x l.
Proof.
  intros H Hin. rewrite forallb_forall in H. specialize (H x Hin).
  now rewrite N.eqb_refl in H.
Qed.

Lemma fixedArticle_plain_article_witness :
  let article :=
    qs "<p><a href=`/wiki/Yoda_(disambiguation)` title=`Yoda`>Yoda</a></p>" in
  ~ In (qc ":") article /\ ~ In (qc "#") article /\
  Rewrite.fixedArticle Rewrite.sampleConfig article = Some article.
Proof.
  intros article.
  assert (Hc : ~ In (qc ":") article) by (apply absent_by_test; reflexivity).
  assert (Hh : ~ In (qc "#") article) by (apply absent_by_test; reflexivity).
  split; [exact Hc|]. split; [exact Hh|].
  exact (fixedArticle_plain_article Rewrite.sampleConfig article Hc Hh).
Defined.

Section FixUrl.
Import Rewrite.

Lemma indexOf_char_neg (c : QChar) (s : QString) :
  (indexOf s [c] 0 < 0)%Z -> ~ In c s.
Proof.
  unfold indexOf. simpl.
  destruct (findFrom [c] s 0) as [p|] eqn:Hf; [lia|].
  intros _. exact (findFrom_char_None c s 0 Hf).
Qed.

Lemma findFrom_char_intro (c : QChar) (a b : QString) :
  ~ In c a -> forall pos, findFrom [c] (a ++ c :: b) pos = Some (pos + length a).
Proof.
  induction a as [|x a IH]; intros Hn pos; simpl.
  - rewrite N.eqb_refl. simpl. f_equal. lia.
  - destruct (N.eqb c x) eqn:Hx.
    + apply N.eqb_eq in Hx. subst x. exfalso. apply Hn. now left.
    + simpl. rewrite IH; [f_equal; lia|].
      intros Hin. apply Hn. now right.
Qed.

Lemma indexOf_char_intro (c : QChar) (a b : QString) (from : nat) :
  from <= length a -> ~ In c (skipn from a) ->
  indexOf (a ++ c :: b) [c] from = Z.of_nat (length a).
Proof.
  intros Hle Hn. unfold indexOf.
  destruct (length (a ++ c :: b) <? from) eqn:Hl.
  { apply Nat.ltb_lt in Hl. rewrite length_app in Hl. lia. }
  rewrite skipn_app.
  replace (from - length a) with 0 by lia. simpl skipn.
  rewrite (findFrom_char_intro c _ b Hn), length_skipn.
  f_equal. lia.
Qed.

Lemma colon_escaped (s : QString) :
  ~ In (qc ":") (replaceChar (qc ":") (qs "%3A") s).
Proof.
  intros H. apply replaceChar_In in H as [[_ H]|H]; [now apply H|].
  simpl in H. intuition discriminate.
Qed.

(** The url after the second step of [fixUrl]. *)
Lemma colons_rewritten (url : QString) :
  (if (indexOf url [qc ":"] 0 >=? 0)%Z
   then replaceChar (qc ":") (qs "%3A") url else url)
  = replaceChar (qc ":") (qs "%3A") url.
Proof.
  destruct (indexOf url [qc ":"] 0 >=? 0)%Z eqn:H; [reflexivity|].
  symmetry. apply replaceChar_absent, indexOf_char_neg.
  rewrite Z.geb_leb in H. apply Z.leb_gt in H. exact H.
Qed.

(** X3.  A url that is not external leaves [fixUrl] without a colon. *)
Theorem fixUrl_leaves_no_colon (url : QString) :
  (indexOf url (qs "://") 0 < 0)%Z -> ~ In (qc ":") (fixUrl url).
Proof.
  intros Hext. unfold fixUrl.
  destruct (indexOf url (qs "://") 0 >=? 0)%Z eqn:He.
  { apply Z.geb_le in He. lia. }
  rewrite colons_rewritten. cbv zeta.
  set (url1 := replaceChar (qc ":") (qs "%3A") url).
  destruct (indexOf url1 [qc "#"] 1 >? 0)%Z eqn:Hn;
    [|apply colon_escaped].
  apply Z.gtb_lt in Hn.
  intros H. apply in_app_or in H as [H|H].
  { apply In_firstn in H. exact (colon_escaped url H). }
  apply in_app_or in H as [H|H].
  { simpl in H. intuition discriminate. }
  apply replaceChar_In in H as [[H _]|H].
  - replace (indexOf url1 [qc "#"] 1 + 1)%Z
      with (Z.of_nat (Z.to_nat (indexOf url1 [qc "#"] 1 + 1))) in H by lia.
    rewrite mid_rest in H. apply In_skipn in H.
    exact (colon_escaped url H).
  - simpl in H. intuition discriminate.
Qed.

Lemma fixUrl_leaves_no_colon_witness :
  (indexOf (qs "File:A_b#c:d_e") (qs "://") 0 < 0)%Z /\
  fixUrl (qs "File:A_b#c:d_e") = qs "File%3AA_b?gdanchor=c%3Ad%5Fe" /\
  ~ In (qc ":") (fixUrl (qs "File:A_b#c:d_e")).
Proof.
  assert (H : (indexOf (qs "File:A_b#c:d_e") (qs "://") 0 < 0)%Z)
    by (vm_compute; reflexivity).
  split; [exact H|]. split; [reflexivity|].
  exact (fixUrl_leaves_no_colon (qs "File:A_b#c:d_e") H).
Defined.

(** X4.  The anchor of a url: when the url is not external and its first
    number sign past the first character stands after [page], [fixUrl]
    puts ?gdanchor= in its place, escapes the colons on both sides and the
    underscores of the anchor. *)
Theorem fixUrl_rewrites_anchor (page anchor : QString) :
  page <> [] -> ~ In (qc "#") (tl page) ->
  (indexOf (page ++ qc "#" :: anchor) (qs "://") 0 < 0)%Z ->
  fixUrl (page ++ qc "#" :: anchor)
  = replaceChar (qc ":") (qs "%3A") page ++ qs "?gdanchor="
    ++ replaceChar (qc "_") (qs "%5F")
         (replaceChar (qc ":") (qs "%3A") anchor).
Proof.
  intros Hpage Htl Hext. unfold fixUrl.
  destruct (indexOf (page ++ qc "#" :: anchor) (qs "://") 0 >=? 0)%Z eqn:He.
  { apply Z.geb_le in He. lia. }
  rewrite colons_rewritten. cbv zeta.
  rewrite replaceChar_app.
  change (replaceChar (qc ":") (qs "%3A") (qc "#" :: anchor))
    with (qc "#" :: replaceChar (qc ":") (qs "%3A") anchor).
  set (page1 := replaceChar (qc ":") (qs "%3A") page).
  set (anchor1 := replaceChar (qc ":") (qs "%3A") anchor).
  assert (Hlen : 1 <= length page1).
  { unfold page1. destruct page as [|c page]; [congruence|]. simpl.
    rewrite length_app. destruct (N.eqb c (qc ":")); simpl; lia. }
  assert (Hno : ~ In (qc "#") (skipn 1 page1)).
  { unfold page1. destruct page as [|c page]; [congruence|]. simpl in Htl.
    simpl replaceChar. intros Hin.
    assert (Hrest : ~ In (qc "#") (replaceChar (qc ":") (qs "%3A") page)).
    { intros H. apply replaceChar_In in H as [[H _]|H]; [now apply Htl|].
      simpl in H. intuition discriminate. }
    destruct (N.eqb c (qc ":")); simpl in Hin.
    - destruct Hin as [Hin|[Hin|Hin]]; try discriminate. now apply Hrest.
    - now apply Hrest. }
  rewrite (indexOf_char_intro (qc "#") page1 anchor1 1 Hlen Hno).
  destruct (Z.of_nat (length page1) >? 0)%Z eqn:Hpos.
  2:{ rewrite Z.gtb_ltb in Hpos. apply Z.ltb_ge in Hpos. lia. }
  rewrite Nat2Z.id, firstn_app, firstn_all, Nat.sub_diag. simpl firstn.
  rewrite app_nil_r.
  replace (Z.of_nat (length page1) + 1)%Z
    with (Z.of_nat (S (length page1))) by lia.
  rewrite mid_rest.
  replace (S (length page1)) with (length (page1 ++ [qc "#"]))
    by (rewrite length_app; simpl; lia).
  change (page1 ++ qc "#" :: anchor1) with (page1 ++ [qc "#"] ++ anchor1).
  rewrite (app_assoc page1 [qc "#"] anchor1).
  rewrite skipn_app, skipn_all, Nat.sub_diag. reflexivity.
Qed.

Lemma fixUrl_rewrites_anchor_witness :
  qs "Help:Contents" <> [] /\
  ~ In (qc "#") (tl (qs "Help:Contents")) /\
  (indexOf (qs "Help:Contents#See_also") (qs "://") 0 < 0)%Z /\
  fixUrl (qs "Help:Contents#See_also")
    = qs "Help%3AContents?gdanchor=See%5Falso".
Proof.
  assert (H1 : qs "Help:Contents" <> []) by discriminate.
  assert (H2 : ~ In (qc "#") (tl (qs "Help:Contents")))
    by (simpl; intuition discriminate).
  assert (H3 : (indexOf (qs "Help:Contents" ++ qc "#" :: qs "See_also")
                        (qs "://") 0 < 0)%Z) by (vm_compute; reflexivity).
  split; [exact H1|]. split; [exact H2|]. split; [exact H3|].
  exact (fixUrl_rewrites_anchor (qs "Help:Contents") (qs "See_also")
           H1 H2 H3).
Defined.

End FixUrl.

(** ** Passes that rewrite matches in place *)

Lemma rewriteFrom_skip (r : regex) (f : QString -> Caps -> QString)
                       (s : QString) :
  forall k, rewriteFrom r f k s = rewriteFrom r f 0 (skipn k s).
Proof.
  induction s as [|c s IH]; intros [|k]; try reflexivity.
  simpl skipn. rewrite <- IH. reflexivity.
Qed.

Lemma rewriteFrom_pointwise (R : QChar -> QChar -> Prop) (r : regex)
                            (f : QString -> Caps -> QString) :
  (forall c, R c c) ->
  (forall m cs, Forall2 R m (f m cs)) ->
  forall s, Forall2 R s (rewriteFrom r f 0 s).
Proof.
  intros Hrefl Hf s.
  remember (length s) as n eqn:Hn.
  assert (Hle : length s <= n) by lia. clear Hn. revert s Hle.
  induction n as [|n IH]; intros [|c s] Hle; simpl in Hle;
    try constructor; try lia.
  - cbn [rewriteFrom].
    destruct (matchAt r (c :: s)) as [[rest cs]|].
    + cbv zeta.
      destruct (length (c :: s) - length rest) as [|k] eqn:Hlen.
      * simpl firstn. pose proof (Hf [] cs) as H0. inversion H0.
        simpl. constructor; [apply Hrefl | apply IH; lia].
      * rewrite rewriteFrom_skip.
        rewrite <- (firstn_skipn (S k) (c :: s)) at 1.
        apply Forall2_app; [apply Hf|].
        simpl skipn. apply IH. rewrite length_skipn. lia.
    + constructor; [apply Hrefl | apply IH; lia].
Qed.

Section Underscores.
Import Rewrite.

(** X5.  [underscoresToSpacesInLinks] works in place: the text keeps its
    length, and every character stays what it was, but for underscores,
    which may have become spaces. *)
Theorem underscoresToSpacesInLinks_in_place (C : Config) (s : QString) :
  Forall2 (fun before after =>
             after = before \/ (before = qc "_" /\ after = qc " "))
          s (underscoresToSpacesInLinks C s).
Proof.
  unfold underscoresToSpacesInLinks. apply rewriteFrom_pointwise.
  - intros c. now left.
  - intros m _. induction m as [|c m IH]; simpl; constructor; [|exact IH].
    unfold underscoreToSpace. destruct (N.eqb c (qc "_")) eqn:Hc.
    + right. apply N.eqb_eq in Hc. now split.
    + now left.
Qed.

End Underscores.

(** ** [findWikiLink] *)

Lemma mt_Cat (a b : regex) (s : QString) (cs : Caps)
             (k : QString -> Caps -> option Match) :
  mt (Cat a b) s cs k = mt a s cs (fun s' cs' => mt b s' cs' k).
Proof. reflexivity. Qed.

Lemma mt_Cap (n : nat) (a : regex) (s : QString) (cs : Caps)
             (k : QString -> Caps -> option Match) :
  mt (Cap n a) s cs k
  = mt a s cs
       (fun s' cs' => k s' ((n, firstn (length s - length s') s) :: cs')).
Proof. reflexivity. Qed.

Lemma notIn_word (l u : QString) :
  Lang (plus (notIn l)) u ->
  u <> [] /\ forall c, In c l -> ~ In c u.
Proof.
  unfold notIn. intros H.
  apply Lang_plus_Cls in H as (c & v & -> & HF).
  split; [discriminate|]. intros x Hx Hin.
  rewrite Forall_forall in HF. specialize (HF x Hin).
  apply negb_true_iff in HF.
  assert (Ht : existsb (N.eqb x) l = true).
  { apply existsb_exists. exists x. split; [exact Hx | apply N.eqb_refl]. }
  congruence.
Qed.

(** What a text that [linkPattern] matches in full looks like. *)
Lemma exactMatch_linkPattern (fore : QString) (cs : Caps) :
  exactMatch linkPattern fore = Some cs ->
  exists tail,
    fore = qs "<a href=`/wiki/" ++ cap 1 cs ++ qc "`" :: tail /\
    cap 1 cs <> [] /\ ~ In (qc "`") (cap 1 cs).
Proof.
  unfold exactMatch, linkPattern. cbn [seq].
  set (kf := fun (s' : QString) (cs0 : Caps) =>
               if isEmpty s' then Some (s', cs0) else None).
  match goal with
  | |- match ?e with _ => _ end = _ -> _ =>
      destruct e as [[rest cs']|] eqn:Hm; [|discriminate]
  end.
  intros H. inversion H; subst cs'. clear H.
  rewrite mt_Cat in Hm.
  apply (mt_sound _ (nocap_lit _)) in Hm as (u & s1 & -> & Hu & Hm).
  apply Lang_lit in Hu. subst u.
  rewrite mt_Cat, mt_Cap in Hm.
  apply (mt_sound (plus (notIn (qs "`"))) eq_refl) in Hm
    as (w & s2 & -> & Hw & Hm).
  rewrite length_app, Nat.add_sub, firstn_app, Nat.sub_diag, firstn_all in Hm.
  simpl firstn in Hm. rewrite app_nil_r in Hm.
  apply (mt_sound (Cat (chr (qc "`")) (star anyChar)) eq_refl) in Hm
    as (v & s3 & -> & Hv & Hk).
  unfold kf in Hk. destruct s3; [|discriminate]. inversion Hk; subst.
  simpl cap.
  inversion Hv; subst.
  match goal with Hc : Lang (chr _) _ |- _ => inversion Hc; subst end.
  match goal with Hc : N.eqb _ _ = true |- _ =>
    apply N.eqb_eq in Hc; subst end.
  apply notIn_word in Hw as [Hne Hq].
  eexists. rewrite app_nil_r. split; [reflexivity|].
  split; [exact Hne|]. apply Hq. now left.
Qed.

Lemma lastIndexFrom_spec (r : regex) (s : QString) :
  forall from,
  (lastIndexFrom r s from = (-1)%Z /\
   forall q, q <= from -> matchAt r (skipn q s) = None) \/
  (exists p, lastIndexFrom r s from = Z.of_nat p /\ p <= from /\
             matchAt r (skipn p s) <> None /\
             forall q, p < q <= from -> matchAt r (skipn q s) = None).
Proof.
  induction from as [|from IH]; cbn [lastIndexFrom];
    [destruct (matchAt r (skipn 0 s)) eqn:Hm
    |destruct (matchAt r (skipn (S from) s)) eqn:Hm].
  - right. exists 0. rewrite Hm.
    split; [reflexivity|]. split; [lia|]. split; [discriminate|].
    intros q Hq. lia.
  - left. split; [reflexivity|]. intros q Hq.
    replace q with 0 by lia. exact Hm.
  - right. exists (S from). rewrite Hm.
    split; [reflexivity|]. split; [lia|]. split; [discriminate|].
    intros q Hq. lia.
  - destruct IH as [[H1 H2]|(p & H1 & H2 & H3 & H4)].
    + left. split; [exact H1|]. intros q Hq.
      destruct (Nat.eq_dec q (S from)) as [->|Hne]; [exact Hm|].
      apply H2. lia.
    + right. exists p. split; [exact H1|]. split; [lia|].
      split; [exact H3|]. intros q Hq.
      destruct (Nat.eq_dec q (S from)) as [->|Hne]; [exact Hm|].
      apply H4. lia.
Qed.

Lemma angleBracket_None (c : QChar) (t : QString) :
  matchAt angleBracket (c :: t) = None -> c <> qc "<" /\ c <> qc ">".
Proof.
  unfold matchAt, angleBracket. cbn [mt].
  destruct (N.eqb c (qc "<")) eqn:H1; [discriminate|].
  destruct (N.eqb c (qc ">")) eqn:H2; [discriminate|].
  intros _. apply N.eqb_neq in H1, H2. split; assumption.
Qed.

(** A stretch of text at none of whose positions a bracket stands. *)
Lemma no_bracket_stretch (s : QString) :
  forall stretch pre post,
    s = pre ++ stretch ++ post ->
    (forall q, length pre <= q < length pre + length stretch ->
               matchAt angleBracket (skipn q s) = None) ->
    Forall (fun c => c <> qc "<" /\ c <> qc ">") stretch.
Proof.
  induction stretch as [|c stretch IH]; intros pre post Hs Hq;
    constructor.
  - specialize (Hq (length pre)). simpl in Hq.
    rewrite Hs, skipn_app, skipn_all, Nat.sub_diag in Hq. simpl in Hq.
    apply (angleBracket_None c (stretch ++ post)). apply Hq. lia.
  - apply (IH (pre ++ [c]) post).
    + rewrite Hs, <- app_assoc. reflexivity.
    + intros q Hr. apply Hq. rewrite length_app in Hr. simpl in *. lia.
Qed.

Lemma mid_before (s : QString) (d : nat) :
  d <= length s -> mid s (-1) (Z.of_nat d - -1) = firstn d s.
Proof.
  intros Hd. unfold mid.
  destruct (-1 >? Z.of_nat (length s))%Z eqn:H1.
  { apply Z.gtb_lt in H1. lia. }
  change (-1 <? 0)%Z with true. cbv iota.
  destruct (Z.of_nat d - -1 <? 0)%Z eqn:H2.
  { apply Z.ltb_lt in H2. lia. }
  simpl orb.
  destruct (Z.of_nat d - -1 + -1 >=? Z.of_nat (length s))%Z eqn:H3.
  { apply Z.geb_le in H3. rewrite firstn_all2; [reflexivity | lia]. }
  destruct (Z.of_nat d - -1 + -1 <=? 0)%Z eqn:H4.
  { apply Z.leb_le in H4. replace d with 0 by lia. reflexivity. }
  f_equal. lia.
Qed.

Lemma indexOf_0 (s needle : QString) :
  indexOf s needle 0
  = match findFrom needle s 0 with
    | Some p => Z.of_nat p
    | None => (-1)%Z
    end.
Proof. unfold indexOf. destruct (length s); reflexivity. Qed.



(** ** The queue and the buffer of an article request *)

Section QueueOrder.
Variable E : Env.

Lemma Subseq_refl {A} (l : list A) : Subseq l l.
Proof. induction l; constructor; assumption. Qed.

Lemma Subseq_In {A} (l1 l2 : list A) (x : A) :
  Subseq l1 l2 -> In x l1 -> In x l2.
Proof.
  induction 1; simpl; intros Hin; [exact Hin | right; auto |].
  destruct Hin as [->|Hin]; [now left | right; auto].
Qed.

Lemma Subseq_app_skip {A} (pre l1 l2 : list A) :
  Subseq l1 l2 -> Subseq l1 (pre ++ l2).
Proof. intros H. induction pre; simpl; [exact H | now constructor]. Qed.

Lemma Subseq_snoc_skip {A} (l1 l2 : list A) (x : A) :
  Subseq l1 l2 -> Subseq l1 (l2 ++ [x]).
Proof.
  induction 1; simpl.
  - apply Subseq_skip, Subseq_nil.
  - now apply Subseq_skip.
  - now apply Subseq_take.
Qed.

Lemma Subseq_snoc_take {A} (l1 l2 : list A) (x : A) :
  Subseq l1 l2 -> Subseq (l1 ++ [x]) (l2 ++ [x]).
Proof.
  induction 1; simpl.
  - apply Subseq_take, Subseq_nil.
  - now apply Subseq_skip.
  - now apply Subseq_take.
Qed.

Lemma Subseq_nil_r {A} (l : list A) : Subseq l [] -> l = [].
Proof. intros H. inversion H. reflexivity. Qed.

(** The replacement of the reply at the front of the queue, if there is
    one, is at the front of [replacements]. *)
Lemma Subseq_dropHandled (r : Reply) (reps : list Replacement)
                         (rest : list Reply) :
  ~ In r rest ->
  Subseq (map reply reps) (r :: rest) ->
  Subseq (map reply (dropHandled r reps)) rest.
Proof.
  intros Hr H. inversion H; subst.
  - destruct reps as [|front reps]; [exact H2|]. simpl.
    destruct (Nat.eqb r (reply front)) eqn:He; [|exact H2].
    apply Nat.eqb_eq in He. exfalso. apply Hr.
    apply (Subseq_In _ _ _ H2). simpl. now left.
  - destruct reps as [|front reps]; [discriminate|].
    simpl in H0. inversion H0; subst. simpl.
    now rewrite Nat.eqb_refl.
Qed.

Lemma grown_refl (s : ArticleRequest) : grown [] s s.
Proof.
  unfold grown. simpl. repeat split; auto; constructor.
Qed.

Lemma grown_prependQuery (s : ArticleRequest) (w : QString) :
  grown [nextReply (netMgr s)] s (prependQuery s w) /\
  replacements (prependQuery s w) = replacements s.
Proof.
  unfold grown, prependQuery, createQuery. simpl.
  split; [|reflexivity]. split; [reflexivity|].
  split; [constructor; [simpl; tauto | constructor]|].
  split; [constructor; [lia | constructor]|].
  split; [lia | reflexivity].
Qed.

Lemma grown_trans (f1 f2 : list Reply) (s0 s1 s2 : ArticleRequest) :
  grown f1 s0 s1 -> grown f2 s1 s2 -> grown (f2 ++ f1) s0 s2.
Proof.
  intros (A1 & A2 & A3 & A4 & A5) (B1 & B2 & B3 & B4 & B5).
  unfold grown. rewrite B1, A1. unfold pending. rewrite map_app, app_assoc.
  split; [reflexivity|]. split; [|split; [|split; [lia | congruence]]].
  - apply NoDup_app; try assumption.
    intros x H2 H1. rewrite Forall_forall in A3, B3.
    specialize (A3 x H1). specialize (B3 x H2). lia.
  - apply Forall_app. split.
    + eapply Forall_impl; [|exact B3]. simpl. intros; lia.
    + eapply Forall_impl; [|exact A3]. simpl. intros; lia.
Qed.

Lemma replyHandled_grown (s : ArticleRequest) (r : Reply) (tf : bool) :
  exists fresh,
    grown fresh s (replyHandled s r tf) /\
    replacements (replyHandled s r tf)
      = match preferableSuffix_of (self s) with
        | Some _ => dropHandled r (replacements s)
        | None => replacements s
        end.
Proof.
  unfold replyHandled.
  destruct (preferableSuffix_of (self s)) as [sfx|];
    [|exists []; split; [apply grown_refl | reflexivity]].
  destruct (replacements s) as [|front rest] eqn:Hreps;
    [exists []; split; [apply grown_refl | try rewrite Hreps; reflexivity]|].
  simpl dropHandled.
  destruct (Nat.eqb r (reply front));
    [|exists []; split; [apply grown_refl | simpl; now rewrite Hreps]].
  destruct tf; simpl.
  - exists []. split; [|reflexivity].
    unfold grown. simpl. repeat split; auto; constructor.
  - exists [nextReply (netMgr s)]. split; [|reflexivity].
    destruct (grown_prependQuery s (originalWord front)) as [G _].
    unfold grown in *. simpl in *. exact G.
Qed.

(** One round of the loop: what it queues and what it leaves of
    [replacements]. *)
Lemma handleReply_grown (s0 : ArticleRequest) (r : Reply) :
  exists fresh,
    grown fresh s0 (fst (handleReply E s0 r)) /\
    replacements (fst (handleReply E s0 r))
      = match preferableSuffix_of (self s0) with
        | Some _ => dropHandled r (replacements s0)
        | None => replacements s0
        end.
Proof.
  unfold handleReply.
  assert (Hstep : forall s1 tf (u : bool),
            (exists f1, grown f1 s0 s1) ->
            replacements s1 = replacements s0 ->
            exists fresh,
              grown fresh s0 (fst (replyHandled s1 r tf, u)) /\
              replacements (fst (replyHandled s1 r tf, u))
              = match preferableSuffix_of (self s0) with
                | Some _ => dropHandled r (replacements s0)
                | None => replacements s0
                end).
  { intros s1 tf u [f1 G1] Hreps. cbn [fst].
    destruct (replyHandled_grown s1 r tf) as (f2 & G2 & R2).
    exists (f2 ++ f1). split; [exact (grown_trans _ _ _ _ _ G1 G2)|].
    rewrite R2, Hreps. destruct G1 as (_ & _ & _ & _ & ->). reflexivity. }
  assert (Hbase : forall q, exists f1, grown f1 s0 (with_base q s0)).
  { intros q. exists []. unfold grown. simpl.
    repeat split; auto; constructor. }
  destruct (outcome E r) as [e|es el ec| | |a].
  - apply Hstep; [apply Hbase | reflexivity].
  - apply Hstep; [apply Hbase | reflexivity].
  - apply Hstep; [exists []; apply grown_refl | reflexivity].
  - apply Hstep; [exists []; apply grown_refl | reflexivity].
  - rewrite preprocessArticle_spec.
    destruct (accepts (self s0) a).
    + apply Hstep; [|reflexivity]. exists []. unfold grown. simpl.
      repeat split; auto; constructor.
    + destruct (grown_prependQuery s0
                  (findWikiLink a (distinction (self s0)))) as [G R].
      apply Hstep; [eexists; exact G | exact R].
Qed.

Lemma orderly_handleReply (s : ArticleRequest) (r : Reply)
                          (rest : NetReplies) (flag : bool) :
  orderly s -> netReplies s = (r, flag) :: rest ->
  orderly (fst (handleReply E (with_netReplies rest s) r)).
Proof.
  intros (H1 & H2 & H3 & H4) Hq. rewrite Hq in H1, H2, H3. simpl in *.
  destruct (handleReply_grown (with_netReplies rest s) r)
    as (fresh & (G1 & G2 & G3 & G4 & G5) & R).
  set (s1 := fst (handleReply E (with_netReplies rest s) r)) in *.
  simpl in G1, G3, G4, G5, R.
  inversion H1 as [|? ? Hr Hnd]; subst.
  inversion H2 as [|? ? Hlt Hall]; subst.
  assert (Hsub : Subseq (map reply (replacements s1)) (map fst rest)).
  { rewrite R. destruct (preferableSuffix_of (self s)).
    - now apply Subseq_dropHandled.
    - rewrite (H4 eq_refl). simpl. clear. induction (map fst rest);
        constructor; assumption. }
  unfold orderly. rewrite G1, map_app, map_fst_pending.
  split; [|split; [|split]].
  - apply NoDup_app; try assumption.
    intros x Hx1 Hx2. rewrite Forall_forall in G3, Hall.
    specialize (G3 x Hx1). specialize (Hall x Hx2). lia.
  - apply Forall_app. split.
    + eapply Forall_impl; [|exact G3]. simpl. intros; lia.
    + eapply Forall_impl; [|exact Hall]. simpl. intros; lia.
  - now apply Subseq_app_skip.
  - rewrite G5. intros Hnone. rewrite R, Hnone. exact (H4 Hnone).
Qed.

Lemma orderly_drain :
  forall fuel s upd s' u,
    orderly s -> drain E fuel s upd = Some (s', u) -> orderly s'.
Proof.
  induction fuel as [|fuel IH]; intros s upd s' u Ho H.
  - simpl in H. destruct (netReplies s) as [|[r [|]] rest];
      inversion H; subst; exact Ho.
  - simpl in H. destruct (netReplies s) as [|[r [|]] rest] eqn:Hq;
      try (inversion H; subst; exact Ho).
    pose proof (orderly_handleReply s r rest true Ho Hq) as Ho1.
    destruct (handleReply E (with_netReplies rest s) r) as [s1 u1].
    exact (IH _ _ _ _ Ho1 H).
Qed.

Lemma orderly_requestFinished (s s' : ArticleRequest) (r : Reply) :
  orderly s -> requestFinished E s r = Some s' -> orderly s'.
Proof.
  intros Ho. unfold requestFinished.
  destruct (isFinished (base s)); [intros H; inversion H; now subst|].
  destruct (markFinished r (netReplies s)) as [l|] eqn:Hm;
    [|intros H; inversion H; now subst].
  assert (Hol : orderly (with_netReplies l s)).
  { destruct Ho as (H1 & H2 & H3 & H4). unfold orderly. simpl.
    rewrite (markFinished_fst r _ _ Hm). auto. }
  destruct (drain E (S (length l)) (with_netReplies l s) false)
    as [[s1 upd]|] eqn:Hd; [|discriminate].
  pose proof (orderly_drain _ _ _ _ _ Hol Hd) as Ho1.
  intros H. inversion H; subst.
  destruct (empty (netReplies s1)); [exact Ho1|].
  destruct upd; exact Ho1.
Qed.

Lemma orderly_addQuery (s : ArticleRequest) (word : QString) :
  orderly s -> orderly (addQuery E s word).
Proof.
  intros (H1 & H2 & H3 & H4).
  assert (Hnew : NoDup (map fst (netReplies s) ++ [nextReply (netMgr s)])).
  { apply NoDup_app; try assumption.
    - constructor; [simpl; tauto | constructor].
    - intros x Hx [<-|[]]. rewrite Forall_forall in H2.
      specialize (H2 _ Hx). lia. }
  assert (Hlt : Forall (fun x => x < S (nextReply (netMgr s)))
                       (map fst (netReplies s) ++ [nextReply (netMgr s)])).
  { apply Forall_app. split.
    - eapply Forall_impl; [|exact H2]. simpl. intros; lia.
    - constructor; [lia | constructor]. }
  unfold addQuery, doAddQuery.
  destruct (preferableSuffix_of (self s)) as [sfx|] eqn:Hsfx.
  - unfold doAddQuery_suffix.
    destruct (fst (suffixCheck (stray E) word sfx));
      unfold orderly; simpl; rewrite map_app; simpl;
      rewrite ?map_app; simpl;
      (split; [exact Hnew|]); (split; [exact Hlt|]);
      (split; [|rewrite Hsfx; discriminate]).
    + now apply Subseq_snoc_skip.
    + now apply Subseq_snoc_take.
  - unfold orderly. simpl. rewrite map_app. simpl.
    split; [exact Hnew|]. split; [exact Hlt|].
    split; [now apply Subseq_snoc_skip | intros _; exact (H4 eq_refl)].
Qed.

Lemma orderly_construct (c : Class) (mgr : Manager) :
  orderly (construct c mgr).
Proof.
  unfold orderly. simpl. repeat split; auto; constructor.
Qed.

Lemma orderly_addQueries (words : list QString) :
  forall s, orderly s -> orderly (fold_left (addQuery E) words s).
Proof.
  induction words as [|w words IH]; intros s Ho; simpl; [exact Ho|].
  apply IH, orderly_addQuery, Ho.
Qed.

Lemma orderly_deliver (evs : list Reply) :
  forall s, orderly s ->
  exists s', deliver E s evs = Some s' /\ orderly s'.
Proof.
  induction evs as [|r evs IH]; intros s Ho; simpl; [eauto|].
  destruct (requestFinished_total E s r) as [s1 H1]. rewrite H1.
  apply IH. exact (orderly_requestFinished _ _ _ Ho H1).
Qed.

End QueueOrder.

(** X7.  However the completions arrive, the request made for a word and
    its alternates stays in order: no reply is queued twice, and the
    replies of [replacements] are replies of the queue, in the order of
    the queue.  So the reply being handled is looked for at the front of
    [replacements] without loss, and once the queue is empty no
    replacement is left over. *)
Theorem replacements_follow_queue
  (E : Env) (c : Class) (mgr : Manager) (words : list QString)
  (evs : list Reply) :
  exists s',
    deliver E (fold_left (addQuery E) words (construct c mgr)) evs = Some s' /\
    orderly s' /\
    (forall x, In x (map reply (replacements s')) ->
               In x (map fst (netReplies s'))) /\
    (netReplies s' = [] -> replacements s' = []).
Proof.
  destruct (orderly_deliver E evs _
              (orderly_addQueries E words _ (orderly_construct c mgr)))
    as (s' & Hd & Ho).
  exists s'. split; [exact Hd|]. split; [exact Ho|].
  destruct Ho as (_ & _ & Hsub & _). split.
  - intros x. apply Subseq_In. exact Hsub.
  - intros Hq. rewrite Hq in Hsub. apply Subseq_nil_r in Hsub.
    now apply map_eq_nil in Hsub.
Qed.

Section DataFlag.
Variable E : Env.

Lemma articleBody_nonempty (a : QString) : articleBody E a <> [].
Proof. unfold articleBody, divOpen. destruct (isToLanguageRTL E); discriminate. Qed.

Lemma consistent_same (s0 s1 : ArticleRequest) :
  data s1 = data s0 -> hasAnyData s1 = hasAnyData s0 ->
  consistent s0 -> consistent s1.
Proof. unfold consistent. intros -> ->. tauto. Qed.

Lemma consistent_handleReply (s0 : ArticleRequest) (r : Reply) :
  consistent s0 -> consistent (fst (handleReply E s0 r)).
Proof.
  intros Hc. unfold handleReply.
  assert (Hstep : forall s1 tf (u : bool),
            consistent s1 -> consistent (fst (replyHandled s1 r tf, u))).
  { intros s1 tf u H1. cbn [fst].
    destruct (replyHandled_queued s1 r tf)
      as (fresh & (_ & _ & _ & Hd & Hf) & _).
    exact (consistent_same _ _ Hd Hf H1). }
  destruct (outcome E r) as [e|es el ec| | |a]; try (apply Hstep; exact Hc).
  rewrite preprocessArticle_spec.
  destruct (accepts (self s0) a); apply Hstep.
  - unfold consistent. simpl. split; [|reflexivity].
    intros _ H. apply app_eq_nil in H as [_ H].
    exact (articleBody_nonempty _ H).
  - exact Hc.
Qed.

Lemma consistent_drain :
  forall fuel s upd s' u,
    consistent s -> drain E fuel s upd = Some (s', u) -> consistent s'.
Proof.
  induction fuel as [|fuel IH]; intros s upd s' u Hc H.
  - simpl in H. destruct (netReplies s) as [|[r [|]] rest];
      inversion H; subst; exact Hc.
  - simpl in H. destruct (netReplies s) as [|[r [|]] rest] eqn:Hq;
      try (inversion H; subst; exact Hc).
    pose proof (consistent_handleReply (with_netReplies rest s) r Hc) as H1.
    destruct (handleReply E (with_netReplies rest s) r) as [s1 u1].
    exact (IH _ _ _ _ H1 H).
Qed.

Lemma consistent_requestFinished (s s' : ArticleRequest) (r : Reply) :
  consistent s -> requestFinished E s r = Some s' -> consistent s'.
Proof.
  intros Hc. unfold requestFinished.
  destruct (isFinished (base s)); [intros H; inversion H; now subst|].
  destruct (markFinished r (netReplies s)) as [l|];
    [|intros H; inversion H; now subst].
  destruct (drain E (S (length l)) (with_netReplies l s) false)
    as [[s1 upd]|] eqn:Hd; [|discriminate].
  assert (Hcl : consistent (with_netReplies l s)) by exact Hc.
  pose proof (consistent_drain _ _ _ _ _ Hcl Hd) as H1.
  intros H. inversion H; subst.
  destruct (empty (netReplies s1)); [exact H1|].
  destruct upd; exact H1.
Qed.

Lemma consistent_deliver (evs : list Reply) :
  forall s, consistent s ->
  exists s', deliver E s evs = Some s' /\ consistent s'.
Proof.
  induction evs as [|r evs IH]; intros s Hc; simpl; [eauto|].
  destruct (requestFinished_total E s r) as [s1 H1]. rewrite H1.
  apply IH. exact (consistent_requestFinished _ _ _ Hc H1).
Qed.

End DataFlag.

(** X8.  However the completions arrive, the data flag of the request
    made for a word and its alternates is set exactly when its buffer
    holds something. *)
Theorem data_flag_tells_buffer
  (E : Env) (c : Class) (mgr : Manager) (words : list QString)
  (evs : list Reply) :
  exists s',
    deliver E (fold_left (addQuery E) words (construct c mgr)) evs = Some s' /\
    (hasAnyData s' = true <-> data s' <> []).
Proof.
  apply consistent_deliver.
  destruct (addQueries_spec E words (construct c mgr))
    as (_ & _ & _ & _ & _ & Hd & Hf).
  apply (consistent_same (construct c mgr)); [exact Hd | exact Hf |].
  unfold consistent. simpl. split; [discriminate | congruence].
Qed.

(** X9.  A suffix-adding lookup of a word at least as long as the
    suffix: the test at the head of [doAddQuery] reads inside the word
    only.  When the word ends with the suffix it is asked for as it is and
    no replacement is recorded.  Otherwise the word with the suffix
    appended is asked for and the word recorded as its replacement; when
    the reply to that query holds no article text, a query for the word
    itself takes its place in the queue and nothing reaches the
    buffer. *)
Theorem suffix_test_within_word
  (E : Env) (c : Class) (sfx word : QString) (mgr : Manager) :
  preferableSuffix_of c = Some sfx ->
  length sfx <= length word ->
  let n := nextReply mgr in
  let s0 := addQuery E (construct c mgr) word in
  Forall (fun i => inBounds word i = true)
         (snd (suffixCheck (stray E) word sfx)) /\
  ((exists pre, word = pre ++ sfx) ->
   netReplies s0 = [(n, false)] /\
   sent (netMgr s0) = sent mgr ++ [(n, word)] /\
   replacements s0 = []) /\
  (~ (exists pre, word = pre ++ sfx) ->
   netReplies s0 = [(n, false)] /\
   sent (netMgr s0) = sent mgr ++ [(n, word ++ sfx)] /\
   replacements s0 = [{| reply := n; originalWord := word |}] /\
   (textFound E n = false ->
    exists s1,
      requestFinished E s0 n = Some s1 /\
      netReplies s1 = [(S n, false)] /\
      sent (netMgr s1) = sent mgr ++ [(n, word ++ sfx); (S n, word)] /\
      data s1 = [] /\ hasAnyData s1 = false /\
      isFinished (base s1) = false)).
Proof.
  intros Hsfx Hlen n s0.
  destruct (suffixCheck_in_bounds E word sfx Hlen) as [Hiff Hreads].
  split; [exact Hreads|]. split.
  - intros Hends. apply Hiff in Hends.
    unfold s0, addQuery, doAddQuery. simpl. rewrite Hsfx.
    unfold doAddQuery_suffix. rewrite Hends. simpl. auto.
  - intros Hnot.
    destruct (suffix_fallback E c sfx word mgr Hsfx Hlen Hnot)
      as ((A1 & A2 & A3) & Hfall).
    split; [exact A1|]. split; [exact A2|]. split; [exact A3|].
    intros Hno. destruct (Hfall Hno) as (s1 & B1 & B2 & B3 & B4 & B5 & B6 & _).
    exists s1. auto 10.
Qed.

Lemma suffix_test_within_word_witness :
  let word := qs "Obi-Wan Kenobi" in
  let s0 := addQuery sampleEnv
              (construct WookieepediaLegendsArticleRequest freshManager)
              word in
  length legendsSuffix <= length word /\
  ~ (exists pre, word = pre ++ legendsSuffix) /\
  textFound sampleEnv 0 = false /\
  Forall (fun i => inBounds word i = true)
         (snd (suffixCheck (stray sampleEnv) word legendsSuffix)) /\
  sent (netMgr s0) = [(0, qs "Obi-Wan Kenobi/Legends")] /\
  exists s1,
    requestFinished sampleEnv s0 0 = Some s1 /\
    netReplies s1 = [(1, false)] /\
    sent (netMgr s1)
      = [(0, qs "Obi-Wan Kenobi/Legends"); (1, qs "Obi-Wan Kenobi")].
Proof.
  intros word s0.
  assert (Hlen : length legendsSuffix <= length word) by (simpl; lia).
  assert (Hnot : ~ (exists pre, word = pre ++ legendsSuffix)).
  { intros [pre H].
    assert (Hl : length pre = 6).
    { apply (f_equal (@length _)) in H. rewrite length_app in H.
      simpl in H. lia. }
    do 7 (destruct pre as [|? pre]; try discriminate Hl).
    discriminate H. }
  destruct (suffix_test_within_word sampleEnv
              WookieepediaLegendsArticleRequest legendsSuffix word
              freshManager eq_refl Hlen) as (H1 & _ & H3).
  destruct (H3 Hnot) as (_ & A2 & _ & Hfall).
  destruct (Hfall eq_refl) as (s1 & B1 & B2 & B3 & _).
  split; [exact Hlen|]. split; [exact Hnot|]. split; [reflexivity|].
  split; [exact H1|]. split; [exact A2|].
  exists s1. split; [exact B1|]. split; [exact B2 | exact B3].
Defined.

(** ** The prefix search request under any events; the dictionary *)

Section SearchEvents.
Import WordSearch.
Variable searchOutcome : Reply -> SearchOutcome.
Variable xmlParseError : QString -> Z -> Z -> QString.
Variable r0 : Reply.

Lemma settled_step (s : MediaWikiWordSearchRequest) (ev : Event) :
  settled searchOutcome r0 s ->
  settled searchOutcome r0 (step searchOutcome xmlParseError s ev).
Proof.
  intros (I0 & I1 & I2 & I3).
  assert (Hfin : forall q, isFinished (finish q) = true)
    by apply isFinished_finish.
  assert (Hkeep : forall q, isFinished q = true -> isFinished (finish q) = true)
    by (intros; apply Hfin).
  destruct s as [q m nr lived cancelling timer mgr]. simpl in *.
  destruct ev; unfold step, cancel, timerEvent, downloadFinished; simpl.
  - (* cancel *)
    destruct lived; simpl; unfold settled; simpl.
    + split; [destruct nr; auto|]. split; [auto|]. split; [auto|].
      destruct I3 as [I3|[I3 I4]]; [now left | right; auto].
    + split; [destruct nr; auto|]. split; [auto|].
      split; [discriminate|]. exact I3.
  - (* timer *)
    destruct cancelling; simpl; unfold settled; simpl.
    + split; [exact I0|]. split; [auto|]. split; [auto|].
      destruct I3 as [I3|[I3 I4]]; [now left | right; auto].
    + split; [exact I0|]. split; [exact I1|].
      split; [discriminate|]. exact I3.
  - (* download *)
    destruct cancelling; simpl;
      [exact (conj I0 (conj I1 (conj I2 I3)))|].
    destruct (isFinished q) eqn:Hq; simpl.
    { unfold settled; simpl. rewrite Hq.
      exact (conj I0 (conj I1 (conj I2 I3))). }
    destruct nr as [r|].
    2:{ unfold settled; simpl. rewrite Hq.
        exact (conj I0 (conj I1 (conj I2 I3))). }
    assert (Hr : r = r0) by (destruct I0 as [I0|I0]; congruence).
    subst r.
    assert (Hm : m = []).
    { destruct I3 as [I3|[I3 _]]; [exact I3 | discriminate]. }
    subst m.
    destruct (searchOutcome r0) as [e|es el ec| |titles] eqn:Ho;
      unfold settled; simpl;
      (split; [now right|]); (split; [discriminate|]);
      (split; [auto|]); try (now left).
    right. split; [apply Hfin | first [exact Ho | reflexivity]].
Qed.

Lemma settled_run (evs : list Event) :
  forall s, settled searchOutcome r0 s ->
            settled searchOutcome r0 (run searchOutcome xmlParseError evs s).
Proof.
  induction evs as [|ev evs IH]; intros s Hs; [exact Hs|].
  simpl. apply IH, settled_step, Hs.
Qed.

Lemma run_netMgr (evs : list Event) :
  forall s, netMgr (run searchOutcome xmlParseError evs s) = netMgr s.
Proof.
  induction evs as [|ev evs IH]; intros s; [reflexivity|].
  simpl. rewrite IH.
  destruct ev; unfold step, cancel, timerEvent, downloadFinished; simpl.
  - destruct (livedLongEnough s); reflexivity.
  - destruct (isCancelling s); reflexivity.
  - destruct (isCancelling s || isFinished (base s)); [reflexivity|].
    destruct (netReply s) as [r|]; [|reflexivity].
    destruct (searchOutcome r); reflexivity.
Qed.

End SearchEvents.

(** X10.  A prefix search request, whatever happens to it in whatever
    order (cancellation, the timer, the end of the transfer, each any
    number of times): when [downloadFinished] gets past its guard, the
    request still holds its reply; a cancelled request whose timer has
    fired is finished; matches are published only together with
    finishing, and are then the titles of the one reply; and the query
    sent on construction stays the only one. *)
Theorem search_request_settles
  (searchOutcome : Reply -> SearchOutcome)
  (xmlParseError : QString -> Z -> Z -> QString)
  (word : QString) (mgr : Manager) (evs : list Event) :
  let s := run searchOutcome xmlParseError evs
               (WordSearch.construct word mgr) in
  (WordSearch.isCancelling s = false ->
   WordSearch.netReply s = Some (nextReply mgr)) /\
  (WordSearch.isCancelling s = true ->
   WordSearch.livedLongEnough s = true ->
   isFinished (WordSearch.base s) = true) /\
  (WordSearch.matches s = [] \/
   (isFinished (WordSearch.base s) = true /\
    searchOutcome (nextReply mgr) = Pages (WordSearch.matches s))) /\
  sent (WordSearch.netMgr s) = sent mgr ++ [(nextReply mgr, word)].
Proof.
  intros s.
  assert (Hsent : sent (WordSearch.netMgr s)
                  = sent mgr ++ [(nextReply mgr, word)]).
  { unfold s. rewrite run_netMgr. reflexivity. }
  destruct (settled_run searchOutcome xmlParseError (nextReply mgr) evs
              (WordSearch.construct word mgr))
    as (I0 & I1 & I2 & I3).
  { unfold settled. simpl. split; [now right|]. split; [discriminate|].
    split; [discriminate | now left]. }
  fold s in I0, I1, I2, I3.
  split; [|split; [exact I2 | split; [exact I3 | exact Hsent]]].
  intros Hc. destruct I0 as [I0|I0]; [|exact I0].
  rewrite (I1 I0) in Hc. discriminate.
Qed.

(** ** The language of a dictionary *)

Lemma firstn_snoc_nth {A} (l : list A) (n : nat) (d : A) :
  n < length l -> firstn (S n) l = firstn n l ++ [nth n l d].
Proof.
  revert n. induction l as [|x l IH]; intros n Hn; simpl in Hn; [lia|].
  destruct n; [reflexivity|]. simpl. f_equal. apply IH. lia.
Qed.

Lemma indexOf_char_0 (c : QChar) (s : QString) (n : nat) :
  indexOf s [c] 0 = Z.of_nat n <->
  exists a b, s = a ++ c :: b /\ length a = n /\ ~ In c a.
Proof.
  split.
  - intros H. destruct (indexOf_char c s 0 _ H) as (a & b & Hs & Hl & _ & Hn);
      [lia|].
    exists a, b. split; [exact Hs|]. split; [lia | exact Hn].
  - intros (a & b & -> & <- & Hn).
    now apply indexOf_char_intro; [lia|].
Qed.

(** X11.  The constructor of the dictionary takes a language code from
    the url exactly when the two characters before the first full stop of
    the url stand at its very beginning or right after a slash that is
    not the first character; the code is these two characters. *)
Theorem langCode_spec (url code : QString) :
  langCode url = Some code <->
  exists pre rest,
    url = pre ++ code ++ qc "." :: rest /\
    length code = 2 /\
    ~ In (qc ".") (pre ++ code) /\
    (pre = [] \/ exists pre1, pre1 <> [] /\ pre = pre1 ++ [qc "/"]).
Proof.
  unfold langCode. change (qs ".") with [qc "."]. split.
  - set (n := indexOf url [qc "."] 0).
    destruct ((n =? 2)%Z
              || ((n >? 3)%Z
                  && N.eqb (nth (Z.to_nat (n - 3)) url 0%N) (qc "/")))
      eqn:Hcond; [|discriminate].
    assert (Hn : (2 <= n)%Z).
    { apply orb_true_iff in Hcond as [H|H].
      - apply Z.eqb_eq in H. lia.
      - apply andb_true_iff in H as [H _]. apply Z.gtb_lt in H. lia. }
    destruct (proj1 (indexOf_char_0 (qc ".") url (Z.to_nat n)))
      as (a & b & Hurl & Hla & Hno); [unfold n in *; lia|].
    assert (Hn' : n = Z.of_nat (length a)) by lia.
    replace (n - 2)%Z with (Z.of_nat (length a - 2)) by lia.
    change 2%Z with (Z.of_nat 2).
    rewrite mid_inside by (rewrite Hurl, length_app; simpl; lia).
    assert (Hskip : skipn (length a - 2) url
                    = skipn (length a - 2) a ++ qc "." :: b).
    { rewrite Hurl, skipn_app.
      replace (length a - 2 - length a) with 0 by lia. reflexivity. }
    assert (Hc2 : firstn 2 (skipn (length a - 2) url)
                  = skipn (length a - 2) a).
    { rewrite Hskip, firstn_app, length_skipn.
      replace (2 - (length a - (length a - 2))) with 0 by lia.
      rewrite firstn_all2 by (rewrite length_skipn; lia).
      simpl. now rewrite app_nil_r. }
    rewrite Hc2. intros H. injection H as <-.
    exists (firstn (length a - 2) a), b.
    rewrite app_assoc, firstn_skipn.
    split; [exact Hurl|]. split; [rewrite length_skipn; lia|].
    split; [exact Hno|].
    apply orb_true_iff in Hcond as [H|H].
    + apply Z.eqb_eq in H. left.
      replace (length a - 2) with 0 by lia. reflexivity.
    + apply andb_true_iff in H as [H1 H2]. apply Z.gtb_lt in H1.
      apply N.eqb_eq in H2. right.
      exists (firstn (length a - 3) a). split.
      * intros H0. apply (f_equal (@length _)) in H0.
        rewrite length_firstn in H0. simpl in H0. lia.
      * replace (Z.to_nat (n - 3)) with (length a - 3) in H2 by lia.
        rewrite Hurl, app_nth1 in H2 by lia.
        rewrite <- H2.
        replace (length a - 2) with (S (length a - 3)) by lia.
        apply firstn_snoc_nth. lia.
  - intros (pre & rest & Hurl & Hlen & Hno & Hpre).
    assert (Hidx : indexOf url [qc "."] 0 = Z.of_nat (length pre + 2)).
    { apply indexOf_char_0. exists (pre ++ code), rest.
      rewrite <- app_assoc. split; [exact Hurl|].
      split; [rewrite length_app; lia | exact Hno]. }
    rewrite Hidx.
    assert (Hmid : mid url (Z.of_nat (length pre + 2) - 2) 2 = code).
    { replace (Z.of_nat (length pre + 2) - 2)%Z
        with (Z.of_nat (length pre)) by lia.
      change 2%Z with (Z.of_nat 2).
      rewrite mid_inside by (rewrite Hurl, !length_app; simpl; lia).
      rewrite Hurl, skipn_app, skipn_all, Nat.sub_diag. cbn [skipn app].
      rewrite firstn_app, <- Hlen, Nat.sub_diag, firstn_all.
      simpl. now rewrite app_nil_r. }
    rewrite Hmid.
    destruct Hpre as [->|(pre1 & Hne & ->)].
    + reflexivity.
    + assert (Hl1 : 1 <= length pre1)
        by (destruct pre1; [congruence | simpl; lia]).
      rewrite length_app in *. simpl length in *.
      replace ((Z.of_nat (length pre1 + 1 + 2) =? 2)%Z) with false
        by (symmetry; apply Z.eqb_neq; lia).
      replace ((Z.of_nat (length pre1 + 1 + 2) >? 3)%Z) with true
        by (symmetry; apply Z.gtb_lt; lia).
      replace (Z.to_nat (Z.of_nat (length pre1 + 1 + 2) - 3))
        with (length pre1) by lia.
      rewrite Hurl, <- !app_assoc, app_nth2, Nat.sub_diag by lia.
      reflexivity.
Qed.

Section Factories.
Import MediaWiki.

Lemma startsWith_same (t a b : QString) :
  startsWith (t ++ a) (t ++ b) = startsWith a b.
Proof.
  induction t as [|x t IH]; simpl; [reflexivity|].
  now rewrite N.eqb_refl, IH.
Qed.

Lemma endsWith_same (a b t : QString) :
  endsWith (a ++ t) (b ++ t) = endsWith a b.
Proof.
  unfold endsWith. rewrite !rev_app_distr. apply startsWith_same.
Qed.

(** X12.  The url of a Legends dictionary: the ten characters that
    [initializeFactory] chops off a url that ends with
    /starwars.wikia.com (Legends) are the marker after the host, blank
    included; the dictionary is left with the url of Wookieepedia and
    makes Legends requests. *)
Theorem legends_marker_chopped (u : QString) :
  endsWith u (qs "/starwars.wikia.com") = true ->
  newDictionary (u ++ qs " (Legends)")
  = {| url := u; factory := WookieepediaLegendsFactory |}.
Proof.
  intros H. unfold newDictionary.
  change (qs "/starwars.wikia.com (Legends)")
    with (qs "/starwars.wikia.com" ++ qs " (Legends)").
  rewrite endsWith_same, H. cbv zeta.
  rewrite length_app. simpl length. rewrite Nat.add_sub.
  rewrite firstn_app, Nat.sub_diag, firstn_all. simpl.
  now rewrite app_nil_r.
Qed.

Lemma legends_marker_chopped_witness :
  endsWith (qs "http://starwars.wikia.com") (qs "/starwars.wikia.com") = true /\
  newDictionary (qs "http://starwars.wikia.com (Legends)")
  = {| url := qs "http://starwars.wikia.com";
       factory := WookieepediaLegendsFactory |}.
Proof.
  assert (H : endsWith (qs "http://starwars.wikia.com")
                       (qs "/starwars.wikia.com") = true) by reflexivity.
  split; [exact H|].
  exact (legends_marker_chopped (qs "http://starwars.wikia.com") H).
Defined.

End Factories.

Lemma langCode_spec_witness :
  langCode (qs "https://en.wikipedia.org/w") = Some (qs "en") /\
  exists pre rest,
    qs "https://en.wikipedia.org/w" = pre ++ qs "en" ++ qc "." :: rest /\
    length (qs "en") = 2 /\
    ~ In (qc ".") (pre ++ qs "en") /\
    (pre = [] \/ exists pre1, pre1 <> [] /\ pre = pre1 ++ [qc "/"]).
Proof.
  split; [reflexivity|].
  exact (proj1 (langCode_spec (qs "https://en.wikipedia.org/w") (qs "en"))
               eq_refl).
Defined.

(** ** The Forvo source *)

Lemma eqs_eq (a b : QString) : eqs a b = true <-> a = b.
Proof.
  revert b. induction a as [|x a IH]; intros [|y b]; simpl;
    try (split; [discriminate | congruence]); [tauto|].
  rewrite andb_true_iff, N.eqb_eq, IH.
  split; [intros [-> ->]; reflexivity | intros H; inversion H; auto].
Qed.

Section ForvoLanguages.
Import ForvoDictionaries.
Variable S : Services.
Variable forvo : Forvo.

Lemma contains_In (usedCodes : list QString) (code : QString) :
  contains usedCodes code = true <-> In code usedCodes.
Proof.
  unfold contains. rewrite existsb_exists. split.
  - intros (x & Hx & He). apply eqs_eq in He. now subst.
  - intros H. exists code. split; [exact H | now apply eqs_eq].
Qed.

Lemma makeLoop_spec (codes : list QString) :
  forall usedCodes result,
    (forall code, In code usedCodes <-> In code (map languageCode result)) ->
    NoDup (map languageCode result) ->
    let ds := makeLoop S forvo codes usedCodes result in
    NoDup (map languageCode ds) /\
    (forall code,
       In code (map languageCode ds) <->
       In code (map languageCode result) \/
       (code <> [] /\ In code (map (simplified (T S)) codes))) /\
    (forall d, In d ds ->
               In d result \/ dictApiKey d = apiKey forvo).
Proof.
  induction codes as [|raw codes IH]; intros usedCodes result Hused Hnd.
  - simpl. split; [exact Hnd|]. split; [|auto]. intros code. tauto.
  - cbn [makeLoop]. cbv zeta.
    set (code := simplified (T S) raw).
    destruct (isEmpty code) eqn:Hemp; simpl negb; cbn [andb].
    + destruct (IH usedCodes result Hused Hnd) as (I1 & I2 & I3).
      split; [exact I1|]. split; [|exact I3].
      intros c. rewrite I2. simpl. fold code.
      assert (Hc : code = []) by (destruct code; [reflexivity | discriminate]).
      split; [tauto|]. intros [H|[H1 [H2|H2]]]; auto.
      congruence.
    + destruct (contains usedCodes code) eqn:Hcont; simpl negb.
      * destruct (IH usedCodes result Hused Hnd) as (I1 & I2 & I3).
        split; [exact I1|]. split; [|exact I3].
        intros c. rewrite I2. simpl. fold code.
        apply contains_In, Hused in Hcont.
        split; [tauto|]. intros [H|[H1 [H2|H2]]]; auto.
        subst c. now left.
      * assert (Hnot : ~ In code (map languageCode result)).
        { intros H. apply Hused, contains_In in H. congruence. }
        destruct (IH (code :: usedCodes)
                     (result ++ [newForvoDictionary S forvo code]))
          as (I1 & I2 & I3).
        { intros c. rewrite map_app, in_app_iff. simpl.
          rewrite (Hused c). tauto. }
        { rewrite map_app. simpl. apply NoDup_app; try assumption.
          - constructor; [simpl; tauto | constructor].
          - intros x Hx [<-|[]]. exact (Hnot Hx). }
        split; [exact I1|]. split.
        -- intros c. rewrite I2, map_app, in_app_iff. simpl. fold code.
           assert (Hne : code <> [])
             by (destruct code; [discriminate | congruence]).
           split.
           ++ intros [[H|[H|[]]]|[H1 H2]]; [now left | | now right; auto].
              subst c. right. split; [exact Hne | now left].
           ++ intros [H|[H1 [H2|H2]]]; [now left; left | | now right].
              left. right. now left.
        -- intros d Hd. destruct (I3 d Hd) as [H|H]; [|now right].
           apply in_app_or in H as [H|[<-|[]]]; [now left | now right].
Qed.

End ForvoLanguages.

(** X13.  [makeDictionaries] of the Forvo source makes one dictionary
    for every language code listed: a code is what is left of a
    comma-separated part of the setting when its white space is
    simplified; empty ones are left out, a code listed twice gives one
    dictionary; every dictionary has the api key of the setting.  With
    the source disabled there is none. *)
Theorem forvo_one_dictionary_per_code
  (S : ForvoDictionaries.Services) (forvo : ForvoDictionaries.Forvo) :
  let ds := ForvoDictionaries.makeDictionaries S forvo in
  let listed :=
    map (ForvoDictionaries.simplified (ForvoDictionaries.T S))
        (ForvoDictionaries.split (qc ",")
           (ForvoDictionaries.languageCodes forvo)) in
  NoDup (map ForvoDictionaries.languageCode ds) /\
  (forall code,
     In code (map ForvoDictionaries.languageCode ds) <->
     ForvoDictionaries.enable forvo = true /\ code <> [] /\ In code listed) /\
  (forall d, In d ds ->
             ForvoDictionaries.dictApiKey d = ForvoDictionaries.apiKey forvo).
Proof.
  intros ds listed. unfold ds, ForvoDictionaries.makeDictionaries.
  destruct (ForvoDictionaries.enable forvo).
  - destruct (makeLoop_spec S forvo
                (ForvoDictionaries.split (qc ",")
                   (ForvoDictionaries.languageCodes forvo)) [] [])
      as (I1 & I2 & I3); [simpl; tauto | constructor |].
    split; [exact I1|]. split.
    + intros code. rewrite I2. simpl. fold listed. tauto.
    + intros d Hd. destruct (I3 d Hd) as [[]|H]. exact H.
  - simpl. split; [constructor|]. split; [|tauto].
    intros code. split; [tauto | intros [H _]; discriminate].
Qed.


(** ** The Forvo request and its reply *)

Section ForvoRequest.
Import ForvoReply.
Variable S : Services.

Lemma rows_without_mp3 (nl : list Item) :
  (forall item, In item nl -> pathmp3 item = None) -> rows S nl = [].
Proof.
  induction nl as [|item nl IH]; intros H; simpl; [reflexivity|].
  rewrite (H item) by now left. apply IH. intros i Hi. apply H. now right.
Qed.

(** A completion of the only reply of the queue. *)
Lemma requestFinished_single (s : Forvo.ForvoArticleRequest) (r : Reply)
                             (flag : bool) :
  isFinished (Forvo.base s) = false ->
  Forvo.netReplies s = [(r, flag)] ->
  let s1 := fst (handleReply S (with_netReplies [(r, true)] s) r) in
  requestFinished S s r
  = with_base (finish (Forvo.base s1)) (with_netReplies [] s1).
Proof.
  intros Hlive Hq s1. unfold requestFinished. rewrite Hlive, Hq.
  simpl MediaWiki.markFinished. rewrite Nat.eqb_refl.
  cbn [drain]. subst s1.
  destruct (handleReply S (with_netReplies [(r, true)] s) r) as [s2 u].
  reflexivity.
Qed.

End ForvoRequest.

(** X14.  A Forvo request is settled by the completion of its one
    query.  After it the request is finished and its queue empty; the
    buffer holds the headword and the table of pronunciations when the
    reply lists at least one item (also when no item of it has a
    [pathmp3], the table then having no row), and nothing otherwise; the
    error text is that of the failed transfer or parsing, or that of the
    [errors] node of the reply, which is recorded also when items were
    delivered.  A completion of any other reply leaves the request as it
    was, and so does every completion after the first. *)
Theorem forvo_request_settled_by_its_reply
  (S : ForvoReply.Services) (T : CharTable) (word : QString)
  (alts : list QString) (apiKey languageCode : QString) (mgr : Manager) :
  let s0 := Forvo.construct T word alts apiKey languageCode mgr in
  let r := nextReply mgr in
  let s1 := ForvoReply.requestFinished S s0 r in
  isFinished (Forvo.base s1) = true /\
  Forvo.netReplies s1 = [] /\
  Forvo.data s1
    = match ForvoReply.outcome S r with
      | ForvoReply.Document (Some (item :: nl)) _ =>
          ForvoReply.articleBody S word (item :: nl)
      | _ => []
      end /\
  Forvo.hasAnyData s1
    = match ForvoReply.outcome S r with
      | ForvoReply.Document (Some (_ :: _)) _ => true
      | _ => false
      end /\
  errorString (Forvo.base s1)
    = match ForvoReply.outcome S r with
      | ForvoReply.NetworkError e => e
      | ForvoReply.XmlError errorStr errorLine errorColumn =>
          ForvoReply.xmlParseError S errorStr errorLine errorColumn
      | ForvoReply.Document _ (Some text) => text
      | ForvoReply.Document _ None => []
      end /\
  (forall nl errors,
     ForvoReply.outcome S r = ForvoReply.Document (Some nl) errors ->
     nl <> [] ->
     (forall item, In item nl -> ForvoReply.pathmp3 item = None) ->
     Forvo.data s1
       = qs "<div class='forvo_headword'>"
         ++ ForvoReply.escape S (ForvoReply.toUtf8 S word)
         ++ qs "</div><table class=`forvo_play`></table>") /\
  (forall r', r' <> r -> ForvoReply.requestFinished S s0 r' = s0) /\
  (forall r', ForvoReply.requestFinished S s1 r' = s1).
Proof.
  intros s0 r s1.
  assert (H7 : forall r', r' <> r -> ForvoReply.requestFinished S s0 r' = s0).
  { intros r' Hr'. unfold ForvoReply.requestFinished, s0, Forvo.construct,
      Forvo.addQuery. simpl. fold r.
    destruct (Nat.eqb r r') eqn:He; [|reflexivity].
    apply Nat.eqb_eq in He. congruence. }
  assert (H8 : isFinished (Forvo.base s1) = true ->
               forall r', ForvoReply.requestFinished S s1 r' = s1).
  { intros Hfin r'. unfold ForvoReply.requestFinished. now rewrite Hfin. }
  assert (Hmain :
    isFinished (Forvo.base s1) = true /\
    Forvo.netReplies s1 = [] /\
    Forvo.data s1
      = match ForvoReply.outcome S r with
        | ForvoReply.Document (Some (item :: nl)) _ =>
            ForvoReply.articleBody S word (item :: nl)
        | _ => []
        end /\
    Forvo.hasAnyData s1
      = match ForvoReply.outcome S r with
        | ForvoReply.Document (Some (_ :: _)) _ => true
        | _ => false
        end /\
    errorString (Forvo.base s1)
      = match ForvoReply.outcome S r with
        | ForvoReply.NetworkError e => e
        | ForvoReply.XmlError errorStr errorLine errorColumn =>
            ForvoReply.xmlParseError S errorStr errorLine errorColumn
        | ForvoReply.Document _ (Some text) => text
        | ForvoReply.Document _ None => []
        end).
  { unfold s1.
    rewrite (requestFinished_single S s0 r false eq_refl eq_refl).
    unfold ForvoReply.handleReply.
    destruct (ForvoReply.outcome S r) as [e|es el ec|[[|item nl]|] [text|]];
      (split; [apply isFinished_finish|]);
      (split; [reflexivity|]); (split; [reflexivity|]);
      (split; reflexivity). }
  destruct Hmain as (M1 & M2 & M3 & M4 & M5).
  split; [exact M1|]. split; [exact M2|]. split; [exact M3|].
  split; [exact M4|]. split; [exact M5|].
  split; [|split; [exact H7 | exact (H8 M1)]].
  intros nl errors Hout Hne Hnone. rewrite M3, Hout.
  destruct nl as [|item nl]; [congruence|].
  unfold ForvoReply.articleBody.
  rewrite (rows_without_mp3 S _ Hnone). reflexivity.
Qed.

(** ** The two revisions; repeated completions *)

Section TwoRevisions.
Variable E : Env.
Variable EL : Legacy.Env.
Hypothesis HE : agree E EL.

Lemma same_handleReply (s : ArticleRequest)
                       (t : Legacy.MediaWikiArticleRequest) (r : Reply)
                       (l : NetReplies) :
  same s t ->
  same (fst (handleReply E (with_netReplies l s) r))
       (Legacy.with_netReplies l (fst (Legacy.handleReply EL t r))) /\
  snd (handleReply E (with_netReplies l s) r)
    = snd (Legacy.handleReply EL t r).
Proof.
  destruct HE as (A1 & A2 & A3 & A4 & A5).
  destruct s as [c q d h nr reps mgr], t as [q' d' h' nr' mgr'].
  unfold same. simpl. intros (-> & -> & -> & -> & -> & ->).
  unfold handleReply, Legacy.handleReply, preprocessArticle, replyHandled.
  simpl. rewrite A1.
  destruct (outcome E r) as [e|es el ec| | |a]; simpl; rewrite ?A3;
    try (repeat split; reflexivity).
  unfold articleBody, Legacy.articleBody. rewrite A2, A4, A5.
  repeat split; reflexivity.
Qed.

Lemma same_drain :
  forall fuel s t upd,
    same s t -> length (netReplies s) < fuel ->
    exists s',
      drain E fuel s upd
        = Some (s', snd (Legacy.drain EL (Legacy.netReplies t) t upd)) /\
      same s' (fst (Legacy.drain EL (Legacy.netReplies t) t upd)).
Proof.
  induction fuel as [|fuel IH]; intros s t upd Hs Hfuel; [lia|].
  assert (Hq : netReplies s = Legacy.netReplies t) by apply Hs.
  cbn [drain]. rewrite <- Hq.
  destruct (netReplies s) as [|[r [|]] rest] eqn:Hl;
    try (exists s; split; [reflexivity | exact Hs]).
  cbn [Legacy.drain].
  destruct (same_handleReply s t r rest Hs) as [H1 H2].
  destruct (handleReply E (with_netReplies rest s) r) as [s1 u].
  destruct (Legacy.handleReply EL t r) as [t1 u']. simpl in H1, H2. subst u'.
  assert (Hrest : netReplies s1 = rest) by (destruct H1 as (_ & _ & _ & _ & H & _); exact H).
  destruct (IH s1 (Legacy.with_netReplies rest t1) (upd || u) H1)
    as (s' & D1 & D2).
  { rewrite Hrest. simpl in Hfuel. lia. }
  exists s'. simpl in D1, D2. split; [exact D1 | exact D2].
Qed.

Lemma same_requestFinished (s : ArticleRequest)
                           (t : Legacy.MediaWikiArticleRequest) (r : Reply) :
  same s t ->
  exists s', requestFinished E s r = Some s' /\
             same s' (Legacy.requestFinished EL t r).
Proof.
  intros Hs. pose proof Hs as (S1 & S2 & S3 & S4 & S5 & S6).
  unfold requestFinished, Legacy.requestFinished. rewrite <- S2, <- S5.
  destruct (isFinished (base s)); [exists s; split; [reflexivity | exact Hs]|].
  destruct (markFinished r (netReplies s)) as [l|] eqn:Hm;
    [|exists s; split; [reflexivity | exact Hs]].
  assert (Hl : same (with_netReplies l s) (Legacy.with_netReplies l t)).
  { unfold same. simpl. auto 10. }
  destruct (same_drain (S (length l)) _ _ false Hl) as (s' & D1 & D2);
    [simpl; lia|].
  simpl Legacy.netReplies in D1, D2. rewrite D1.
  destruct (Legacy.drain EL l (Legacy.with_netReplies l t) false) as [t' u].
  simpl in D2 |- *.
  destruct D2 as (T1 & T2 & T3 & T4 & T5 & T6).
  rewrite <- T5, <- T2.
  eexists. split; [reflexivity|].
  destruct (empty (netReplies s')); [|destruct u];
    unfold same; simpl; auto 10.
Qed.

Lemma same_deliver (evs : list Reply) :
  forall s t, same s t ->
  exists s', deliver E s evs = Some s' /\ same s' (Legacy.deliver EL t evs).
Proof.
  induction evs as [|r evs IH]; intros s t Hs; simpl.
  - exists s. split; [reflexivity | exact Hs].
  - destruct (same_requestFinished s t r Hs) as (s1 & H1 & H2).
    rewrite H1. apply IH. exact H2.
Qed.

Lemma same_addQueries (words : list QString) :
  forall s t, same s t ->
  same (fold_left (addQuery E) words s) (fold_left Legacy.addQuery words t).
Proof.
  induction words as [|w words IH]; intros s t Hs; simpl; [exact Hs|].
  apply IH. destruct Hs as (S1 & S2 & S3 & S4 & S5 & S6).
  unfold addQuery, doAddQuery, Legacy.addQuery. rewrite S1. simpl.
  unfold same. simpl. rewrite S1, S2, S3, S4, S5, S6. auto 10.
Qed.

End TwoRevisions.



(** ** A completion signalled twice *)

Section Repeated.
Variable E : Env.

Lemma markFinished_In (r : Reply) (l0 l : NetReplies) :
  markFinished r l0 = Some l -> In (r, true) l.
Proof.
  revert l. induction l0 as [|[x b] l0 IH]; intros l H; simpl in H;
    [discriminate|].
  destruct (Nat.eqb x r) eqn:Hx.
  - apply Nat.eqb_eq in Hx. subst x. inversion H; subst. now left.
  - destruct (markFinished r l0) as [l1|]; [|discriminate].
    inversion H; subst. right. now apply IH.
Qed.

Lemma markFinished_marked (r : Reply) (l : NetReplies) :
  NoDup (map fst l) -> In (r, true) l -> markFinished r l = Some l.
Proof.
  induction l as [|[x b] l IH]; intros Hnd Hin; simpl in *; [tauto|].
  inversion Hnd as [|? ? Hx Hnd']; subst.
  destruct Hin as [Hin|Hin].
  - inversion Hin; subst. now rewrite Nat.eqb_refl.
  - destruct (Nat.eqb x r) eqn:He.
    + apply Nat.eqb_eq in He. subst x. exfalso. apply Hx.
      apply in_map_iff. now exists (r, true).
    + now rewrite (IH Hnd' Hin).
Qed.

Lemma unique_flag (r : Reply) (b1 b2 : bool) (l : NetReplies) :
  NoDup (map fst l) -> In (r, b1) l -> In (r, b2) l -> b1 = b2.
Proof.
  induction l as [|[x b] l IH]; intros Hnd H1 H2; simpl in *; [tauto|].
  inversion Hnd as [|? ? Hx Hnd']; subst.
  destruct H1 as [H1|H1], H2 as [H2|H2].
  - congruence.
  - inversion H1; subst. exfalso. apply Hx. apply in_map_iff.
    now exists (r, b2).
  - inversion H2; subst. exfalso. apply Hx. apply in_map_iff.
    now exists (r, b1).
  - exact (IH Hnd' H1 H2).
Qed.

Lemma drain_frontPending (fuel : nat) (s : ArticleRequest) (upd : bool) :
  frontPending (netReplies s) -> drain E fuel s upd = Some (s, upd).
Proof.
  intros H. destruct fuel; simpl;
    destruct (netReplies s) as [|[r [|]] rest]; simpl in H;
    try reflexivity; contradiction.
Qed.

Lemma with_netReplies_same (s : ArticleRequest) :
  with_netReplies (netReplies s) s = s.
Proof. destruct s; reflexivity. Qed.

(** A second call of [requestFinished] for the same reply. *)
Lemma requestFinished_again (s s1 : ArticleRequest) (r : Reply) :
  orderly s -> requestFinished E s r = Some s1 ->
  requestFinished E s1 r = Some s1.
Proof.
  intros Ho H1.
  pose proof (orderly_requestFinished E s s1 r Ho H1) as Ho1.
  destruct (isFinished (base s)) eqn:Hlive.
  { unfold requestFinished in H1. rewrite Hlive in H1.
    inversion H1; subst. unfold requestFinished. now rewrite Hlive. }
  destruct (markFinished r (netReplies s)) as [l|] eqn:Hm.
  2:{ unfold requestFinished in H1. rewrite Hlive, Hm in H1.
      inversion H1; subst. unfold requestFinished. now rewrite Hlive, Hm. }
  destruct (requestFinished_spec E s r l Hlive Hm)
    as (s' & fin & rest & fresh & F1 & F2 & F3 & F4 & _ & _ & F7 & _ & _
        & F10).
  rewrite F1 in H1. inversion H1; subst s'. clear H1.
  unfold requestFinished.
  destruct (isFinished (base s1)) eqn:Hlive1; [reflexivity|].
  destruct (markFinished r (netReplies s1)) as [l2|] eqn:Hm2;
    [|reflexivity].
  assert (Hin : In (r, true) (netReplies s1)).
  { assert (Hq : In r (map fst (netReplies s1))).
    { destruct (in_dec Nat.eq_dec r (map fst (netReplies s1)))
        as [H|H]; [exact H|].
      apply markFinished_None in H. congruence. }
    apply in_map_iff in Hq as ([x b] & Hx & Hb). simpl in Hx. subst x.
    rewrite F3 in Hb. apply in_app_or in Hb as [Hb|Hb].
    - exfalso. unfold pending in Hb. apply in_map_iff in Hb as (y & Hy & Hf).
      inversion Hy; subst y.
      destruct F10 as [_ Hge]. rewrite Forall_forall in Hge.
      specialize (Hge r Hf).
      destruct Ho as (_ & Hlt & _). rewrite Forall_forall in Hlt.
      assert (Hr : In r (map fst (netReplies s))).
      { rewrite <- (markFinished_fst r _ _ Hm).
        apply in_map_iff. exists (r, true).
        split; [reflexivity | exact (markFinished_In r _ _ Hm)]. }
      specialize (Hlt r Hr). lia.
    - assert (Hl : In (r, b) l) by (rewrite F2; apply in_or_app; now right).
      assert (Hnd : NoDup (map fst l)).
      { rewrite (markFinished_fst r _ _ Hm). apply Ho. }
      rewrite (unique_flag r b true l Hnd Hl (markFinished_In r _ _ Hm)) in Hb.
      rewrite F3. apply in_or_app. now right. }
  assert (Hsame : l2 = netReplies s1).
  { rewrite (markFinished_marked r (netReplies s1)) in Hm2;
      [congruence | apply Ho1 | exact Hin]. }
  subst l2. rewrite with_netReplies_same.
  rewrite (drain_frontPending _ s1 false F4).
  unfold isFinished in Hlive1. rewrite F7 in Hlive1. now rewrite Hlive1.
Qed.

Lemma deliver_app (evs1 evs2 : list Reply) :
  forall s,
  deliver E s (evs1 ++ evs2)
  = match deliver E s evs1 with
    | Some s1 => deliver E s1 evs2
    | None => None
    end.
Proof.
  induction evs1 as [|r evs1 IH]; intros s; simpl; [reflexivity|].
  destruct (requestFinished E s r); [apply IH | reflexivity].
Qed.

End Repeated.

(** X16.  A completion that is signalled twice counts once: the request
    made for a word and its alternates is, after any completions followed
    by the same completion twice, in the state it is in after them
    followed by that completion once. *)
Theorem repeated_completion_counts_once
  (E : Env) (c : Class) (mgr : Manager) (words : list QString)
  (evs : list Reply) (r : Reply) :
  let s0 := fold_left (addQuery E) words (construct c mgr) in
  exists s',
    deliver E s0 (evs ++ [r]) = Some s' /\
    deliver E s0 (evs ++ [r; r]) = Some s'.
Proof.
  intros s0.
  destruct (orderly_deliver E evs s0
              (orderly_addQueries E words _ (orderly_construct c mgr)))
    as (s1 & D1 & Ho).
  destruct (requestFinished_total E s1 r) as [s2 H2].
  exists s2. rewrite !deliver_app, D1. simpl. rewrite H2.
  split; [reflexivity|].
  now rewrite (requestFinished_again E s1 s2 r Ho H2).
Qed.

(** ** Queries sent and bytes delivered *)

Section NetworkLoad.
Variable E : Env.

Lemma handleReply_sends (s0 : ArticleRequest) (r : Reply) :
  sentAtMostOne s0 (fst (handleReply E s0 r)).
Proof.
  unfold handleReply.
  assert (Hfalse : forall q,
            sentAtMostOne s0 (replyHandled (with_base q s0) r false)).
  { intros q. unfold replyHandled, sentAtMostOne. simpl.
    destruct (preferableSuffix_of (self s0)); [|left; split; reflexivity].
    destruct (replacements s0) as [|front rest];
      [left; split; reflexivity|].
    destruct (Nat.eqb r (reply front)); simpl;
      [|left; split; reflexivity].
    right. eexists. split; reflexivity. }
  assert (Hsame : sentAtMostOne s0 (replyHandled s0 r false)).
  { replace s0 with (with_base (base s0) s0) at 2 by (destruct s0; reflexivity).
    apply Hfalse. }
  destruct (outcome E r) as [e|es el ec| | |a]; cbn [fst];
    try apply Hfalse; try exact Hsame.
  rewrite preprocessArticle_spec.
  destruct (accepts (self s0) a); cbn [fst].
  - destruct (replyHandled_textFound
                (appendArticleToData E s0
                   (processArticle E (prepared E (self s0) a))) r)
      as (H1 & H2 & _).
    left. rewrite H1, H2. split; reflexivity.
  - destruct (replyHandled_textFound
                (prependQuery s0 (findWikiLink a (distinction (self s0)))) r)
      as (H1 & H2 & _).
    right. exists (findWikiLink a (distinction (self s0))).
    rewrite H1, H2. split; reflexivity.
Qed.

(** The loop sends at most one query: a query sent is queued in front,
    pending, and stops the loop. *)
Lemma drain_sends :
  forall fuel s upd s' u,
    drain E fuel s upd = Some (s', u) ->
    netMgr s' = netMgr s \/ exists w, netMgr s' = snd (get (netMgr s) w).
Proof.
  induction fuel as [|fuel IH]; intros s upd s' u H.
  - simpl in H. destruct (netReplies s) as [|[r [|]] rest];
      inversion H; subst; now left.
  - simpl in H. destruct (netReplies s) as [|[r [|]] rest] eqn:Hq;
      try (inversion H; subst; now left).
    pose proof (handleReply_sends (with_netReplies rest s) r) as Hs.
    destruct (handleReply E (with_netReplies rest s) r) as [s1 u1].
    simpl in Hs. destruct Hs as [[M Q]|(w & M & Q)].
    + destruct (IH _ _ _ _ H) as [H1|(w & H1)]; rewrite M in H1;
        [now left | right; now exists w].
    + rewrite drain_frontPending in H by (rewrite Q; exact I).
      inversion H; subst. right. now exists w.
Qed.

Lemma requestFinished_sends (s s' : ArticleRequest) (r : Reply) :
  requestFinished E s r = Some s' ->
  netMgr s' = netMgr s \/ exists w, netMgr s' = snd (get (netMgr s) w).
Proof.
  unfold requestFinished.
  destruct (isFinished (base s)); [intros H; inversion H; now left|].
  destruct (markFinished r (netReplies s)) as [l|];
    [|intros H; inversion H; now left].
  destruct (drain E (S (length l)) (with_netReplies l s) false)
    as [[s1 upd]|] eqn:Hd; [|discriminate].
  apply drain_sends in Hd. simpl in Hd.
  intros H. inversion H; subst.
  destruct (empty (netReplies s1)); [exact Hd|]. destruct upd; exact Hd.
Qed.

Lemma handleReply_plain (s0 : ArticleRequest) (r : Reply) :
  plain (self s0) = true -> netMgr (fst (handleReply E s0 r)) = netMgr s0.
Proof.
  intros Hp.
  destruct (handleReply_spec E s0 r) as (fresh & H1 & _ & _ & _ & _ & H6 & _).
  rewrite (H6 Hp) in H1. simpl in H1.
  destruct (handleReply_sends s0 r) as [[M _]|(w & _ & Q)]; [exact M|].
  rewrite H1 in Q. apply (f_equal (@length _)) in Q. simpl in Q. lia.
Qed.

Lemma drain_plain :
  forall fuel s upd s' u,
    plain (self s) = true ->
    drain E fuel s upd = Some (s', u) -> netMgr s' = netMgr s.
Proof.
  induction fuel as [|fuel IH]; intros s upd s' u Hp H.
  - simpl in H. destruct (netReplies s) as [|[r [|]] rest];
      inversion H; subst; reflexivity.
  - simpl in H. destruct (netReplies s) as [|[r [|]] rest] eqn:Hq;
      try (inversion H; subst; reflexivity).
    pose proof (handleReply_plain (with_netReplies rest s) r Hp) as Hm.
    destruct (handleReply_spec E (with_netReplies rest s) r)
      as (_ & _ & Hself & _).
    destruct (handleReply E (with_netReplies rest s) r) as [s1 u1].
    simpl in Hm, Hself. rewrite <- Hm.
    assert (Hp1 : plain (self s1) = true) by (rewrite Hself; exact Hp).
    exact (IH _ _ _ _ Hp1 H).
Qed.

Lemma requestFinished_plain (s s' : ArticleRequest) (r : Reply) :
  plain (self s) = true ->
  requestFinished E s r = Some s' -> netMgr s' = netMgr s.
Proof.
  intros Hp. unfold requestFinished.
  destruct (isFinished (base s)); [intros H; inversion H; reflexivity|].
  destruct (markFinished r (netReplies s)) as [l|];
    [|intros H; inversion H; reflexivity].
  destruct (drain E (S (length l)) (with_netReplies l s) false)
    as [[s1 upd]|] eqn:Hd; [|discriminate].
  apply drain_plain in Hd; [|exact Hp]. simpl in Hd.
  intros H. inversion H; subst.
  destruct (empty (netReplies s1)); [exact Hd|]. destruct upd; exact Hd.
Qed.

Lemma deliver_sends (evs : list Reply) :
  forall s, exists s',
    deliver E s evs = Some s' /\
    length (sent (netMgr s')) <= length (sent (netMgr s)) + length evs.
Proof.
  induction evs as [|r evs IH]; intros s; simpl.
  - exists s. split; [reflexivity | lia].
  - destruct (requestFinished_total E s r) as [s1 H1]. rewrite H1.
    destruct (IH s1) as (s' & D & L). exists s'. split; [exact D|].
    destruct (requestFinished_sends s s1 r H1) as [M|(w & M)];
      rewrite M in L; simpl in L; rewrite ?length_app in L; simpl in L; lia.
Qed.

(** ** The buffer only grows *)

Lemma handleReply_keeps (s0 : ArticleRequest) (r : Reply) :
  let s1 := fst (handleReply E s0 r) in
  (exists extra, data s1 = data s0 ++ extra) /\
  (hasAnyData s0 = true -> hasAnyData s1 = true).
Proof.
  intros s1. subst s1. split.
  - destruct (handleReply_spec E s0 r) as (_ & _ & _ & H & _). eauto.
  - unfold handleReply.
    assert (Hstep : forall sa tf (u : bool),
              hasAnyData s0 = true -> hasAnyData sa = true ->
              hasAnyData (fst (replyHandled sa r tf, u)) = true).
    { intros sa tf u _ Ha. cbn [fst].
      destruct (replyHandled_queued sa r tf)
        as (fresh & (_ & _ & _ & _ & Hf) & _). congruence. }
    intros H0.
    destruct (outcome E r) as [e|es el ec| | |a];
      try (apply Hstep; [exact H0 | exact H0]).
    rewrite preprocessArticle_spec.
    destruct (accepts (self s0) a); apply Hstep; auto.
Qed.

Lemma drain_keeps :
  forall fuel s upd s' u,
    drain E fuel s upd = Some (s', u) ->
    (exists extra, data s' = data s ++ extra) /\
    (hasAnyData s = true -> hasAnyData s' = true).
Proof.
  induction fuel as [|fuel IH]; intros s upd s' u H.
  - simpl in H. destruct (netReplies s) as [|[r [|]] rest];
      inversion H; subst; (split; [exists []; now rewrite app_nil_r | auto]).
  - simpl in H. destruct (netReplies s) as [|[r [|]] rest] eqn:Hq;
      try (inversion H; subst;
           split; [exists []; now rewrite app_nil_r | auto]).
    destruct (handleReply_keeps (with_netReplies rest s) r)
      as [[x1 D1] F1].
    destruct (handleReply E (with_netReplies rest s) r) as [s1 u1].
    simpl in D1, F1.
    destruct (IH _ _ _ _ H) as [[x2 D2] F2].
    split; [|auto].
    exists (x1 ++ x2). now rewrite D2, D1, app_assoc.
Qed.

Lemma requestFinished_keeps (s s' : ArticleRequest) (r : Reply) :
  requestFinished E s r = Some s' ->
  (exists extra, data s' = data s ++ extra) /\
  (hasAnyData s = true -> hasAnyData s' = true).
Proof.
  unfold requestFinished.
  assert (Hid : (exists extra, data s = data s ++ extra) /\
                (hasAnyData s = true -> hasAnyData s = true))
    by (split; [exists []; now rewrite app_nil_r | auto]).
  destruct (isFinished (base s)); [intros H; inversion H; subst; exact Hid|].
  destruct (markFinished r (netReplies s)) as [l|];
    [|intros H; inversion H; subst; exact Hid].
  destruct (drain E (S (length l)) (with_netReplies l s) false)
    as [[s1 upd]|] eqn:Hd; [|discriminate].
  apply drain_keeps in Hd. simpl in Hd.
  intros H. inversion H; subst.
  destruct (empty (netReplies s1)); [exact Hd|]. destruct upd; exact Hd.
Qed.

Lemma deliver_keeps (evs : list Reply) :
  forall s, exists s',
    deliver E s evs = Some s' /\
    (exists extra, data s' = data s ++ extra) /\
    (hasAnyData s = true -> hasAnyData s' = true).
Proof.
  induction evs as [|r evs IH]; intros s; simpl.
  - exists s. split; [reflexivity|].
    split; [exists []; now rewrite app_nil_r | auto].
  - destruct (requestFinished_total E s r) as [s1 H1]. rewrite H1.
    destruct (IH s1) as (s' & D & [x2 D2] & F2).
    destruct (requestFinished_keeps s s1 r H1) as [[x1 D1] F1].
    exists s'. split; [exact D|]. split; [|auto].
    exists (x1 ++ x2). now rewrite D2, D1, app_assoc.
Qed.

End NetworkLoad.

(** X17.  A call of [requestFinished] sends at most one query, whatever
    the queue holds: the query that a redirect or a fallback sends is
    queued in front, pending, and ends the loop.  A class without redirect
    and suffix sends none.  So the queries that a request has sent after
    any completions are at most those it had sent before and one for each
    completion. *)
Theorem one_query_per_completion_at_most
  (E : Env) (s : ArticleRequest) (r : Reply) (evs : list Reply) :
  (exists s1,
     requestFinished E s r = Some s1 /\
     (sent (netMgr s1) = sent (netMgr s) \/
      exists w, sent (netMgr s1)
                = sent (netMgr s) ++ [(nextReply (netMgr s), w)]) /\
     (plain (self s) = true -> sent (netMgr s1) = sent (netMgr s))) /\
  (exists s',
     deliver E s evs = Some s' /\
     length (sent (netMgr s')) <= length (sent (netMgr s)) + length evs).
Proof.
  split; [|apply deliver_sends].
  destruct (requestFinished_total E s r) as [s1 H1].
  exists s1. split; [exact H1|]. split.
  - destruct (requestFinished_sends E s s1 r H1) as [M|(w & M)];
      rewrite M; [now left | right; now exists w].
  - intros Hp. now rewrite (requestFinished_plain E s s1 r Hp H1).
Qed.

(** X18.  The buffer of a request only grows: what it holds after some
    completions it still holds, at its beginning, after any further ones,
    and the data flag, once set, stays set. *)
Theorem buffer_only_grows
  (E : Env) (s : ArticleRequest) (evs more : list Reply) :
  exists s1 s2 extra,
    deliver E s evs = Some s1 /\
    deliver E s (evs ++ more) = Some s2 /\
    data s2 = data s1 ++ extra /\
    (hasAnyData s1 = true -> hasAnyData s2 = true).
Proof.
  destruct (deliver_keeps E evs s) as (s1 & D1 & _).
  destruct (deliver_keeps E more s1) as (s2 & D2 & [extra Hx] & Hf).
  exists s1, s2, extra. rewrite deliver_app, D1. auto.
Qed.

(** ** The loop over the audio tags *)

Section AudioTags.
Import Rewrite.
Variable C : Config.
Hypothesis HT : tellsApart (T C).

Lemma nocap_litCI (L : QString) : nocap (litCI (T C) L) = true.
Proof.
  unfold litCI. induction L as [|c [|c' L] IH]; try reflexivity.
  change (seq (map (chrCI (T C)) (c :: c' :: L)))
    with (Cat (chrCI (T C) c) (seq (map (chrCI (T C)) (c' :: L)))).
  simpl nocap. exact IH.
Qed.

Lemma Lang_litCI (L u : QString) :
  Lang (litCI (T C) L) u ->
  forall rest, startsWithCI (T C) L (u ++ rest) = true.
Proof.
  unfold litCI. revert u. induction L as [|c L IH]; intros u H rest;
    [reflexivity|].
  destruct L as [|c' L].
  - simpl in H. inversion H; subst. simpl.
    match goal with Hc : N.eqb _ _ = true |- _ => now rewrite Hc end.
  - change (seq (map (chrCI (T C)) (c :: c' :: L)))
      with (Cat (chrCI (T C) c) (seq (map (chrCI (T C)) (c' :: L)))) in H.
    inversion H; subst.
    match goal with Hc : Lang (chrCI _ c) _ |- _ => inversion Hc; subst end.
    simpl app. cbn [startsWithCI].
    match goal with Hc : N.eqb _ _ = true |- _ => rewrite Hc end.
    simpl. now apply IH.
Qed.

Lemma nocap_reg1 : nocap (reg1 C) = true.
Proof.
  unfold reg1. cbn [seq nocap plusMin]. rewrite !nocap_litCI. reflexivity.
Qed.

(** Where [reg1] matches, an audio tag opens. *)
Lemma reg1_indexIn (s : QString) (pos p len : nat) (cs : Caps) :
  indexIn (reg1 C) s pos = Some (p, len, cs) ->
  pos <= p /\ p + len <= length s /\ opens (T C) (skipn p s) = true.
Proof.
  intros H. apply (indexIn_word _ _ _ _ _ _ nocap_reg1) in H
    as (H1 & H2 & HL).
  split; [exact H1|]. split; [exact H2|].
  unfold reg1 in HL. cbn [seq] in HL. inversion HL; subst.
  match goal with
  | Hc : Lang (litCI _ _) ?u, He : ?u ++ ?v = _ |- _ =>
      pose proof (Lang_litCI _ _ Hc (v ++ skipn len (skipn p s))) as Ho;
      rewrite app_assoc, He, firstn_skipn in Ho
  end.
  exact Ho.
Qed.

(** What [reg2] captures is a stretch of the tag, not at its
    beginning. *)
Lemma reg2_capture (tag : QString) (q l2 : nat) (cs : Caps) :
  indexIn (reg2 C) tag 0 = Some (q, l2, cs) ->
  exists x y, tag = x ++ cap 1 cs ++ y /\ x <> [].
Proof.
  intros H. apply indexIn_Some in H as (_ & Hq & rest & Hm & _).
  unfold matchAt, reg2 in Hm. cbn [seq] in Hm.
  rewrite mt_Cat in Hm.
  apply (mt_sound _ (nocap_litCI _)) in Hm as (u1 & s1 & Hs1 & _ & Hm).
  rewrite mt_Cat in Hm.
  apply (mt_sound (plus (space C)) eq_refl) in Hm as (u2 & s2 & -> & Hu2 & Hm).
  rewrite mt_Cat in Hm.
  apply (mt_sound _ (nocap_litCI _)) in Hm as (u3 & s3 & -> & _ & Hm).
  rewrite mt_Cap in Hm.
  apply (mt_sound (plus (notIn (qs "`"))) eq_refl) in Hm
    as (w & s4 & -> & _ & Hm).
  inversion Hm; subst. simpl cap.
  rewrite length_app, Nat.add_sub, firstn_app, Nat.sub_diag, firstn_all.
  simpl firstn. rewrite app_nil_r.
  apply Lang_plus_Cls in Hu2 as (c & v & -> & _).
  exists (firstn q tag ++ u1 ++ (c :: v) ++ u3), rest.
  split.
  - rewrite <- (firstn_skipn q tag) at 1. rewrite Hs1.
    rewrite <- !app_assoc. reflexivity.
  - intros H0. apply app_eq_nil in H0 as [_ H0].
    apply app_eq_nil in H0 as [_ H0]. discriminate H0.
Qed.

Lemma startsWithCI_app (needle a b : QString) :
  startsWithCI (T C) needle a = true ->
  startsWithCI (T C) needle (a ++ b) = true.
Proof.
  revert a. induction needle as [|x n IH]; intros [|y a] H; simpl in *;
    try reflexivity; try discriminate.
  apply andb_true_iff in H as [H1 H2]. rewrite H1. simpl. now apply IH.
Qed.

Lemma openers_app (a b : QString) :
  openers (T C) a + openers (T C) b <= openers (T C) (a ++ b).
Proof.
  induction a as [|c a IH]; simpl; [lia|].
  destruct (opens (T C) (c :: a)) eqn:Ho.
  - unfold opens in *.
    pose proof (startsWithCI_app _ (c :: a) b Ho) as Ho'.
    simpl app in Ho'. rewrite Ho'. lia.
  - destruct (opens (T C) (c :: a ++ b)); lia.
Qed.

Lemma openers_le_length (s : QString) : openers (T C) s <= length s.
Proof.
  induction s as [|c s IH]; simpl; [lia|].
  destruct (opens (T C) (c :: s)); lia.
Qed.

Lemma openers_other (c : QChar) (s : QString) :
  c <> qc "<" -> openers (T C) (c :: s) = openers (T C) s.
Proof.
  intros Hc. cbn [openers]. unfold opens.
  change (qs "<audio") with (qc "<" :: qs "audio"). cbn [startsWithCI].
  destruct (N.eqb (toLower (T C) c) (toLower (T C) (qc "<"))) eqn:He;
    [|reflexivity].
  apply N.eqb_eq in He. destruct HT as (H1 & _). now apply H1 in He.
Qed.

(** A double quote ends what could open a tag. *)
Lemma startsWithCI_quote (needle a b : QString) :
  (forall p, In p needle -> toLower (T C) (qc "`") <> toLower (T C) p) ->
  startsWithCI (T C) needle (a ++ qc "`" :: b)
  = startsWithCI (T C) needle a.
Proof.
  revert a. induction needle as [|x n IH]; intros a Hq; [reflexivity|].
  destruct a as [|y a]; simpl.
  - destruct (N.eqb (toLower (T C) (qc "`")) (toLower (T C) x)) eqn:He;
      [|reflexivity].
    apply N.eqb_eq in He. exfalso. apply (Hq x); [now left | exact He].
  - rewrite IH; [reflexivity|]. intros p Hp. apply Hq. now right.
Qed.

Lemma openers_quote (a b : QString) :
  openers (T C) (a ++ qc "`" :: b)
  = openers (T C) a + openers (T C) (qc "`" :: b).
Proof.
  destruct HT as (_ & Hq & _).
  induction a as [|c a IH]; [reflexivity|].
  pose proof (startsWithCI_quote (qs "<audio") (c :: a) b Hq) as Hs.
  change (openers (T C) ((c :: a) ++ qc "`" :: b))
    with ((if opens (T C) ((c :: a) ++ qc "`" :: b) then 1 else 0)
          + openers (T C) (a ++ qc "`" :: b)).
  change (openers (T C) (c :: a))
    with ((if opens (T C) (c :: a) then 1 else 0) + openers (T C) a).
  unfold opens. rewrite Hs, IH. apply Nat.add_assoc.
Qed.

Lemma openers_img (s : QString) :
  openers (T C) (qc "<" :: qc "i" :: s) = openers (T C) (qc "i" :: s).
Proof.
  destruct HT as (_ & _ & _ & Hi & _).
  cbn [openers]. unfold opens at 1.
  change (qs "<audio") with (qc "<" :: qc "a" :: qs "udio").
  cbn [startsWithCI]. apply N.eqb_neq in Hi. rewrite Hi.
  rewrite andb_false_r. reflexivity.
Qed.

Lemma openers_slash (s : QString) :
  openers (T C) (qc "<" :: qc "/" :: s) = openers (T C) (qc "/" :: s).
Proof.
  destruct HT as (_ & _ & _ & _ & Hs).
  cbn [openers]. unfold opens at 1.
  change (qs "<audio") with (qc "<" :: qc "a" :: qs "udio").
  cbn [startsWithCI]. apply N.eqb_neq in Hs. rewrite Hs.
  rewrite andb_false_r. reflexivity.
Qed.

(** The link put in place of an audio tag, its first character apart,
    opens no tag but those of the reference it is given. *)
Lemma openers_playLink (ref tail : QString) :
  openers (T C) (tl (playLink ref) ++ tail)
  = openers (T C) ref + openers (T C) tail.
Proof.
  unfold playLink.
  change (qs "<a href=`") with (qc "<" :: qs "a href=`"). simpl tl.
  repeat rewrite <- app_assoc.
  let a := eval vm_compute in (qs "a href=`") in
  change (qs "a href=`") with a.
  simpl app.
  repeat (rewrite openers_other by discriminate).
  rewrite <- app_assoc. simpl app.
  rewrite (openers_quote ref). f_equal.
  repeat first [ rewrite openers_other by discriminate
               | rewrite openers_img
               | rewrite openers_slash ].
  reflexivity.
Qed.

Lemma openers_skipn (s : QString) (a b : nat) :
  a <= b -> openers (T C) (skipn b s) <= openers (T C) (skipn a s).
Proof.
  intros H. replace b with (a + (b - a)) by lia.
  rewrite Nat.add_comm, <- skipn_skipn.
  rewrite <- (firstn_skipn (b - a) (skipn a s)) at 2.
  pose proof (openers_app (firstn (b - a) (skipn a s))
                          (skipn (b - a) (skipn a s))). lia.
Qed.

(** The loop over the audio tags ends: every round leaves behind it a
    position at which a tag opens, and what it puts in place of a tag
    opens no tag that the tag did not hold. *)
Lemma audioTags_loop_total :
  forall fuel s pos,
    openers (T C) (skipn pos s) < fuel ->
    exists out, audioTags_loop C fuel s pos = Some out.
Proof.
  induction fuel as [|fuel IH]; intros s pos Hfuel; [lia|].
  cbn [audioTags_loop].
  destruct (indexIn (reg1 C) s pos) as [[[p len] cs]|] eqn:Hi; [|eauto].
  apply reg1_indexIn in Hi as (H1 & H2 & Ho).
  cbv zeta.
  assert (Hp : openers (T C) (skipn p s)
               = 1 + openers (T C) (skipn (p + 1) s)).
  { replace (skipn (p + 1) s) with (skipn 1 (skipn p s))
      by (rewrite skipn_skipn; f_equal; lia).
    destruct (skipn p s) as [|c t] eqn:Hs; [discriminate Ho|].
    cbn [openers skipn]. now rewrite Ho. }
  pose proof (openers_skipn s pos p H1) as Hmon.
  set (tag := firstn len (skipn p s)).
  assert (Hlen : length tag = len).
  { unfold tag. rewrite length_firstn, length_skipn. lia. }
  destruct (indexIn (reg2 C) tag 0) as [[[q l2] cs2]|] eqn:H2m;
    [|apply IH; lia].
  apply reg2_capture in H2m as (x & y & Htag & Hx).
  apply IH.
  assert (Hskip : skipn (p + 1)
                        (firstn p s ++ playLink (cap 1 cs2)
                           ++ skipn (p + length tag) s)
                  = tl (playLink (cap 1 cs2)) ++ skipn (p + len) s).
  { rewrite skipn_app, length_firstn, Nat.min_l by lia.
    rewrite skipn_all2 by (rewrite length_firstn; lia).
    replace (p + 1 - p) with 1 by lia. rewrite Hlen. reflexivity. }
  rewrite Hskip, openers_playLink.
  assert (Htail : skipn (p + 1) s = tl tag ++ skipn (p + len) s).
  { replace (skipn (p + 1) s) with (skipn 1 (skipn p s))
      by (rewrite skipn_skipn; f_equal; lia).
    replace (skipn (p + len) s) with (skipn len (skipn p s))
      by (rewrite skipn_skipn; f_equal; lia).
    rewrite <- (firstn_skipn len (skipn p s)) at 1. fold tag.
    destruct tag as [|c t]; [|reflexivity].
    destruct x; [congruence | discriminate Htag]. }
  assert (Hge : openers (T C) (cap 1 cs2)
                + openers (T C) (skipn (p + len) s)
                <= openers (T C) (skipn (p + 1) s)).
  { rewrite Htail, Htag.
    destruct x as [|c x]; [congruence|]. simpl tl.
    rewrite <- !app_assoc.
    pose proof (openers_app x (cap 1 cs2 ++ y ++ skipn (p + len) s)).
    pose proof (openers_app (cap 1 cs2) (y ++ skipn (p + len) s)).
    pose proof (openers_app y (skipn (p + len) s)). lia. }
  lia.
Qed.

(** X19.  [processArticle] returns for every article, the loop over the
    audio tags included, when the case folding of the table keeps the
    punctuation of a tag apart. *)
Theorem processArticle_returns (articleString : QString) :
  (exists out, audioTags C articleString = Some out) /\
  (exists out, processArticle C articleString = Some out).
Proof.
  assert (Haudio : forall s, exists out, audioTags C s = Some out).
  { intros s. unfold audioTags. apply audioTags_loop_total.
    simpl skipn. pose proof (openers_le_length s). lia. }
  split; [apply Haudio|].
  unfold processArticle.
  destruct (fixedArticle_returns C articleString) as [s1 ->].
  destruct (Haudio (absoluteIndexPhp C s1)) as [s2 ->].
  simpl. eauto.
Qed.

End AudioTags.

Lemma asciiTable_tellsApart : tellsApart asciiTable.
Proof.
  unfold tellsApart. simpl.
  split; [|split; [|repeat split; discriminate]].
  - intros x. unfold betw.
    destruct ((65 <=? x)%N && (x <=? 90)%N) eqn:H; intros Hx; [|exact Hx].
    apply andb_true_iff in H as [H1 H2].
    apply N.leb_le in H1, H2.
    assert (Hx' : (x + 32)%N = 60%N) by exact Hx. lia.
  - intros p [<-|[<-|[<-|[<-|[<-|[<-|[]]]]]]]; discriminate.
Qed.

Lemma processArticle_returns_witness :
  tellsApart (Rewrite.T Rewrite.sampleConfig) /\
  exists out,
    Rewrite.processArticle Rewrite.sampleConfig
      (qs "<audio controls><source src=`//upload.wikimedia.org/a.ogg`></audio>")
    = Some out.
Proof.
  split; [exact asciiTable_tellsApart|].
  exact (proj2 (processArticle_returns Rewrite.sampleConfig
                  asciiTable_tellsApart
                  (qs "<audio controls><source src=`//upload.wikimedia.org/a.ogg`></audio>"))).
Defined.

(** ** The src attributes *)

(** A text that holds the longer needle holds the shorter one. *)
Lemma srcHost_holds_srcRoot (t : QString) :
  Rewrite.contains Rewrite.srcRoot t = false ->
  Rewrite.contains Rewrite.srcHost t = false.
Proof.
  unfold Rewrite.contains. intros H.
  destruct (findFrom Rewrite.srcHost t 0) as [p|] eqn:Hh; [|reflexivity].
  exfalso.
  apply findFrom_Some in Hh as (a & b & Hab & _).
  assert (Hin : exists p, findFrom Rewrite.srcRoot t 0 = Some p).
  { rewrite Hab.
    change Rewrite.srcHost
      with ([qc " "] ++ Rewrite.srcRoot ++ [qc "/"]).
    rewrite <- !app_assoc, app_assoc.
    generalize (a ++ [qc " "]) as pre, 0.
    induction pre as [|x pre IHp]; intros n.
    - simpl. eauto.
    - simpl app. cbn [findFrom].
      destruct (startsWith Rewrite.srcRoot _); eauto. }
  destruct Hin as [p' Hp']. rewrite Hp' in H. discriminate H.
Qed.

Section SourceUrls.
Import Rewrite.

(** Dropping the characters of a match is going on behind them. *)
Lemma replaceFrom_skip (before after : QString) (k : nat) (s : QString) :
  replaceFrom before after k s = replaceFrom before after 0 (skipn k s).
Proof.
  revert s. induction k as [|k IH]; intros s; [reflexivity|].
  destruct s as [|c s]; [reflexivity|]. simpl. apply IH.
Qed.

(** A needle is nowhere in a text put together of two, when it begins
    nowhere in the first and is nowhere in the second. *)
Lemma findFrom_app_None (needle a b : QString) :
  (forall a1 a2, a = a1 ++ a2 -> a2 <> [] ->
                 startsWith needle (a2 ++ b) = false) ->
  findFrom needle b 0 = None ->
  forall n, findFrom needle (a ++ b) n = None.
Proof.
  induction a as [|c a IH]; intros Ha Hb n.
  - simpl. exact (findFrom_None _ _ 0 n Hb).
  - simpl app. cbn [findFrom].
    assert (H0 : startsWith needle (c :: a ++ b) = false)
      by (apply (Ha [] (c :: a) eq_refl); discriminate).
    rewrite H0.
    apply IH; [|exact Hb].
    intros a1 a2 -> Hne. apply (Ha (c :: a1) a2 eq_refl Hne).
Qed.

(** What the pass copies keeps the text that follows the letter s of
    the needle. *)
Lemma copied_behind (after : QString) (q s : QString) :
  ~ In (qc "s") q ->
  startsWith q (replaceFrom srcRoot (qs "s" ++ after) 0 s) = true ->
  startsWith q s = true.
Proof.
  revert s. induction q as [|x q IH]; intros s Hq H; [reflexivity|].
  destruct s as [|c s]; [exact H|].
  cbn [replaceFrom] in H.
  destruct (startsWith srcRoot (c :: s)) eqn:Hm.
  - exfalso. simpl in H. apply andb_true_iff in H as [H _].
    apply N.eqb_eq in H. apply Hq. left. exact H.
  - cbn [startsWith] in *. apply andb_true_iff in H as [H1 H2].
    rewrite H1. simpl. apply IH; [|exact H2].
    intros Hin. apply Hq. now right.
Qed.

Lemma last_behind (a1 a2 : QString) (d : QChar) :
  a2 <> [] -> last (a1 ++ a2) d = last a2 d.
Proof.
  intros Hne. induction a1 as [|x a1 IH]; [reflexivity|].
  simpl app. cbn [last]. destruct (a1 ++ a2) eqn:E; [|exact IH].
  apply app_eq_nil in E as [_ E]. congruence.
Qed.

(** The needle begins nowhere in the url put in place of the slash. *)
Lemma rooted_tail (wikiUrl a1 a2 rest : QString) :
  rooted wikiUrl -> wikiUrl = a1 ++ a2 -> a2 <> [] ->
  startsWith srcRoot (a2 ++ rest) = false.
Proof.
  intros (_ & Hlast & Hq) -> Hne.
  assert (Hl : last a2 (qc " ") = qc "/").
  { rewrite <- Hlast. symmetry. apply last_behind. exact Hne. }
  assert (Hq2 : ~ In (qc "`") a2).
  { intros Hin. apply Hq. apply in_or_app. now right. }
  clear Hlast Hq Hne.
  destruct (startsWith srcRoot (a2 ++ rest)) eqn:Hs; [|reflexivity].
  exfalso.
  change srcRoot
    with [qc "s"; qc "r"; qc "c"; qc "="; qc "`"; qc "/"] in Hs.
  destruct a2 as [|c1 a2]; [discriminate Hl|].
  simpl app in Hs. cbn [startsWith] in Hs.
  apply andb_true_iff in Hs as [E1 Hs]. apply N.eqb_eq in E1.
  destruct a2 as [|c2 a2];
    [cbn [last] in Hl; rewrite Hl in E1; discriminate E1|].
  simpl app in Hs. cbn [startsWith] in Hs.
  apply andb_true_iff in Hs as [E2 Hs]. apply N.eqb_eq in E2.
  destruct a2 as [|c3 a2];
    [cbn [last] in Hl; rewrite Hl in E2; discriminate E2|].
  simpl app in Hs. cbn [startsWith] in Hs.
  apply andb_true_iff in Hs as [E3 Hs]. apply N.eqb_eq in E3.
  destruct a2 as [|c4 a2];
    [cbn [last] in Hl; rewrite Hl in E3; discriminate E3|].
  simpl app in Hs. cbn [startsWith] in Hs.
  apply andb_true_iff in Hs as [E4 Hs]. apply N.eqb_eq in E4.
  destruct a2 as [|c5 a2];
    [cbn [last] in Hl; rewrite Hl in E4; discriminate E4|].
  simpl app in Hs. cbn [startsWith] in Hs.
  apply andb_true_iff in Hs as [E5 _]. apply N.eqb_eq in E5.
  apply Hq2. right. right. right. right. left. symmetry. exact E5.
Qed.

Lemma replace_srcRoot_loop (wikiUrl : QString) :
  rooted wikiUrl ->
  forall n s, length s <= n ->
    findFrom srcRoot (replaceFrom srcRoot (qs "src=`" ++ wikiUrl) 0 s) 0
    = None.
Proof.
  intros Hw. induction n as [|n IH]; intros s Hn.
  - destruct s; [reflexivity | simpl in Hn; lia].
  - destruct s as [|c s]; [reflexivity|].
    cbn [replaceFrom].
    destruct (startsWith srcRoot (c :: s)) eqn:Hm.
    + rewrite replaceFrom_skip.
      assert (Hrest : findFrom srcRoot
                (replaceFrom srcRoot (qs "src=`" ++ wikiUrl) 0
                   (skipn (length srcRoot - 1) s)) 0 = None).
      { apply IH. rewrite length_skipn. simpl in Hn. lia. }
      set (X := replaceFrom srcRoot (qs "src=`" ++ wikiUrl) 0
                  (skipn (length srcRoot - 1) s)) in *.
      rewrite <- app_assoc.
      apply findFrom_app_None.
      * intros a1 a2 Ha Hne.
        destruct Hw as (Hhd & Hw').
        destruct a1 as [|x1 a1].
        { simpl in Ha. subst a2.
          destruct wikiUrl as [|w wikiUrl'].
          - simpl in Hw'. destruct Hw' as [Hl _]. discriminate Hl.
          - assert (E : N.eqb (qc "/") w = false).
            { apply N.eqb_neq. intros E. apply Hhd. simpl.
              symmetry. exact E. }
            simpl. simpl in E. rewrite E. reflexivity. }
        destruct a2 as [|y a2]; [congruence|].
        assert (Hy : y <> qc "s").
        { intros ->.
          change (qs "src=`") with [qc "s"; qc "r"; qc "c"; qc "="; qc "`"]
            in Ha.
          simpl app in Ha. injection Ha as _ Ha.
          assert (Hin : In (qc "s") (a1 ++ qc "s" :: a2))
            by (apply in_or_app; right; now left).
          rewrite <- Ha in Hin.
          destruct Hin as [E|[E|[E|[E|[]]]]]; discriminate E. }
        assert (E : N.eqb (qc "s") y = false).
        { apply N.eqb_neq. intros E. apply Hy. symmetry. exact E. }
        change srcRoot with (qc "s" :: qs "rc=`/").
        simpl app. cbn [startsWith]. rewrite E. reflexivity.
      * apply findFrom_app_None; [|exact Hrest].
        intros a1 a2 Ha Hne. exact (rooted_tail _ _ _ _ Hw Ha Hne).
    + cbn [findFrom].
      assert (Hrest : findFrom srcRoot
                (replaceFrom srcRoot (qs "src=`" ++ wikiUrl) 0 s) 0 = None).
      { apply IH. simpl in Hn. lia. }
      rewrite (findFrom_None _ _ 0 1 Hrest).
      destruct (startsWith srcRoot
                  (c :: replaceFrom srcRoot (qs "src=`" ++ wikiUrl) 0 s))
        eqn:Hs; [|reflexivity].
      exfalso.
      change srcRoot with (qc "s" :: qs "rc=`/") in Hs, Hm.
      cbn [startsWith] in Hs, Hm.
      apply andb_true_iff in Hs as [Hc Hs]. rewrite Hc in Hm.
      cbn [andb] in Hm.
      apply (copied_behind (qs "rc=`" ++ wikiUrl)) in Hs.
      * congruence.
      * intros [E|[E|[E|[E|[E|[]]]]]]; discriminate E.
Qed.

(** X20.  When the url with the path / is the text of an absolute url,
    [processArticle]'s two replacements of src attributes leave no src
    attribute that begins with a slash: neither a root-relative nor a
    protocol-relative one is left in the text. *)
Theorem qualifySrc_leaves_no_rootless_src (C : Config) (s : QString) :
  rooted (wikiUrl C) ->
  contains srcRoot (qualifySrc C s) = false /\
  contains srcHost (qualifySrc C s) = false.
Proof.
  intros Hw.
  assert (H : findFrom srcRoot (qualifySrc C s) 0 = None).
  { unfold qualifySrc, replace at 1.
    apply (replace_srcRoot_loop _ Hw _ _ (Nat.le_refl _)). }
  assert (Hc : contains srcRoot (qualifySrc C s) = false)
    by (unfold contains; now rewrite H).
  split; [exact Hc | exact (srcHost_holds_srcRoot _ Hc)].
Qed.

End SourceUrls.

Lemma qualifySrc_leaves_no_rootless_src_witness :
  rooted (Rewrite.wikiUrl Rewrite.sampleConfig) /\
  Rewrite.contains Rewrite.srcRoot
    (Rewrite.qualifySrc Rewrite.sampleConfig
       (qs "<img src=`/a.png`><img src=`//h/b.png`>")) = false.
Proof.
  assert (Hw : rooted (Rewrite.wikiUrl Rewrite.sampleConfig)).
  { unfold rooted. simpl. repeat split; try discriminate.
    intros H. repeat (destruct H as [H|H]; [discriminate H|]). exact H. }
  split; [exact Hw|].
  exact (proj1 (qualifySrc_leaves_no_rootless_src Rewrite.sampleConfig
                  (qs "<img src=`/a.png`><img src=`//h/b.png`>") Hw)).
Defined.

(** ** The Qt 4 branch of [underscoresToSpacesInLinks] *)

(** A pass keeps a relation between the characters when what it puts in
    place of each match does. *)
Lemma rewriteFrom_pointwise_matches (R : QChar -> QChar -> Prop) (r : regex)
                                    (f : QString -> Caps -> QString) :
  (forall c, R c c) ->
  (forall s rest cs, matchAt r s = Some (rest, cs) ->
     Forall2 R (firstn (length s - length rest) s)
               (f (firstn (length s - length rest) s) cs)) ->
  forall s, Forall2 R s (rewriteFrom r f 0 s).
Proof.
  intros Hrefl Hf s.
  remember (length s) as n eqn:Hn.
  assert (Hle : length s <= n) by lia. clear Hn. revert s Hle.
  induction n as [|n IH]; intros [|c s] Hle; simpl in Hle;
    try constructor; try lia.
  - cbn [rewriteFrom].
    destruct (matchAt r (c :: s)) as [[rest cs]|] eqn:Hm.
    + cbv zeta. specialize (Hf _ _ _ Hm).
      destruct (length (c :: s) - length rest) as [|k] eqn:Hlen.
      * simpl firstn in *. inversion Hf.
        simpl. constructor; [apply Hrefl | apply IH; lia].
      * rewrite rewriteFrom_skip.
        rewrite <- (firstn_skipn (S k) (c :: s)) at 1.
        apply Forall2_app; [exact Hf|].
        simpl skipn. apply IH. rewrite length_skipn. lia.
    + constructor; [apply Hrefl | apply IH; lia].
Qed.

Section Qt4Branch.
Import Rewrite Qt4.

Lemma spaced_refl (l : QString) : Forall2 spaced l l.
Proof. induction l; constructor; [now left | assumption]. Qed.

Lemma spaced_trans (a b c : QString) :
  Forall2 spaced a b -> Forall2 spaced b c -> Forall2 spaced a c.
Proof.
  intros Hab. revert c. induction Hab as [|x y a b Hxy Hab IH];
    intros c Hbc; inversion Hbc; subst; constructor.
  - match goal with H : spaced y _ |- _ => destruct H as [E3|[E3 E4]] end;
      destruct Hxy as [E1|[E1 E2]]; subst; unfold spaced;
      try discriminate; auto.
  - now apply IH.
Qed.

(** What the pattern of the loop matches, and what is put in its
    place. *)
Lemma underscoreLink_match (s rest : QString) (cs : Caps) :
  matchAt underscoreLink s = Some (rest, cs) ->
  exists w,
    firstn (length s - length rest) s = qs "<a href=`" ++ w ++ [qc "_"] /\
    expand 1 cs (qs "<a href=`\1 ") = qs "<a href=`" ++ w ++ [qc " "].
Proof.
  unfold matchAt, underscoreLink. cbn [seq]. intros Hm.
  rewrite mt_Cat in Hm.
  apply (mt_sound _ (nocap_lit _)) in Hm as (u & s1 & -> & Hu & Hm).
  apply Lang_lit in Hu. subst u.
  rewrite mt_Cat, mt_Cap in Hm.
  apply (mt_sound (star (notIn (qs "/:`>#"))) eq_refl) in Hm
    as (w & s2 & -> & _ & Hm).
  rewrite length_app, Nat.add_sub, firstn_app, Nat.sub_diag, firstn_all in Hm.
  simpl firstn in Hm. rewrite app_nil_r in Hm.
  apply (mt_sound (chr (qc "_")) eq_refl) in Hm as (v & s3 & -> & Hv & Hk).
  inversion Hk; subst. inversion Hv; subst.
  match goal with Hc : N.eqb _ _ = true |- _ =>
    apply N.eqb_eq in Hc; subst end.
  exists w. split.
  - replace (qs "<a href=`" ++ w ++ [qc "_"] ++ rest)
      with ((qs "<a href=`" ++ w ++ [qc "_"]) ++ rest)
      by (now rewrite <- !app_assoc).
    rewrite length_app, Nat.add_sub, firstn_app, Nat.sub_diag, firstn_all.
    simpl firstn. apply app_nil_r.
  - reflexivity.
Qed.

(** One pass of the loop works in place. *)
Lemma underscorePass_spaced (s : QString) :
  Forall2 spaced s (underscorePass s).
Proof.
  unfold underscorePass, Qt4x5_Regex_replace, replaceRx.
  apply rewriteFrom_pointwise_matches; [intros c; now left|].
  intros t rest cs Hm.
  apply underscoreLink_match in Hm as (w & -> & ->).
  apply Forall2_app; [apply spaced_refl|].
  apply Forall2_app; [apply spaced_refl|].
  constructor; [right; now split | constructor].
Qed.

(** A pass that changes the text takes an underscore away. *)
Lemma spaced_count (a b : QString) :
  Forall2 spaced a b ->
  count_occ N.eq_dec b (qc "_") <= count_occ N.eq_dec a (qc "_") /\
  (b <> a -> count_occ N.eq_dec b (qc "_") < count_occ N.eq_dec a (qc "_")).
Proof.
  induction 1 as [|x y a b Hxy Hab [IH1 IH2]]; [split; [lia | congruence]|].
  destruct Hxy as [->|[-> ->]].
  - cbn [count_occ]. destruct (N.eq_dec x (qc "_")).
    + split; [lia|]. intros Hne.
      assert (b <> a) by congruence. specialize (IH2 H). lia.
    + split; [lia|]. intros Hne.
      assert (b <> a) by congruence. specialize (IH2 H). lia.
  - cbn [count_occ].
    destruct (N.eq_dec (qc " ") (qc "_")) as [E|_]; [discriminate E|].
    destruct (N.eq_dec (qc "_") (qc "_")) as [_|E]; [|congruence].
    split; [lia|]. intros _. lia.
Qed.

Lemma underscoresLoop_ends :
  forall fuel s,
    count_occ N.eq_dec s (qc "_") < fuel ->
    exists out, underscoresLoop fuel s = Some out /\
                Forall2 spaced s out /\ underscorePass out = out.
Proof.
  induction fuel as [|fuel IH]; intros s Hfuel; [lia|].
  cbn [underscoresLoop]. cbv zeta.
  pose proof (underscorePass_spaced s) as Hs.
  destruct (eqs (underscorePass s) s) eqn:He.
  - apply eqs_eq in He. exists (underscorePass s).
    split; [reflexivity|]. split; [exact Hs|].
    rewrite He at 1. rewrite He. reflexivity.
  - assert (Hne : underscorePass s <> s).
    { intros E. apply eqs_eq in E. congruence. }
    destruct (spaced_count _ _ Hs) as [_ Hlt]. specialize (Hlt Hne).
    destruct (IH (underscorePass s)) as (out & Ho & Hso & Hfix); [lia|].
    exists out. split; [exact Ho|]. split; [|exact Hfix].
    exact (spaced_trans _ _ _ Hs Hso).
Qed.

(** X21.  The Qt 4 branch of [underscoresToSpacesInLinks], which is also
    the loop of the earlier revision, ends for every article: a round
    that changes the text turns at least one underscore into a space.
    It works in place, the text keeps its length and every character
    stays what it was or is an underscore that became a space, and the
    text it leaves is one that a further round does not change. *)
Theorem underscores_loop_ends (articleString : QString) :
  exists out,
    Qt4.underscoresToSpacesInLinks articleString = Some out /\
    length out = length articleString /\
    Forall2 spaced articleString out /\
    underscorePass out = out.
Proof.
  destruct (underscoresLoop_ends (S (length articleString)) articleString)
    as (out & Ho & Hs & Hfix).
  - apply Nat.lt_succ_r.
    exact (count_occ_bound N.eq_dec (qc "_") articleString).
  - exists out. split; [exact Ho|]. split; [|split; assumption].
    symmetry. exact (Forall2_length Hs).
Qed.

End Qt4Branch.

(** ** Text without tags *)

Lemma Leads_mt (P : QChar -> Prop) (r : regex) :
  Leads P r ->
  forall s cs k, ~ P (hd (qc "<") s) \/ s = [] -> mt r s cs k = None.
Proof.
  induction 1 as [p Hp|a b _ IH|n a _ IH]; intros s cs k Hs.
  - destruct s as [|c s]; [reflexivity|]. simpl.
    destruct (p c) eqn:Hc; [|reflexivity].
    destruct Hs as [Hs|Hs]; [|discriminate Hs].
    exfalso. apply Hs. simpl. now apply Hp.
  - cbn [mt]. now apply IH.
  - cbn [mt]. now apply IH.
Qed.

Lemma Leads_search (P : QChar -> Prop) (r : regex) (s : QString) :
  Leads P r -> Forall (fun c => ~ P c) s ->
  forall pos, search r s pos = None.
Proof.
  intros Hr Hs. induction Hs as [|c s Hc Hs IH]; intros pos.
  - cbn [search]. unfold matchAt. rewrite (Leads_mt P r Hr); auto.
  - cbn [search]. unfold matchAt. rewrite (Leads_mt P r Hr); auto.
Qed.

Lemma Leads_occurs (P : QChar -> Prop) (r : regex) (s : QString) :
  Leads P r -> Forall (fun c => ~ P c) s -> Rewrite.occurs r s = false.
Proof.
  intros Hr Hs. unfold Rewrite.occurs. now rewrite (Leads_search P r s Hr Hs).
Qed.

Lemma Leads_lit (c : QChar) (l : QString) :
  Leads (fun x => x = c) (lit (c :: l)).
Proof.
  unfold lit. destruct l as [|d l]; simpl.
  - constructor. intros x Hx. apply N.eqb_eq in Hx. now symmetry.
  - constructor. constructor. intros x Hx. apply N.eqb_eq in Hx.
    now symmetry.
Qed.

Lemma Leads_litCI (T : CharTable) (c : QChar) (l : QString) :
  (forall x, toLower T x = toLower T c -> x = c) ->
  Leads (fun x => x = c) (litCI T (c :: l)).
Proof.
  intros HT. unfold litCI. destruct l as [|d l]; simpl.
  - constructor. intros x Hx. apply N.eqb_eq in Hx. now apply HT.
  - constructor. constructor. intros x Hx. apply N.eqb_eq in Hx.
    now apply HT.
Qed.

Section PlainText.
Import Rewrite.
Variable C : Config.
Hypothesis HT :
  forall x, toLower (T C) x = toLower (T C) (qc "<") -> x = qc "<".

Variable s : QString.
Hypothesis Hs : ~ In (qc "<") s.

Lemma plain_Forall : Forall (fun c => ~ lessThan c) s.
Proof.
  apply Forall_forall. intros c Hc E. unfold lessThan in E. subst c.
  exact (Hs Hc).
Qed.

Lemma plain_lit (l : QString) (rs : list regex) :
  occurs (seq (lit (qc "<" :: l) :: rs)) s = false.
Proof.
  apply (Leads_occurs lessThan); [|exact plain_Forall].
  destruct rs as [|r rs]; cbn [seq]; [|constructor]; apply Leads_lit.
Qed.

Lemma plain_litCI (l : QString) (rs : list regex) :
  occurs (seq (litCI (T C) (qc "<" :: l) :: rs)) s = false.
Proof.
  apply (Leads_occurs lessThan); [|exact plain_Forall].
  destruct rs as [|r rs]; cbn [seq]; [|constructor];
    apply Leads_litCI; exact HT.
Qed.

End PlainText.

(** X22.  [processArticle] gives back unchanged a text that holds no
    less-than sign and no src attribute that begins with a slash: every
    pattern it rewrites begins with the opening of a tag, but for the
    two replacements of src attributes, which look at text outside tags
    as well. *)
Theorem processArticle_keeps_plain_text (C : Rewrite.Config) (s : QString) :
  (forall x, toLower (Rewrite.T C) x = toLower (Rewrite.T C) (qc "<") ->
             x = qc "<") ->
  ~ In (qc "<") s ->
  Rewrite.contains Rewrite.srcRoot s = false ->
  Rewrite.processArticle C s = Some s.
Proof.
  intros HT Hs Hsrc. unfold Rewrite.processArticle.
  assert (O1 : Rewrite.occurs (Rewrite.linkPrefix C) s = false)
    by apply (plain_lit s Hs (qs "a")).
  assert (O2 : Rewrite.occurs (Rewrite.indexPhp C) s = false)
    by apply (plain_lit s Hs (qs "a")).
  assert (O3 : Rewrite.occurs (Rewrite.reg1 C) s = false)
    by apply (plain_litCI C HT s Hs (qs "audio")).
  assert (O4 : Rewrite.occurs (Rewrite.audioUrl C) s = false)
    by apply (plain_lit s Hs (qs "a")).
  assert (O5 : Rewrite.occurs (Rewrite.wikiPrefix C) s = false)
    by apply (plain_lit s Hs (qs "a")).
  assert (O6 : Rewrite.occurs (Rewrite.audioButton C) s = false)
    by apply (plain_lit s Hs (qs "button")).
  assert (O7 : Rewrite.occurs (Rewrite.linkRegex C) s = false)
    by apply (plain_lit s Hs (qs "a")).
  assert (O8 : Rewrite.occurs (Rewrite.fileLink C) s = false)
    by apply (plain_litCI C HT s Hs (qs "a")).
  assert (H1 : Rewrite.fixedArticle C s = Some s).
  { unfold Rewrite.fixedArticle. cbn [Rewrite.fixedArticle_loop].
    rewrite (indexIn_no_match _ _ O1). reflexivity. }
  rewrite H1.
  assert (H2 : Rewrite.absoluteIndexPhp C s = s)
    by apply (Qt4x5_replace_no_match _ _ _ _ O2).
  rewrite H2.
  assert (H3 : Rewrite.audioTags C s = Some s).
  { unfold Rewrite.audioTags. cbn [Rewrite.audioTags_loop].
    rewrite (indexIn_no_match _ _ O3). reflexivity. }
  rewrite H3. cbn [Rewrite.andThen].
  assert (H4 : Rewrite.schemeQualify C s = s).
  { unfold Rewrite.schemeQualify, Rewrite.qualifySrc, Rewrite.qualifyAudioUrl.
    rewrite (Qt4x5_replace_no_match _ _ _ _ O4).
    rewrite (replace_no_match _ _ _ (srcHost_holds_srcRoot _ Hsrc)).
    apply replace_no_match. exact Hsrc. }
  rewrite H4.
  assert (H5 : Rewrite.stripWikiPrefix C s = s)
    by apply (replaceRx_no_match _ _ _ _ O5).
  rewrite H5.
  assert (H6 : Rewrite.fixAudioButtons C s = s)
    by apply (replaceRx_no_match _ _ _ _ O6).
  rewrite H6.
  assert (H7 : Rewrite.underscoresToSpacesInLinks C s = s)
    by apply (rewriteFrom_no_match _ _ _ (occurs_false _ _ O7)).
  rewrite H7.
  assert (H8 : Rewrite.fixFileLinks C s = s)
    by apply (Qt4x5_replace_no_match _ _ _ _ O8).
  rewrite H8. reflexivity.
Qed.

Lemma processArticle_keeps_plain_text_witness :
  Rewrite.processArticle Rewrite.sampleConfig
    (qs "a > b, src=`x.png`") = Some (qs "a > b, src=`x.png`").
Proof.
  apply processArticle_keeps_plain_text.
  - intros x. simpl. unfold betw.
    destruct ((65 <=? x)%N && (x <=? 90)%N) eqn:H; intros Hx; [|exact Hx].
    apply andb_true_iff in H as [H1 H2].
    apply N.leb_le in H1, H2.
    assert (Hx' : (x + 32)%N = 60%N) by exact Hx. lia.
  - intros H. repeat (destruct H as [H|H]; [discriminate H|]). exact H.
  - reflexivity.
Defined.

(** ** The loop over the links of the earlier revision *)

(** A pass over a text, up to and over its first match. *)
Lemma rewriteFrom_first_match (r : regex) (f : QString -> Caps -> QString) :
  forall t pos p rest cs,
    search r t pos = Some (p, (rest, cs)) ->
    exists q, p = pos + q /\ q <= length t /\
      (0 < length t - q - length rest ->
       rewriteFrom r f 0 t
       = firstn q t
           ++ f (firstn (length t - q - length rest) (skipn q t)) cs
           ++ rewriteFrom r f 0
                (skipn (q + (length t - q - length rest)) t)).
Proof.
  induction t as [|c t IH]; intros pos p rest cs H.
  - cbn [search] in H. destruct (matchAt r []); [|discriminate].
    inversion H; subst. exists 0. split; [lia|]. split; [simpl; lia|].
    simpl. lia.
  - cbn [search] in H. destruct (matchAt r (c :: t)) as [[rest' cs']|] eqn:Hm.
    + inversion H; subst. exists 0. split; [lia|]. split; [simpl; lia|].
      intros Hlen. cbn [rewriteFrom]. rewrite Hm. cbv zeta.
      rewrite Nat.sub_0_r in Hlen |- *.
      destruct (length (c :: t) - length rest) as [|k] eqn:Hk; [lia|].
      rewrite rewriteFrom_skip. reflexivity.
    + apply IH in H as (q & -> & Hq & Hrw).
      exists (S q). split; [lia|]. split; [simpl; lia|].
      intros Hlen. cbn [rewriteFrom]. rewrite Hm.
      simpl length in Hlen |- *.
      replace (S (length t) - S q - length rest)
        with (length t - q - length rest) in * by lia.
      rewrite (Hrw Hlen). reflexivity.
Qed.

Lemma firstn_add_skipn {A} (a : list A) (n m : nat) :
  firstn (n + m) a = firstn n a ++ firstn m (skipn n a).
Proof.
  revert a. induction n as [|n IH]; intros a; [reflexivity|].
  destruct a as [|x a]; simpl.
  - now rewrite firstn_nil.
  - now rewrite IH.
Qed.

Lemma firstn_app_exact {A} (l1 l2 : list A) :
  firstn (length l1) (l1 ++ l2) = l1.
Proof.
  rewrite firstn_app, Nat.sub_diag, firstn_all. simpl. apply app_nil_r.
Qed.

Lemma skipn_app_exact {A} (l1 l2 : list A) :
  skipn (length l1) (l1 ++ l2) = l2.
Proof. rewrite skipn_app, Nat.sub_diag, skipn_all. reflexivity. Qed.

Section LegacyLinkLoop.
Import LegacyLinks.
Variable T : CharTable.

(** What the pattern matches is not empty. *)
Lemma regLinks_match (s rest : QString) (cs : Caps) :
  matchAt (regLinks T) s = Some (rest, cs) -> length rest < length s.
Proof.
  unfold matchAt, regLinks. cbn [seq]. intros Hm.
  rewrite mt_Cat in Hm.
  apply (mt_sound _ (nocap_lit _)) in Hm as (u & s1 & -> & Hu & Hm).
  apply Lang_lit in Hu. subst u.
  rewrite mt_Cat in Hm.
  apply (mt_sound (plus (Cls (isSpace T))) eq_refl) in Hm
    as (u2 & s2 & -> & _ & Hm).
  rewrite mt_Cat in Hm.
  apply (mt_sound _ (nocap_lit _)) in Hm as (u3 & s3 & -> & _ & Hm).
  rewrite mt_Cat, mt_Cap in Hm.
  apply (mt_sound (plus (notIn (qs "`"))) eq_refl) in Hm
    as (w & s4 & -> & _ & Hm).
  apply (mt_sound (chr (qc "`")) eq_refl) in Hm as (v & s5 & -> & _ & Hk).
  inversion Hk; subst. rewrite !length_app. simpl. lia.
Qed.

(** The path of a link that is not external is fixed as [fixUrl] fixes
    it. *)
Lemma opening_internal (m : QString) (cs : Caps) :
  (indexOf (cap 1 cs) (qs "://") 0 >=? 0)%Z = false ->
  opening m cs
  = qs "<a href=`/"
      ++ (let link := cap 1 cs in
          let link := if (indexOf link [qc ":"] 0 >=? 0)%Z
                      then replaceChar (qc ":") (qs "%3A") link
                      else link in
          let n := indexOf link [qc "#"] 1 in
          if (n >? 0)%Z then
            let anchor :=
              replaceChar (qc "_") (qs "%5F") (mid link (n + 1) (-1)) in
            firstn (Z.to_nat n) link ++ qs "?gdanchor=" ++ anchor
          else link)
      ++ [qc "`"].
Proof.
  intros He. unfold opening, Rewrite.fixUrl. rewrite He. reflexivity.
Qed.

(** The loop never scans again what it has written: at every round the
    text is what one pass has made of the text up to the position,
    followed by the rest of the article as it was. *)
Lemma linksLoop_pass :
  forall fuel articleString pos,
    pos <= length articleString ->
    length articleString - pos < fuel ->
    linksLoop T fuel articleString pos
    = Some (firstn pos articleString
              ++ rewriteFrom (regLinks T) opening 0 (skipn pos articleString)).
Proof.
  induction fuel as [|fuel IH]; intros a pos Hpos Hfuel; [lia|].
  cbn [linksLoop]. unfold indexIn.
  assert (Hl : (length a <? pos) = false) by (apply Nat.ltb_ge; lia).
  rewrite Hl.
  destruct (search (regLinks T) (skipn pos a) pos) as [[p [rest cs]]|] eqn:Hs.
  - pose proof Hs as Hs'.
    apply (rewriteFrom_first_match _ opening) in Hs' as (q & -> & Hq & Hrw).
    apply search_Some in Hs as (pre & Hp & _ & _ & Hm).
    assert (q = length pre) by lia. subst q. clear Hp.
    apply regLinks_match in Hm.
    rewrite !length_skipn in *.
    set (size := length a - pos - length pre - length rest) in *.
    replace (length a - (pos + length pre) - length rest) with size by lia.
    assert (Hsize : 0 < size) by (unfold size; lia).
    specialize (Hrw Hsize). rewrite Hrw.
    rewrite !skipn_skipn.
    replace (length pre + size + pos) with (pos + length pre + size) by lia.
    replace (length pre + pos) with (pos + length pre) by lia.
    set (p := pos + length pre) in *.
    assert (Hfirst : firstn pos a ++ firstn (length pre) (skipn pos a)
                     = firstn p a)
      by (unfold p; now rewrite firstn_add_skipn).
    cbv zeta.
    destruct (indexOf (cap 1 cs) (qs "://") 0 >=? 0)%Z eqn:He.
    + rewrite IH by lia.
      unfold opening at 2. rewrite He.
      rewrite firstn_add_skipn, <- Hfirst, <- !app_assoc.
      unfold p. reflexivity.
    + rewrite (opening_internal _ _ He). cbv zeta.
      match goal with
      | |- linksLoop T fuel (firstn p a ++ ?nl ++ _) _ = _ =>
          set (newLink := nl)
      end.
      assert (Hlen : length (firstn p a) = p)
        by (rewrite length_firstn; lia).
      assert (Hpl : length (firstn p a ++ newLink) = p + length newLink)
        by (rewrite length_app, Hlen; reflexivity).
      rewrite IH.
      * replace (firstn (p + length newLink)
                   (firstn p a ++ newLink ++ skipn (p + size) a))
          with (firstn p a ++ newLink).
        2:{ rewrite app_assoc, <- Hpl. symmetry. apply firstn_app_exact. }
        replace (skipn (p + length newLink)
                   (firstn p a ++ newLink ++ skipn (p + size) a))
          with (skipn (p + size) a).
        2:{ rewrite app_assoc, <- Hpl. symmetry. apply skipn_app_exact. }
        rewrite <- Hfirst, <- !app_assoc. reflexivity.
      * rewrite !length_app, Hlen, length_skipn. lia.
      * rewrite !length_app, Hlen, length_skipn. lia.
  - rewrite (rewriteFrom_no_match _ _ _ (search_None _ _ _ 0 Hs)).
    now rewrite firstn_skipn.
Qed.

(** X23.  The loop over the links of the earlier revision ends for every
    article, and what it leaves is what one pass from left to right
    leaves that puts, in place of the opening of each link to a path
    from the root, the opening with the path fixed as
    [RootBasedUrlFixer::fixUrl] of the current revision fixes it (an
    external link stays as it is): the text the loop writes is never
    scanned again. *)
Theorem earlier_link_loop_is_one_pass (articleString : QString) :
  fixedLinks T articleString
  = Some (rewriteFrom (regLinks T) opening 0 articleString).
Proof.
  unfold fixedLinks.
  rewrite linksLoop_pass by (simpl; lia).
  reflexivity.
Qed.

End LegacyLinkLoop.

(** ** The loops over the links of the two revisions *)

(** *** What the patterns match, when *)

Lemma mt_lit_complete (L s : QString) (cs : Caps)
                      (k : QString -> Caps -> option Match) :
  mt (lit L) (L ++ s) cs k = k s cs.
Proof.
  unfold lit. revert s cs k. induction L as [|c L IH]; intros s cs k;
    [reflexivity|].
  destruct L as [|d L].
  - simpl. now rewrite N.eqb_refl.
  - change (seq (map chr (c :: d :: L)))
      with (Cat (chr c) (seq (map chr (d :: L)))).
    cbn [mt]. simpl app. cbn [chr mt]. rewrite N.eqb_refl.
    apply (IH s cs k).
Qed.

(** A greedy repetition of a class takes the whole run of the class
    when what follows the run is accepted. *)
Lemma mt_Rep_run (p : QChar -> bool) (s : QString) (cs : Caps)
                 (k : QString -> Caps -> option Match) (m : Match) :
  match s with [] => True | c :: _ => p c = false end ->
  k s cs = Some m ->
  forall w, Forall (fun c => p c = true) w ->
  mt (Rep true (Cls p)) (w ++ s) cs k = Some m.
Proof.
  intros Hs Hk w Hw. cbn [mt].
  remember (length (w ++ s)) as fuel eqn:Hf.
  assert (Hle : length w <= fuel) by (subst; rewrite length_app; lia).
  clear Hf. revert w Hw Hle.
  induction fuel as [|fuel IH]; intros w Hw Hle.
  - destruct w; [exact Hk | simpl in Hle; lia].
  - destruct w as [|c w].
    + simpl app. destruct s as [|c s]; [now rewrite Hk|].
      rewrite Hs. now rewrite Hk.
    + apply Forall_cons_iff in Hw as [Hc Hw]. simpl app.
      cbn [mt]. rewrite Hc.
      assert (Hlt : (length (w ++ s) <? length (c :: w ++ s)) = true)
        by (apply Nat.ltb_lt; simpl; lia).
      rewrite Hlt. rewrite IH; [reflexivity | assumption | simpl in Hle; lia].
Qed.

Lemma mt_plus_run (p : QChar -> bool) (s : QString) (cs : Caps)
                  (k : QString -> Caps -> option Match) (m : Match) :
  match s with [] => True | c :: _ => p c = false end ->
  k s cs = Some m ->
  forall w, w <> [] -> Forall (fun c => p c = true) w ->
  mt (plus (Cls p)) (w ++ s) cs k = Some m.
Proof.
  intros Hs Hk w Hne Hw. destruct w as [|c w]; [congruence|].
  apply Forall_cons_iff in Hw as [Hc Hw].
  unfold plus. rewrite mt_Cat. simpl app.
  change (mt (Cls p) (c :: w ++ s) cs
            (fun s' cs' => mt (Rep true (Cls p)) s' cs' k))
    with (if p c then mt (Rep true (Cls p)) (w ++ s) cs k else None).
  rewrite Hc. now apply mt_Rep_run.
Qed.

Lemma notIn_run (l w : QString) :
  (forall c, In c l -> ~ In c w) ->
  Forall (fun c => negb (existsb (N.eqb c) l) = true) w.
Proof.
  intros H. apply Forall_forall. intros x Hx.
  apply negb_true_iff. destruct (existsb (N.eqb x) l) eqn:He; [|reflexivity].
  apply existsb_exists in He as (y & Hy & E). apply N.eqb_eq in E. subst y.
  exfalso. exact (H x Hy Hx).
Qed.


(** *** The first match of a pattern *)

Lemma search_first (r : regex) :
  forall t pos p m, search r t pos = Some (p, m) ->
  exists q, p = pos + q /\ q <= length t /\
            matchAt r (skipn q t) = Some m /\
            forall i, i < q -> matchAt r (skipn i t) = None.
Proof.
  induction t as [|c t IH]; intros pos p m H; cbn [search] in H.
  - destruct (matchAt r []) eqn:Hm; [|discriminate].
    inversion H; subst. exists 0. repeat split; auto; lia.
  - destruct (matchAt r (c :: t)) eqn:Hm.
    + inversion H; subst. exists 0. repeat split; auto; simpl; lia.
    + apply IH in H as (q & -> & Hq & Hmq & Hmin).
      exists (S q). split; [lia|]. split; [simpl; lia|].
      split; [exact Hmq|]. intros [|i] Hi; [exact Hm|].
      apply Hmin. lia.
Qed.

Lemma indexIn_first (r : regex) (s : QString) (from p len : nat)
                    (cs : Caps) :
  indexIn r s from = Some (p, len, cs) ->
  from <= p /\ p <= length s /\
  (exists rest, matchAt r (skipn p s) = Some (rest, cs) /\
                len = length s - p - length rest) /\
  forall i, from <= i -> i < p -> matchAt r (skipn i s) = None.
Proof.
  unfold indexIn. destruct (length s <? from) eqn:Hl; [discriminate|].
  apply Nat.ltb_ge in Hl.
  destruct (search r (skipn from s) from) as [[q [rest cs']]|] eqn:Hs;
    [|discriminate].
  intros H. inversion H; subst.
  apply search_first in Hs as (q & -> & Hq & Hm & Hmin).
  rewrite length_skipn in Hq. rewrite skipn_skipn in Hm.
  rewrite (Nat.add_comm q from) in Hm.
  split; [lia|]. split; [lia|]. split; [now exists rest|].
  intros i Hi1 Hi2. specialize (Hmin (i - from)).
  rewrite skipn_skipn in Hmin.
  replace (i - from + from) with i in Hmin by lia. apply Hmin. lia.
Qed.

Lemma search_None_all (r : regex) :
  forall t pos, search r t pos = None ->
  forall i, matchAt r (skipn i t) = None.
Proof.
  induction t as [|c t IH]; intros pos Hs i; cbn [search] in Hs.
  - destruct i; simpl; destruct (matchAt r []); congruence.
  - destruct (matchAt r (c :: t)) eqn:Hm; [discriminate|].
    destruct i as [|i]; [exact Hm|]. simpl. exact (IH _ Hs i).
Qed.

Lemma indexIn_None_all (r : regex) (s : QString) (from : nat) :
  from <= length s -> indexIn r s from = None ->
  forall i, matchAt r (skipn i (skipn from s)) = None.
Proof.
  unfold indexIn. intros Hl. apply Nat.ltb_ge in Hl. rewrite Hl.
  destruct (search r (skipn from s) from) as [[q [rest cs']]|] eqn:Hs;
    [discriminate|].
  intros _. exact (search_None_all r _ _ Hs).
Qed.

Lemma search_all_None (r : regex) (t : QString) :
  (forall i, matchAt r (skipn i t) = None) ->
  forall pos, search r t pos = None.
Proof.
  induction t as [|c t IH]; intros H pos; cbn [search].
  - pose proof (H 0) as H0. simpl in H0. now rewrite H0.
  - pose proof (H 0) as H0. simpl in H0. rewrite H0.
    apply IH. intros i. exact (H (S i)).
Qed.

(** A pass copies the text in which the pattern matches nowhere. *)
Lemma rewriteFrom_copies (r : regex) (f : QString -> Caps -> QString) :
  forall n t, n <= length t ->
    (forall i, i < n -> matchAt r (skipn i t) = None) ->
    rewriteFrom r f 0 t = firstn n t ++ rewriteFrom r f 0 (skipn n t).
Proof.
  induction n as [|n IH]; intros t Hn Hm; [reflexivity|].
  destruct t as [|c t]; [simpl in Hn; lia|].
  cbn [rewriteFrom]. pose proof (Hm 0 (Nat.lt_0_succ n)) as H0.
  simpl skipn in H0. rewrite H0.
  simpl. f_equal. apply IH; [simpl in Hn; lia|].
  intros i Hi. apply (Hm (S i)). lia.
Qed.

Lemma fixUrl_external (url : QString) :
  (indexOf url (qs "://") 0 >=? 0)%Z = true -> Rewrite.fixUrl url = url.
Proof. intros H. unfold Rewrite.fixUrl. now rewrite H. Qed.

Lemma indexOf_none_behind (c : QChar) (s : QString) (from : nat) :
  from <= length s -> (indexOf s [c] from < 0)%Z ->
  ~ In c (skipn from s).
Proof.
  intros Hl. unfold indexOf.
  apply Nat.ltb_ge in Hl. rewrite Hl.
  destruct (findFrom [c] (skipn from s) from) as [p|] eqn:Hf; [lia|].
  intros _. exact (findFrom_char_None _ _ _ Hf).
Qed.

Section LinkLoops.
Import Rewrite LegacyLinks Openings.
Variable C : Config.
Hypothesis Hh : isSpace (T C) (qc "h") = false.

(** The words of [linkPrefix]. *)
Lemma linkPrefix_shape (s rest : QString) (cs : Caps) :
  matchAt (linkPrefix C) s = Some (rest, cs) ->
  exists sp, s = qs "<a" ++ sp ++ qs "href=`/" ++ rest /\ sp <> [] /\
             Forall (fun c => isSpace (T C) c = true) sp.
Proof.
  unfold matchAt, linkPrefix. cbn [seq]. intros Hm.
  rewrite mt_Cat in Hm.
  apply (mt_sound _ (nocap_lit _)) in Hm as (u & s1 & -> & Hu & Hm).
  apply Lang_lit in Hu. subst u.
  rewrite mt_Cat in Hm.
  apply (mt_sound (plus (space C)) eq_refl) in Hm as (sp & s2 & -> & Hsp & Hm).
  apply (mt_sound _ (nocap_lit _)) in Hm as (u3 & s3 & -> & Hu3 & Hk).
  apply Lang_lit in Hu3. subst u3. inversion Hk; subst.
  apply Lang_plus_Cls in Hsp as (c & v & -> & HF).
  exists (c :: v). split; [reflexivity|]. split; [discriminate | exact HF].
Qed.

(** The words of [regLinks], and the path captured. *)
Lemma regLinks_shape (s rest : QString) (cs : Caps) :
  matchAt (regLinks (T C)) s = Some (rest, cs) ->
  exists sp w,
    s = qs "<a" ++ sp ++ qs "href=`/" ++ w ++ qc "`" :: rest /\
    sp <> [] /\ Forall (fun c => isSpace (T C) c = true) sp /\
    w <> [] /\ ~ In (qc "`") w /\ cs = [(1, w)].
Proof.
  unfold matchAt, regLinks. cbn [seq]. intros Hm.
  rewrite mt_Cat in Hm.
  apply (mt_sound _ (nocap_lit _)) in Hm as (u & s1 & -> & Hu & Hm).
  apply Lang_lit in Hu. subst u.
  rewrite mt_Cat in Hm.
  apply (mt_sound (plus (Cls (isSpace (T C)))) eq_refl) in Hm
    as (sp & s2 & -> & Hsp & Hm).
  rewrite mt_Cat in Hm.
  apply (mt_sound _ (nocap_lit _)) in Hm as (u3 & s3 & -> & Hu3 & Hm).
  apply Lang_lit in Hu3. subst u3.
  rewrite mt_Cat, mt_Cap in Hm.
  apply (mt_sound (plus (notIn (qs "`"))) eq_refl) in Hm
    as (w & s4 & -> & Hw & Hm).
  rewrite length_app, Nat.add_sub, firstn_app, Nat.sub_diag, firstn_all in Hm.
  simpl firstn in Hm. rewrite app_nil_r in Hm.
  apply (mt_sound (chr (qc "`")) eq_refl) in Hm as (v & s5 & -> & Hv & Hk).
  inversion Hk; subst. inversion Hv; subst.
  match goal with Hc : N.eqb _ _ = true |- _ =>
    apply N.eqb_eq in Hc; subst end.
  apply Lang_plus_Cls in Hsp as (c & v & -> & HF).
  apply notIn_word in Hw as [Hne Hq].
  exists (c :: v), w. split; [reflexivity|].
  split; [discriminate|]. split; [exact HF|]. split; [exact Hne|].
  split; [apply Hq; now left | reflexivity].
Qed.

(** [linkPrefix] matches the opening of a link. *)
Lemma linkPrefix_complete (sp rest : QString) :
  sp <> [] -> Forall (fun c => isSpace (T C) c = true) sp ->
  matchAt (linkPrefix C) (qs "<a" ++ sp ++ qs "href=`/" ++ rest)
  = Some (rest, []).
Proof.
  intros Hne Hsp. unfold matchAt, linkPrefix. cbn [seq].
  rewrite mt_Cat, mt_lit_complete, mt_Cat.
  apply mt_plus_run; [exact Hh | | exact Hne | exact Hsp].
  apply mt_lit_complete.
Qed.

(** [regLinks] matches the opening of a link with its path, up to the
    double quote. *)
Lemma regLinks_complete (sp w rest : QString) :
  sp <> [] -> Forall (fun c => isSpace (T C) c = true) sp ->
  w <> [] -> ~ In (qc "`") w ->
  matchAt (regLinks (T C))
          (qs "<a" ++ sp ++ qs "href=`/" ++ w ++ qc "`" :: rest)
  = Some (rest, [(1, w)]).
Proof.
  intros Hne Hsp Hw Hq. unfold matchAt, regLinks. cbn [seq].
  rewrite mt_Cat, mt_lit_complete, mt_Cat.
  apply mt_plus_run; [exact Hh | | exact Hne | exact Hsp].
  rewrite mt_Cat, mt_lit_complete, mt_Cat, mt_Cap.
  apply mt_plus_run; [reflexivity | | exact Hw |].
  - cbn [chr mt]. rewrite N.eqb_refl.
    replace (length (w ++ qc "`" :: rest) - length (qc "`" :: rest))
      with (length w) by (rewrite length_app; lia).
    now rewrite firstn_app, Nat.sub_diag, firstn_all, app_nil_r.
  - apply notIn_run. intros c [<-|[]]. exact Hq.
Qed.

(** [regLinks] matches only where [linkPrefix] does. *)
Lemma regLinks_linkPrefix (u rest : QString) (cs : Caps) :
  matchAt (regLinks (T C)) u = Some (rest, cs) ->
  exists w, matchAt (linkPrefix C) u = Some (w ++ qc "`" :: rest, []) /\
            w <> [] /\ ~ In (qc "`") w /\ cs = [(1, w)].
Proof.
  intros H. apply regLinks_shape in H as (sp & w & -> & Hne & Hsp & Hw & Hq & ->).
  exists w. split; [|auto].
  exact (linkPrefix_complete sp (w ++ qc "`" :: rest) Hne Hsp).
Qed.

Lemma regLinks_Leads : Leads lessThan (regLinks (T C)).
Proof.
  unfold regLinks. cbn [seq]. constructor.
  apply (Leads_lit (qc "<") (qs "a")).
Qed.

Lemma regLinks_head (c : QChar) (s : QString) :
  c <> qc "<" -> matchAt (regLinks (T C)) (c :: s) = None.
Proof.
  intros Hc. unfold matchAt. apply (Leads_mt _ _ regLinks_Leads).
  left. exact Hc.
Qed.

(** *** Openings written with one blank *)

Lemma blanks_run (sp s : QString) :
  Forall (fun c => isSpace (T C) c = true) sp ->
  match s with [] => True | c :: _ => isSpace (T C) c = false end ->
  blanks (T C) (sp ++ s) = length sp.
Proof.
  intros Hsp Hs. induction Hsp as [|c sp Hc Hsp IH].
  - destruct s as [|c s]; [reflexivity|]. simpl. now rewrite Hs.
  - simpl. now rewrite Hc, IH.
Qed.

Lemma plainOpening_blank (sp rest : QString) :
  sp <> [] -> Forall (fun c => isSpace (T C) c = true) sp ->
  plainOpening (T C) (qs "<a" ++ sp ++ qs "href=`/" ++ rest) = true ->
  sp = qs " ".
Proof.
  intros Hne Hsp. unfold plainOpening.
  change (startsWith (qs "<a") (qs "<a" ++ sp ++ qs "href=`/" ++ rest))
    with true.
  change (skipn 2 (qs "<a" ++ sp ++ qs "href=`/" ++ rest))
    with (sp ++ qs "href=`/" ++ rest).
  cbv zeta. rewrite (blanks_run sp (qs "href=`/" ++ rest) Hsp Hh).
  rewrite skipn_app, Nat.sub_diag, skipn_all.
  rewrite firstn_app, Nat.sub_diag, firstn_all.
  simpl skipn. simpl firstn. rewrite app_nil_r. cbn [app].
  match goal with
  | |- context [startsWith ?n ?t] =>
      assert (Hs : startsWith n t = true)
        by (apply startsWith_app; now exists rest);
      rewrite Hs
  end.
  destruct sp as [|c sp]; [congruence|]. cbn [length Nat.ltb Nat.leb andb].
  intros He. now apply eqs_eq in He.
Qed.

Lemma plainOpenings_skipn (s : QString) (n : nat) :
  plainOpenings (T C) s = true -> plainOpenings (T C) (skipn n s) = true.
Proof.
  revert s. induction n as [|n IH]; intros s H; [exact H|].
  destruct s as [|c s]; [exact H|].
  simpl skipn. apply IH. cbn [plainOpenings] in H.
  now apply andb_true_iff in H as [_ H].
Qed.

Lemma plainOpenings_head (s : QString) :
  plainOpenings (T C) s = true -> plainOpening (T C) s = true.
Proof.
  destruct s; cbn [plainOpenings]; intros H;
    now apply andb_true_iff in H as [H _].
Qed.

(** Where [linkPrefix] matches in a text with plain openings. *)
Lemma linkPrefix_plain (s rest : QString) (cs : Caps) :
  plainOpenings (T C) s = true ->
  matchAt (linkPrefix C) s = Some (rest, cs) ->
  s = qs "<a href=`/" ++ rest /\ isSpace (T C) (qc " ") = true.
Proof.
  intros Hp Hm. apply linkPrefix_shape in Hm as (sp & -> & Hne & Hsp).
  apply plainOpenings_head in Hp.
  pose proof (plainOpening_blank sp rest Hne Hsp Hp) as ->.
  split; [reflexivity|]. now inversion Hsp.
Qed.

(** *** One pass over a link *)

Lemma pass_quote (b : QString) :
  linkPass (T C) (qc "`" :: b) = qc "`" :: linkPass (T C) b.
Proof.
  unfold linkPass. cbn [rewriteFrom]. rewrite regLinks_head by discriminate. reflexivity.
Qed.

(** No link begins inside the opening of a link. *)
Lemma inside_opening (rest : QString) (i : nat) :
  0 < i -> i < 10 ->
  matchAt (regLinks (T C)) (skipn i (qs "<a href=`/" ++ rest)) = None.
Proof.
  intros H0 H10.
  do 10 (destruct i as [|i]; [try lia; apply regLinks_head; discriminate|]).
  lia.
Qed.

(** A text whose opening is not followed by a double quote holds no
    link. *)
Lemma pass_unterminated (rest : QString) (cs : Caps) :
  matchAt (linkPrefix C) (qs "<a href=`/" ++ rest) = Some (rest, cs) ->
  ~ In (qc "`") rest ->
  linkPass (T C) (qs "<a href=`/" ++ rest) = qs "<a href=`/" ++ rest.
Proof.
  intros Hm Hq. unfold linkPass. apply rewriteFrom_no_match. apply search_all_None.
  intros i.
  destruct (matchAt (regLinks (T C)) (skipn i (qs "<a href=`/" ++ rest)))
    as [[rest' cs']|] eqn:Hr; [|reflexivity].
  exfalso.
  destruct (Nat.eq_dec i 0) as [->|Hi0].
  - simpl skipn in Hr.
    apply regLinks_linkPrefix in Hr as (w & Hl & _).
    assert (E : Some (w ++ qc "`" :: rest', @nil (nat * QString))
                = Some (rest, cs)) by (rewrite <- Hl; exact Hm).
    inversion E; subst.
    apply Hq. apply in_or_app. right. now left.
  - destruct (Nat.lt_ge_cases i 10) as [Hlt|Hge].
    + rewrite inside_opening in Hr by lia. discriminate Hr.
    + apply regLinks_shape in Hr as (sp & w & Hs & _).
      apply Hq.
      assert (Hin : In (qc "`") (skipn i (qs "<a href=`/" ++ rest))).
      { rewrite Hs. apply in_or_app. right. apply in_or_app. right.
        apply in_or_app. right. apply in_or_app. right. now left. }
      replace i with ((i - 10) + 10) in Hin by lia.
      rewrite <- skipn_skipn in Hin.
      change (skipn 10 (qs "<a href=`/" ++ rest)) with rest in Hin.
      exact (In_skipn _ _ _ Hin).
Qed.

(** What the pass makes of a link whose path ends at a double quote. *)
Lemma pass_link (url b : QString) :
  isSpace (T C) (qc " ") = true ->
  ~ In (qc "`") url ->
  linkPass (T C) (qs "<a href=`/" ++ url ++ qc "`" :: b)
  = qs "<a href=`/" ++ fixUrl url ++ linkPass (T C) (qc "`" :: b).
Proof.
  intros Hsp Hq.
  assert (Hblank : Forall (fun c => isSpace (T C) c = true) (qs " "))
    by (constructor; [exact Hsp | constructor]).
  destruct url as [|c url].
  - (* an empty path: no link for the earlier revision *)
    change (fixUrl []) with (@nil QChar). cbn [app].
    unfold linkPass at 1.
    rewrite (rewriteFrom_copies _ _ 10); [reflexivity | simpl; lia |].
    intros i Hi.
    destruct (Nat.eq_dec i 0) as [->|Hi0];
      [|apply (inside_opening (qc "`" :: b)); lia].
    simpl skipn.
    destruct (matchAt (regLinks (T C)) (qs "<a href=`/" ++ qc "`" :: b))
      as [[rest' cs']|] eqn:Hr; [|exact Hr].
    exfalso.
    apply regLinks_linkPrefix in Hr as (w & Hl & Hw & Hqw & _).
    pose proof (linkPrefix_complete (qs " ") (qc "`" :: b)
                  ltac:(discriminate) Hblank) as Hl'.
    change (qs "<a" ++ qs " " ++ qs "href=`/" ++ qc "`" :: b)
      with (qs "<a href=`/" ++ qc "`" :: b) in Hl'.
    assert (E : Some (w ++ qc "`" :: rest', @nil (nat * QString))
                = Some (qc "`" :: b, [])) by (rewrite <- Hl; exact Hl').
    inversion E as [E'].
    destruct w as [|x w]; [congruence|].
    inversion E'; subst. apply Hqw. now left.
  - pose proof (regLinks_complete (qs " ") (c :: url) b
                  ltac:(discriminate) Hblank ltac:(discriminate) Hq) as Hm.
    change (qs "<a" ++ qs " " ++ qs "href=`/" ++ (c :: url) ++ qc "`" :: b)
      with (qs "<a href=`/" ++ (c :: url) ++ qc "`" :: b) in Hm.
    set (t := qs "<a href=`/" ++ (c :: url) ++ qc "`" :: b) in *.
    assert (Hs : search (regLinks (T C)) t 0 = Some (0, (b, [(1, c :: url)]))).
    { unfold t at 1. simpl app. cbn [search].
      change (chr_of_ascii "<" :: chr_of_ascii "a" :: chr_of_ascii " "
              :: chr_of_ascii "h" :: chr_of_ascii "r" :: chr_of_ascii "e"
              :: chr_of_ascii "f" :: chr_of_ascii "=" :: chr_of_ascii "`"
              :: chr_of_ascii "/" :: c :: url ++ qc "`" :: b) with t.
      now rewrite Hm. }
    unfold linkPass at 1. fold t.
    apply (rewriteFrom_first_match _ opening) in Hs as (q & Hq0 & _ & Hrw).
    assert (q = 0) by lia. subst q. clear Hq0.
    assert (Hlen : length t - 0 - length b = 10 + length (c :: url) + 1).
    { unfold t. rewrite !length_app.
      change (length (qs "<a href=`/")) with 10. cbn [length]. lia. }
    rewrite Hlen in Hrw. rewrite Hrw by lia. clear Hrw.
    change (firstn 0 t) with (@nil QChar). cbn [app].
    assert (Ht : t = (qs "<a href=`/" ++ (c :: url) ++ [qc "`"]) ++ b).
    { unfold t. rewrite <- !app_assoc. reflexivity. }
    assert (Hl2 : 10 + length (c :: url) + 1
                  = length (qs "<a href=`/" ++ (c :: url) ++ [qc "`"])).
    { rewrite !length_app.
      change (length (qs "<a href=`/")) with 10. cbn [length]. lia. }
    rewrite Nat.add_0_l. change (skipn 0 t) with t.
    rewrite Hl2, Ht, firstn_app_exact, skipn_app_exact.
    rewrite pass_quote. fold (linkPass (T C) b).
    unfold opening. cbn [cap Nat.eqb].
    destruct (indexOf (c :: url) (qs "://") 0 >=? 0)%Z eqn:He.
    + rewrite (fixUrl_external _ He). rewrite <- !app_assoc. reflexivity.
    + rewrite <- !app_assoc. reflexivity.
Qed.


(** *** The two loops *)

Lemma regLinks_nowhere (u : QString) :
  matchAt (linkPrefix C) u = None -> matchAt (regLinks (T C)) u = None.
Proof.
  intros Hl. destruct (matchAt (regLinks (T C)) u) as [[rest cs]|] eqn:Hr;
    [|reflexivity].
  apply regLinks_linkPrefix in Hr as (w & Hw & _). congruence.
Qed.

(** The loop of [fixedArticle] against the pass: what the loop has built,
    followed by the text from its position on, is what it had built
    followed by what the pass makes of the text from the position it
    began at. *)
Lemma fixedArticle_loop_pass (article : QString) :
  plainOpenings (T C) article = true ->
  forall fuel pos result,
    pos <= length article -> length article - pos < fuel ->
    exists pos' out,
      fixedArticle_loop C fuel article pos result = Some (pos', out) /\
      pos <= pos' /\
      (pos' = pos ->
       linkPass (T C) (skipn pos article) = skipn pos article) /\
      out ++ skipn pos' article
      = result ++ linkPass (T C) (skipn pos article).
Proof.
  intros Hplain.
  induction fuel as [|fuel IH]; intros pos result Hpos Hfuel; [lia|].
  cbn [fixedArticle_loop].
  destruct (indexIn (linkPrefix C) article pos) as [[[p len] cs]|] eqn:Hi.
  - apply indexIn_first in Hi as (H1 & H2 & (rest & Hm & Hlen) & Hmin).
    destruct (linkPrefix_plain _ _ _ (plainOpenings_skipn _ p Hplain) Hm)
      as [Hs Hsp].
    assert (Hl : length article - p = 10 + length rest).
    { rewrite <- length_skipn, Hs, length_app. reflexivity. }
    assert (Hl10 : len = 10) by lia. clear Hlen. subst len.
    set (X := firstn (p - pos) (skipn pos article)).
    assert (HX : length X = p - pos).
    { unfold X. rewrite length_firstn, length_skipn. lia. }
    assert (Hsplit : skipn pos article = X ++ skipn p article).
    { unfold X. rewrite <- (firstn_skipn (p - pos) (skipn pos article)) at 1.
      rewrite skipn_skipn. replace (p - pos + pos) with p by lia.
      reflexivity. }
    assert (Hpass : linkPass (T C) (skipn pos article)
                    = X ++ linkPass (T C) (skipn p article)).
    { unfold linkPass.
      rewrite (rewriteFrom_copies _ _ (p - pos)).
      - rewrite skipn_skipn. replace (p - pos + pos) with p by lia.
        reflexivity.
      - rewrite length_skipn. lia.
      - intros i Hi. rewrite skipn_skipn. apply regLinks_nowhere.
        apply Hmin; lia. }
    assert (Hfirst : firstn (p + 10 - pos) (skipn pos article)
                     = X ++ qs "<a href=`/").
    { rewrite Hsplit, Hs, app_assoc.
      replace (p + 10 - pos) with (length (X ++ qs "<a href=`/"))
        by (rewrite length_app, HX; simpl; lia).
      apply firstn_app_exact. }
    assert (Hrest : skipn (p + 10) article = rest).
    { replace (p + 10) with (10 + p) by lia.
      rewrite <- skipn_skipn, Hs. reflexivity. }
    rewrite Hs in Hm.
    cbv zeta.
    destruct (indexOf article [dq] (p + 10) <? 0)%Z eqn:Hz.
    + (* no double quote: the loop is left *)
      apply Z.ltb_lt in Hz.
      apply indexOf_none_behind in Hz; [|lia]. rewrite Hrest in Hz.
      eexists _, _. split; [reflexivity|]. split; [lia|].
      split; [intros; lia|].
      rewrite Hfirst, Hrest, Hpass, Hs.
      rewrite (pass_unterminated _ _ Hm Hz).
      now rewrite <- !app_assoc.
    + apply Z.ltb_ge in Hz.
      destruct (indexOf_char dq article (p + 10) _ eq_refl Hz)
        as (a & b & Ha & Hla & Hfrom & Hnq).
      rewrite <- Hla, Nat2Z.id.
      set (url := skipn (p + 10) a) in *.
      assert (Hrest2 : rest = url ++ dq :: b).
      { rewrite <- Hrest. rewrite Ha at 1. rewrite skipn_app.
        replace (p + 10 - length a) with 0 by lia. reflexivity. }
      assert (Hmid : mid article (Z.of_nat (p + 10))
                         (Z.of_nat (length a) - Z.of_nat (p + 10)) = url).
      { rewrite <- Nat2Z.inj_sub by lia.
        rewrite mid_inside by (rewrite Ha at 1; rewrite length_app; lia).
        rewrite Hrest, Hrest2.
        replace (length a - (p + 10)) with (length url)
          by (unfold url; rewrite length_skipn; lia).
        apply firstn_app_exact. }
      rewrite Hmid.
      assert (Hnext : skipn (length a) article = dq :: b).
      { rewrite Ha. apply skipn_app_exact. }
      assert (Hla' : length a <= length article).
      { rewrite Ha, length_app. lia. }
      destruct (IH (length a)
                   ((result ++ firstn (p + 10 - pos) (skipn pos article))
                      ++ fixUrl url))
        as (pos' & out & Hout & Hle & _ & Heq); [lia | lia |].
      exists pos', out. split; [exact Hout|]. split; [lia|].
      split; [intros; lia|].
      rewrite Heq, Hnext, Hfirst, Hpass, Hs, Hrest2.
      unfold dq. rewrite (pass_link url b Hsp Hnq).
      now rewrite <- !app_assoc.
  - assert (Hid : linkPass (T C) (skipn pos article) = skipn pos article).
    { unfold linkPass. apply rewriteFrom_no_match. apply search_all_None.
      intros i. apply regLinks_nowhere.
      exact (indexIn_None_all _ _ _ Hpos Hi i). }
    eexists _, _. split; [reflexivity|]. split; [lia|].
    split; [intros _; exact Hid|]. now rewrite Hid.
Qed.

(** X24.  On an article in which the openings of links to paths from the
    root are written with one blank, [RootBasedUrlFixer::fixedArticle]
    of the current revision returns what the loop over the links of the
    earlier revision leaves (the letter h not being white space): moving
    the loop into a class of its own changed nothing for such articles.
    The earlier loop puts one blank in place of any white space of an
    opening it rewrites, which the current one keeps: that is what the
    condition is for. *)
Theorem link_fixing_kept_by_refactoring (article : QString) :
  plainOpenings (T C) article = true ->
  fixedArticle C article = fixedLinks (T C) article.
Proof.
  intros Hplain. unfold fixedArticle, fixedLinks.
  destruct (fixedArticle_loop_pass article Hplain
              (S (length article)) 0 [])
    as (pos' & out & Hout & _ & Hid & Heq); [lia | lia |].
  rewrite Hout, linksLoop_pass by lia.
  cbn [firstn skipn app] in *. fold (linkPass (T C) article).
  destruct (pos' =? 0) eqn:Hp.
  - apply Nat.eqb_eq in Hp. now rewrite (Hid Hp).
  - now rewrite Heq.
Qed.


End LinkLoops.

Lemma link_fixing_kept_by_refactoring_witness :
  let article :=
    qs "<p><a href=`/wiki/A:b#c_d`>x</a> <a href=`/`>y</a> <a href=`/z</p>" in
  isSpace (Rewrite.T Rewrite.sampleConfig) (qc "h") = false /\
  Openings.plainOpenings (Rewrite.T Rewrite.sampleConfig) article = true /\
  Rewrite.fixedArticle Rewrite.sampleConfig article
  = LegacyLinks.fixedLinks (Rewrite.T Rewrite.sampleConfig) article.
Proof.
  intros article.
  assert (Hh : isSpace (Rewrite.T Rewrite.sampleConfig) (qc "h") = false)
    by reflexivity.
  assert (Hp : Openings.plainOpenings (Rewrite.T Rewrite.sampleConfig)
                 article = true) by (vm_compute; reflexivity).
  split; [exact Hh|]. split; [exact Hp|].
  exact (link_fixing_kept_by_refactoring Rewrite.sampleConfig Hh article Hp).
Defined.
